(** * Conjugat: the verb dataset builder, the dataset validator and the
      practice-prompt engine, embedded in Rocq.

    The development follows the JavaScript sources:
    - the build script of the verb dataset, in its version that ranks the
      verbs it selects (FreeDict parser, selection of the verbs by
      frequency, per-verb conjugation fetch),
    - the validation script (structural check of [verbs.json]),
    - the application component [App.jsx] (regular conjugation formulas,
      prompt selection, filter toggles, per-character status), with its
      handling of typed input and hints, and its later version, whose
      prompt engine has a verb limit and checks that a prompt remains,
    - the analytics module [analytics.js].

    Strings.  A JavaScript string is a sequence of UTF-16 code units.  All the
    text these programs handle is Catalan or markup, whose code units lie
    below U+0100, so a [string] is read here as a sequence of code units
    U+0000..U+00FF, one [ascii] per code unit: [c 233] is the e with an acute
    accent, [c 231] the c with a cedilla.  String literals of this file are
    plain ASCII. *)

From Stdlib Require Import ZArith QArith Lia.
From Stdlib Require Ascii String.
From stdpp Require Import base option list gmap strings sorting.

Local Open Scope nat_scope.

(** ** JavaScript strings *)

Module JS.

Import Stdlib.Strings.Ascii.

Definition chars (s : string) : list ascii := String.list_ascii_of_string s.
Definition str (l : list ascii) : string := String.string_of_list_ascii l.

(** The code unit with number [n]. *)
Definition c (n : nat) : ascii := ascii_of_nat n.
Definition code (a : ascii) : nat := nat_of_ascii a.

Definition ascii_eqb (a b : ascii) : bool := Ascii.eqb a b.

(** [!value] for a string: only the empty string is falsy. *)
Definition nonEmpty (s : string) : bool :=
  match s with EmptyString => false | String _ _ => true end.

Fixpoint isPrefix (p s : list ascii) : bool :=
  match p, s with
  | [], _ => true
  | a :: p', b :: s' => ascii_eqb a b && isPrefix p' s'
  | _ :: _, [] => false
  end.

(** [s.startsWith(p)], [s.endsWith(p)], [s.includes(p)]. *)
Definition startsWith (s p : string) : bool := isPrefix (chars p) (chars s).

Definition endsWith (s p : string) : bool :=
  isPrefix (rev (chars p)) (rev (chars s)).

Fixpoint isInfix (p s : list ascii) : bool :=
  isPrefix p s || match s with [] => false | _ :: s' => isInfix p s' end.

Definition includes (s p : string) : bool := isInfix (chars p) (chars s).

(** [s.slice(0, -2)]: everything but the last two code units; the empty
    string when there are fewer than two. *)
Definition slice_0_minus2 (s : string) : string :=
  str (take (length (chars s) - 2) (chars s)).

(** [s.split(sep)[0]] for a one-unit separator: the text before the first
    occurrence of [sep], the whole string when there is none. *)
Fixpoint beforeFirst (sep : ascii) (l : list ascii) : list ascii :=
  match l with
  | [] => []
  | a :: l' => if ascii_eqb a sep then [] else a :: beforeFirst sep l'
  end.

Definition splitFirst (sep : ascii) (s : string) : string :=
  str (beforeFirst sep (chars s)).

(** White space and line terminators below U+0100: TAB, LF, VT, FF, CR,
    SPACE and NO-BREAK SPACE.  This is the class [\s] and what [trim]
    removes. *)
Definition isSpace (a : ascii) : bool :=
  let n := code a in
  (n =? 9) || (n =? 10) || (n =? 11) || (n =? 12) || (n =? 13)
  || (n =? 32) || (n =? 160).

Fixpoint trimStart (l : list ascii) : list ascii :=
  match l with
  | [] => []
  | a :: l' => if isSpace a then trimStart l' else l
  end.

Definition trim (s : string) : string :=
  str (rev (trimStart (rev (trimStart (chars s))))).

(** [toLowerCase] on code units below U+0100: A-Z and the capital letters
    U+00C0..U+00DE (the multiplication sign U+00D7 apart) move up by 32;
    every other unit is kept. *)
Definition lowerUnit (a : ascii) : ascii :=
  let n := code a in
  if ((65 <=? n) && (n <=? 90))
     || ((192 <=? n) && (n <=? 222) && negb (n =? 215))
  then c (n + 32) else a.

Definition toLowerCase (s : string) : string := str (map lowerUnit (chars s)).

End JS.

(** ** Regular expressions

    The build script scans its inputs with regular expressions.  [run] is a
    backtracking matcher with the priorities of the JavaScript engine: the
    left alternative first, a greedy star tries one more iteration before it
    stops, a lazy star stops before it tries one more, and an iteration that
    consumes nothing is rejected.  One capture group is enough for the
    expressions of the script. *)

Module Regex.

Import Stdlib.Strings.Ascii.
Import JS.

Inductive regex : Type :=
  | Eps
  | Chr (p : ascii -> bool)
  | Cat (r1 r2 : regex)
  | Alt (r1 r2 : regex)
  | Star (greedy : bool) (r : regex)
  | Group (r : regex)
  | EndOfInput.

Definition orElse {R} (x : option R) (y : unit -> option R) : option R :=
  match x with Some v => Some v | None => y tt end.

Fixpoint run {R} (r : regex) (s : list ascii) (cap : option (list ascii))
    (k : list ascii -> option (list ascii) -> option R) : option R :=
  match r with
  | Eps => k s cap
  | Chr p =>
      match s with
      | a :: s' => if p a then k s' cap else None
      | [] => None
      end
  | Cat r1 r2 => run r1 s cap (fun s1 cap1 => run r2 s1 cap1 k)
  | Alt r1 r2 => orElse (run r1 s cap k) (fun _ => run r2 s cap k)
  | Star greedy r1 =>
      (fix loop (n : nat) (s : list ascii) (cap : option (list ascii))
           {struct n} : option R :=
         match n with
         | 0 => k s cap
         | S n' =>
             let again (_ : unit) :=
               run r1 s cap (fun s1 cap1 =>
                 if length s1 <? length s then loop n' s1 cap1 else None) in
             if greedy then orElse (again tt) (fun _ => k s cap)
             else orElse (k s cap) again
         end) (S (length s)) s cap
  | Group r1 =>
      run r1 s cap (fun s1 _ => k s1 (Some (take (length s - length s1) s)))
  | EndOfInput => match s with [] => k s cap | _ :: _ => None end
  end.

(** A successful match: where it starts, the matched text ([match[0]]), the
    capture ([match[1]]) and the input that follows the match. *)
Record found : Type := Found {
  f_index : nat;
  f_text : list ascii;
  f_group : option (list ascii);
  f_rest : list ascii
}.

Definition matchHere (r : regex) (s : list ascii)
  : option (list ascii * option (list ascii)) :=
  run r s None (fun s' cap => Some (s', cap)).

(** The leftmost match, as [String.prototype.match] and [RegExp.prototype.exec]
    find it: start positions are tried from left to right. *)
Fixpoint search (r : regex) (s : list ascii) (i : nat) : option found :=
  match matchHere r s with
  | Some (s', cap) => Some (Found i (take (length s - length s') s) cap s')
  | None =>
      match s with
      | [] => None
      | _ :: s' => search r s' (S i)
      end
  end.

(** [value.replace(/r/g, by)] for a constant replacement. *)
Fixpoint replaceAll_from (fuel : nat) (r : regex) (by_ s : list ascii)
  : list ascii :=
  match fuel with
  | 0 => s
  | S fuel' =>
      match search r s 0 with
      | None => s
      | Some f =>
          take (f_index f) s ++ by_ ++
          match f_text f, f_rest f with
          | [], [] => []
          | [], a :: rest => a :: replaceAll_from fuel' r by_ rest
          | _ :: _, rest => replaceAll_from fuel' r by_ rest
          end
      end
  end.

Definition replaceAll (r : regex) (by_ : string) (s : string) : string :=
  str (replaceAll_from (S (length (chars s))) r (chars by_) (chars s)).

(** The texts [match[0]] of the successive matches of a global expression,
    as the loop [while ((match = re.exec(text)) !== null)] sees them. *)
Fixpoint execAll_from (fuel : nat) (r : regex) (s : list ascii)
  : list (list ascii) :=
  match fuel with
  | 0 => []
  | S fuel' =>
      match search r s 0 with
      | None => []
      | Some f =>
          f_text f ::
          match f_text f, f_rest f with
          | [], [] => []
          | [], _ :: rest => execAll_from fuel' r rest
          | _ :: _, rest => execAll_from fuel' r rest
          end
      end
  end.

Definition execAll (r : regex) (s : string) : list string :=
  map str (execAll_from (S (length (chars s))) r (chars s)).

(** [s.match(/r/)]: the capture of the leftmost match. *)
Definition matchGroup (r : regex) (s : string) : option string :=
  match search r (chars s) 0 with
  | Some f => Some (str (default [] (f_group f)))
  | None => None
  end.

(** [/r/.test(s)]. *)
Definition test (r : regex) (s : string) : bool :=
  match search r (chars s) 0 with Some _ => true | None => false end.

(** Building blocks. *)
Definition lit (a : ascii) : regex := Chr (ascii_eqb a).
Definition notChr (a : ascii) : regex := Chr (fun b => negb (ascii_eqb a b)).
Definition seq (rs : list regex) : regex := foldr Cat Eps rs.
Definition lits (s : string) : regex := seq (map lit (chars s)).
Definition plus (greedy : bool) (r : regex) : regex := Cat r (Star greedy r).

(** [[\s\S]], [.] (anything but a line terminator) and [\s]. *)
Definition anyUnit : regex := Chr (fun _ => true).
Definition dot : regex :=
  Chr (fun a => negb ((code a =? 10) || (code a =? 13))).
Definition space : regex := Chr isSpace.

(** A literal under the [i] flag: the only units below U+0100 that the flag
    identifies with a letter are its two cases. *)
Definition litNoCase (a : ascii) : regex :=
  Chr (fun b => ascii_eqb (lowerUnit a) (lowerUnit b)).
Definition litsNoCase (s : list ascii) : regex := seq (map litNoCase s).

End Regex.

(** ** The dataset builder (the build script) *)

Module BuildVerbs.

Import Stdlib.Strings.Ascii.
Import JS Regex.

Definition MAX_VERBS : nat := 500.

Definition PERSON_LABELS : list string :=
  ["jo"; "tu"; "ell"; "nosaltres"; "vosaltres"; "ells"].

Definition getGroup (infinitive : string) : string :=
  if endsWith infinitive "ar" then "ar"
  else if endsWith infinitive "ir" then "ir"
  else "er".

(** [value.replace(/<[^>]+>/g, "")] *)
Definition stripTags (value : string) : string :=
  replaceAll (seq [lit (c 60); plus true (notChr (c 62)); lit (c 62)]) "" value.

(** [value.replace(/\s+/g, " ").trim()] *)
Definition normalizeText (value : string) : string :=
  trim (replaceAll (plus true space) " " value).

(** *** The FreeDict parser *)

(** [/<entry[\s\S]*?<\/entry>/g] *)
Definition entryRegex : regex :=
  seq [lits "<entry"; Star false anyUnit; lits "</entry>"].

(** [/<orth[^>]*>(.*?)<\/orth>/] *)
Definition orthRegex : regex :=
  seq [lits "<orth"; Star true (notChr (c 62)); lit (c 62);
       Group (Star false dot); lits "</orth>"].

(** [/<pos[^>]*>(.*?)<\/pos>/] *)
Definition posRegex : regex :=
  seq [lits "<pos"; Star true (notChr (c 62)); lit (c 62);
       Group (Star false dot); lits "</pos>"].

(** The class of the two quotation marks, U+0022 and U+0027. *)
Definition quoteMark : regex :=
  Chr (fun a => (code a =? 34) || (code a =? 39)).

(** [/<cit[^>]*type=["']trans["'][\s\S]*?<quote[^>]*>(.*?)<\/quote>/] *)
Definition quoteRegex : regex :=
  seq [lits "<cit"; Star true (notChr (c 62)); lits "type="; quoteMark;
       lits "trans"; quoteMark; Star false anyUnit;
       lits "<quote"; Star true (notChr (c 62)); lit (c 62);
       Group (Star false dot); lits "</quote>"].

(** The body of the loop of [parseFreeDict] up to the update of the map:
    the lemma and the raw translation of an entry, or [None] where the loop
    says [continue]. *)
Definition parseEntry (entry : string) : option (string * string) :=
  match matchGroup orthRegex entry with
  | None => None
  | Some orth =>
      let lemma := normalizeText (stripTags orth) in
      if negb (nonEmpty lemma) then None else
      match matchGroup posRegex entry with
      | None => None
      | Some posText =>
          let pos := toLowerCase (normalizeText (stripTags posText)) in
          if negb (String.eqb pos "v" || startsWith pos "verb") then None else
          match matchGroup quoteRegex entry with
          | None => None
          | Some quote =>
              let rawTranslation := normalizeText (stripTags quote) in
              if negb (nonEmpty rawTranslation) then None
              else Some (lemma, rawTranslation)
          end
      end
  end.

(** [if (!map.has(lemma)) map.set(lemma, rawTranslation)] *)
Definition addEntry (map : gmap string string) (entry : string)
  : gmap string string :=
  match parseEntry entry with
  | None => map
  | Some (lemma, rawTranslation) =>
      match map !! lemma with
      | Some _ => map
      | None => <[lemma := rawTranslation]> map
      end
  end.

Definition entriesOf (teiText : string) : list string :=
  execAll entryRegex teiText.

Definition parseFreeDict (teiText : string) : gmap string string :=
  foldl addEntry ∅ (entriesOf teiText).

(** *** Candidate selection *)

Definition isVerbCandidate (word : string) : bool :=
  if negb (nonEmpty word) then false
  else if includes word " " then false
  else if includes word "-" then false
  else if includes word (String (c 39) EmptyString) then false
  else if endsWith word "-se" || endsWith word "se" then false
  else endsWith word "ar" || endsWith word "er" || endsWith word "re"
       || endsWith word "ir".

Definition normalizeTranslation (value : string) : string :=
  if negb (nonEmpty value) then value else
  let cleaned := trim (splitFirst (c 44) (splitFirst (c 59) value)) in
  if negb (nonEmpty cleaned) then value
  else if startsWith cleaned "to " then cleaned
  else "to " +:+ cleaned.

(** The expression [/(car|gar|Car)$/i] of the script, where [C] stands here
    for the c with a cedilla, the code unit [c 231]. *)
Definition orthographyRegex : regex :=
  seq [Group (Alt (Alt (litsNoCase (chars "car")) (litsNoCase (chars "gar")))
                  (litsNoCase (c 231 :: chars "ar")));
       EndOfInput].

Definition isOrthographic (word : string) : bool := test orthographyRegex word.

(** An element of [selected] and of [orthographyCandidates]. *)
Record candidate : Type := Candidate {
  c_infinitive : string;
  c_translation : string;
  c_rank : nat
}.

(** The variables of the first loop of [main]. *)
Record selection : Type := Selection {
  selected : list candidate;
  missingTranslations : list string;
  orthographyCandidates : list candidate;
  rank : nat
}.

Definition emptySelection : selection := Selection [] [] [] 0.

(** The first loop of [main]: [for (const word of freqWords) { ... }]. *)
Fixpoint mainPass (translationMap : gmap string string)
    (freqWords : list string) (st : selection) : selection :=
  match freqWords with
  | [] => st
  | word :: rest =>
      if MAX_VERBS <=? length (selected st) then st
      else if negb (isVerbCandidate word) then mainPass translationMap rest st
      else
        let translationRaw := default "" (translationMap !! word) in
        if negb (nonEmpty translationRaw) then
          mainPass translationMap rest
            (Selection (selected st) (missingTranslations st ++ [word])
                       (orthographyCandidates st) (rank st))
        else
          let translation := normalizeTranslation translationRaw in
          if isOrthographic word then
            let rank' := rank st + 1 in
            mainPass translationMap rest
              (Selection (selected st) (missingTranslations st)
                 (orthographyCandidates st ++ [Candidate word translation rank'])
                 rank')
          else
            let rank' := rank st + 1 in
            mainPass translationMap rest
              (Selection (selected st ++ [Candidate word translation rank'])
                 (missingTranslations st) (orthographyCandidates st) rank')
  end.

(** The second loop of [main]:
    [for (const candidate of orthographyCandidates) { ... }]. *)
Fixpoint includeOrthographic (candidates : list candidate)
    (sel : list candidate) : list candidate :=
  match candidates with
  | [] => sel
  | candidate :: rest =>
      if MAX_VERBS <=? length sel then sel
      else includeOrthographic rest (sel ++ [candidate])
  end.

(** The list [selected] when the second loop is over. *)
Definition selectVerbs (translationMap : gmap string string)
    (freqWords : list string) : list candidate :=
  let st := mainPass translationMap freqWords emptySelection in
  includeOrthographic (orthographyCandidates st) (selected st).

(** *** Conjugation tables and the per-verb fetch *)

Definition IRREGULAR_VERBS : list string :=
  ["ser"; "estar"; "anar"; "fer"; "tenir"; "venir"; "dir"; "veure";
   "con" +:+ String (c 232) "ixer"; "creure"; "poder"; "voler"; "saber";
   "haver"; "dur"; "posar"; "prendre"; "treure"; "moure"; "riure"; "caure";
   "valer"; "sortir"; "seure"; "asseure"; "fondre"; "sorprendre"].

Definition MANUAL_TRANSLATIONS : gmap string string :=
  list_to_map
    [("ser", "to be"); ("estar", "to be"); ("anar", "to go");
     ("fer", "to do"); ("tenir", "to have"); ("venir", "to come");
     ("dir", "to say"); ("veure", "to see"); ("poder", "to be able");
     ("voler", "to want"); ("saber", "to know"); ("haver", "to have");
     ("posar", "to put"); ("sortir", "to go out")].

(** The object [tenses] of [parseConjugationsFromHtml]: one table from
    person to form for each of its seven keys. *)
Record conjugations : Type := Conjugations {
  present : gmap string string;
  imperfect : gmap string string;
  future : gmap string string;
  conditional : gmap string string;
  subjunctive_present : gmap string string;
  subjunctive_imperfect : gmap string string;
  imperative : gmap string string
}.

(** [Object.entries(requiredByTense)], in the order of the literal. *)
Definition requiredByTense (tenses : conjugations)
  : list (string * gmap string string) :=
  [("present", present tenses); ("imperfect", imperfect tenses);
   ("future", future tenses); ("conditional", conditional tenses);
   ("subjunctive_present", subjunctive_present tenses);
   ("subjunctive_imperfect", subjunctive_imperfect tenses)].

(** [!tenses[tense][person]]: the cell is absent or the empty string. *)
Definition cellMissing (table : gmap string string) (person : string) : bool :=
  negb (nonEmpty (default "" (table !! person))).

(** The first (tense, person) at which the completeness loop throws. *)
Definition firstMissing (tenses : conjugations) : option (string * string) :=
  head (concat (map (fun '(tense, table) =>
                       map (fun person => (tense, person))
                           (filter (fun person => cellMissing table person = true)
                                   PERSON_LABELS))
                    (requiredByTense tenses))).

(** What a call leaves behind: a value, or an [Error] with its message. *)
Inductive result (A : Type) : Type :=
  | Ok (a : A)
  | Thrown (message : string).
Arguments Ok {A} a.
Arguments Thrown {A} message.

(** An element of the array [verbs] that is written to [verbs.json]. *)
Record builtVerb : Type := BuiltVerb {
  v_infinitive : string;
  v_translation : string;
  v_regular : bool;
  v_group : string;
  v_rank : nat;
  v_tenses : conjugations
}.

(** The two arrays that the last loop of [main] fills. *)
Record assembly : Type := Assembly {
  verbs : list builtVerb;
  missingConjugations : list string
}.

(** [a || b] on strings: the left operand when it is not empty. *)
Definition orString (a b : string) : string := if nonEmpty a then a else b.

Section Assembly.

(** The state of the remote site and of the suggestion cache is not
    modelled; it is threaded through the calls.  [extractTables] stands for
    the markup scan of [parseConjugationsFromHtml] (its seven tables) and
    [fetchConjugationHtml] for the two network requests; an [inl] is the
    message of the error the request throws.  The files under [.cache] are
    a map from their name to their text; reading and writing them does not
    fail. *)
Context {Remote : Type}.
Variable extractTables : string -> conjugations.
Variable fetchConjugationHtml : string -> Remote -> (string + string) * Remote.

(** The world of the build: the files under [.cache] and the remote. *)
Record world : Type := World {
  cache : gmap string string;
  remote : Remote
}.

(** Computations that read and write the world and may throw. *)
Definition M (A : Type) : Type := world -> result A * world.

Definition ret {A} (a : A) : M A := fun w => (Ok a, w).
Definition throw {A} (message : string) : M A := fun w => (Thrown message, w).
Definition bind {A B} (m : M A) (f : A -> M B) : M B :=
  fun w => match m w with
           | (Ok a, w') => f a w'
           | (Thrown message, w') => (Thrown message, w')
           end.
Definition tryCatch {A} (m : M A) (handler : string -> M A) : M A :=
  fun w => match m w with
           | (Ok a, w') => (Ok a, w')
           | (Thrown message, w') => handler message w'
           end.

Notation "'let*' x ':=' m 'in' k" := (bind m (fun x => k))
  (at level 10, x pattern, m at level 100, k at level 200).

Definition readCache (path : string) : M (option string) :=
  fun w => (Ok (cache w !! path), w).
Definition writeCache (path text : string) : M unit :=
  fun w => (Ok tt, World (<[path := text]> (cache w)) (remote w)).
Definition download (infinitive : string) : M string :=
  fun w => match fetchConjugationHtml infinitive (remote w) with
           | (inr html, r) => (Ok html, World (cache w) r)
           | (inl message, r) => (Thrown message, World (cache w) r)
           end.

Definition parseConjugationsFromHtml (html infinitive : string)
  : M conjugations :=
  let tenses := extractTables html in
  match firstMissing tenses with
  | Some (tense, person) =>
      throw ("Missing " +:+ person +:+ " for " +:+ infinitive
             +:+ " (" +:+ tense +:+ ")")
  | None => ret tenses
  end.

Definition fetchIrregularConjugations (infinitive : string)
  : M conjugations :=
  let cachePath := "verbs-cat-" +:+ infinitive +:+ ".html" in
  let* cached := readCache cachePath in
  let* html :=
    match cached with
    | Some html =>
        if negb (includes html "Indicative mood") then
          let* html' := download infinitive in
          let* _ := writeCache cachePath html' in
          ret html'
        else ret html
    | None =>
        let* html' := download infinitive in
        let* _ := writeCache cachePath html' in
        ret html'
    end in
  parseConjugationsFromHtml html infinitive.

(** The object pushed on [verbs] when the fetch succeeds. *)
Definition buildVerb (translationMap : gmap string string)
    (verb : candidate) (tenses : conjugations) : builtVerb :=
  let infinitive := c_infinitive verb in
  let isIrregular :=
    bool_decide (infinitive ∈ IRREGULAR_VERBS) || isOrthographic infinitive in
  BuiltVerb infinitive
    (orString
       (normalizeTranslation
          (orString (default "" (translationMap !! infinitive))
             (orString (c_translation verb)
                (orString (default "" (MANUAL_TRANSLATIONS !! infinitive))
                          ""))))
       "")
    (negb isIrregular) (getGroup infinitive) (c_rank verb) tenses.

(** The body of the last loop: the [try] block and its [catch]. *)
Definition fetchVerb (translationMap : gmap string string)
    (verb : candidate) (acc : assembly) : M assembly :=
  tryCatch
    (let* tenses := fetchIrregularConjugations (c_infinitive verb) in
     ret (Assembly (verbs acc ++ [buildVerb translationMap verb tenses])
                   (missingConjugations acc)))
    (fun message =>
       ret (Assembly (verbs acc)
              (missingConjugations acc
               ++ [c_infinitive verb +:+ ": " +:+ message]))).

(** [for (const verb of selected) { try { ... } catch (error) { ... } }] *)
Fixpoint fetchAll (translationMap : gmap string string)
    (selected : list candidate) (acc : assembly) : M assembly :=
  match selected with
  | [] => ret acc
  | verb :: rest =>
      let* acc' := fetchVerb translationMap verb acc in
      fetchAll translationMap rest acc'
  end.

(** What each fetch answers when the selected verbs are fetched one after
    the other from the world [w]. *)
Fixpoint outcomes (selected : list candidate) (w : world)
  : list (candidate * result conjugations) :=
  match selected with
  | [] => []
  | verb :: rest =>
      let '(r, w') := fetchIrregularConjugations (c_infinitive verb) w in
      (verb, r) :: outcomes rest w'
  end.

(** The entries of [verbs] and the lines of [missingConjugations] that
    such a sequence of answers stands for. *)
Definition keptVerbs (translationMap : gmap string string)
    (answers : list (candidate * result conjugations)) : list builtVerb :=
  omap (fun '(verb, r) =>
          match r with
          | Ok tenses => Some (buildVerb translationMap verb tenses)
          | Thrown _ => None
          end) answers.

Definition diagnostics (answers : list (candidate * result conjugations))
  : list string :=
  omap (fun '(verb, r) =>
          match r with
          | Ok _ => None
          | Thrown message => Some (c_infinitive verb +:+ ": " +:+ message)
          end) answers.

End Assembly.

Definition ranks (l : list candidate) : list nat := map c_rank l.

(** What the first loop maintains: the ranks handed out so far lie between 1
    and [rank], no rank was handed out twice, and each of the two lists has
    its ranks in increasing order. *)
Record ranksInvariant (st : selection) : Prop := RanksInvariant {
  inv_selected : StronglySorted lt (ranks (selected st));
  inv_deferred : StronglySorted lt (ranks (orthographyCandidates st));
  inv_range : forall r, r ∈ ranks (selected st) ++ ranks (orthographyCandidates st)
                        -> 1 <= r <= rank st;
  inv_distinct : NoDup (ranks (selected st) ++ ranks (orthographyCandidates st))
}.

End BuildVerbs.

(** ** The dataset validator (the validation script) *)

Module ValidateVerbs.

Import JS.

(** The values [JSON.parse] produces.  An object is the list of its
    properties; a key occurs once. *)
#[warnings="-register-all"]
Inductive json : Type :=
  | JNull
  | JBool (b : bool)
  | JNum (q : Q)
  | JStr (s : string)
  | JArr (items : list json)
  | JObj (fields : list (string * json)).

(** A property read yields [None] for [undefined]. *)
Fixpoint lookupField (fields : list (string * json)) (key : string)
  : option json :=
  match fields with
  | [] => None
  | (k, v) :: rest => if String.eqb k key then Some v else lookupField rest key
  end.

(** [value[key]] for the keys the validator reads (names of fields, tenses
    and persons): only an object has them. *)
Definition getProp (value : json) (key : string) : option json :=
  match value with
  | JObj fields => lookupField fields key
  | _ => None
  end.

(** JavaScript truthiness. *)
Definition truthy (value : option json) : bool :=
  match value with
  | None | Some JNull => false
  | Some (JBool b) => b
  | Some (JNum q) => negb (Qeq_bool q 0)
  | Some (JStr s) => nonEmpty s
  | Some (JArr _) | Some (JObj _) => true
  end.

(** [typeof value === "object"] *)
Definition typeofObject (value : option json) : bool :=
  match value with
  | Some JNull | Some (JArr _) | Some (JObj _) => true
  | _ => false
  end.

Definition PERSONS : list string :=
  ["jo"; "tu"; "ell"; "nosaltres"; "vosaltres"; "ells"].

Definition TENSES : list string :=
  ["present"; "imperfect"; "future"; "conditional"; "subjunctive_present";
   "subjunctive_imperfect"; "imperative"].

Definition REQUIRED_BY_TENSE : list (string * list string) :=
  [("present", PERSONS); ("imperfect", PERSONS); ("future", PERSONS);
   ("conditional", PERSONS); ("subjunctive_present", PERSONS);
   ("subjunctive_imperfect", PERSONS); ("imperative", [])].

(** [REQUIRED_BY_TENSE[tense] || PERSONS]; an array, even empty, is truthy. *)
Definition requiredPersons (tense : string) : list string :=
  match find (fun kv => String.eqb kv.1 tense) REQUIRED_BY_TENSE with
  | Some kv => kv.2
  | None => PERSONS
  end.

(** [!value || typeof value !== "string" || !value.trim()] *)
Definition formMissing (value : option json) : bool :=
  match value with
  | Some (JStr s) => negb (nonEmpty s) || negb (nonEmpty (trim s))
  | _ => true
  end.

(** One turn of the loop over [TENSES]. *)
Definition tenseIssues (tenses : json) (tense : string) : list string :=
  let tenseBlock := getProp tenses tense in
  if negb (truthy tenseBlock) || negb (typeofObject tenseBlock) then
    ["missing-tense:" +:+ tense]
  else
    map (fun person => "missing-form:" +:+ tense +:+ ":" +:+ person)
        (filter (fun person =>
                   formMissing (getProp (default JNull tenseBlock) person) = true)
                (requiredPersons tense)).

Definition validateVerb (verb : json) : list string :=
  if negb (truthy (Some verb)) || negb (typeofObject (Some verb)) then
    ["invalid-verb-object"]
  else
    let issues :=
      if negb (truthy (getProp verb "infinitive")) then ["missing-infinitive"]
      else [] in
    let tenses := getProp verb "tenses" in
    if negb (truthy tenses) || negb (typeofObject tenses) then
      issues ++ ["missing-tenses"]
    else
      issues ++ concat (map (tenseIssues (default JNull tenses)) TENSES).

(** An element of [report]. *)
Record reportEntry : Type := ReportEntry {
  r_infinitive : json;
  r_issues : list string
}.

(** The loop of [main] that fills [report]; the check fails when the report
    is not empty. *)
Definition validate (verbs : list json) : list reportEntry :=
  omap (fun verb =>
          match validateVerb verb with
          | [] => None
          | issues =>
              let infinitive := getProp verb "infinitive" in
              Some (ReportEntry
                      (if truthy infinitive then default JNull infinitive
                       else JStr "unknown")
                      issues)
          end) verbs.

(** *** The entries the statements are about *)

(** The cell of the table holds a form: a string with something other than
    white space in it. *)
Definition hasForm (tenses : json) (tense person : string) : bool :=
  match getProp tenses tense with
  | Some block =>
      match getProp block person with
      | Some (JStr s) => nonEmpty (trim s)
      | _ => false
      end
  | None => false
  end.

(** The table has a block for the tense: an object or an array. *)
Definition hasBlock (tenses : json) (tense : string) : bool :=
  match getProp tenses tense with
  | Some (JObj _) | Some (JArr _) => true
  | _ => false
  end.

(** The required cells: every person of every tense but the imperative,
    which requires none. *)
Definition requiredCells : list (string * string) :=
  concat (map (fun tense => map (fun person => (tense, person))
                                (requiredPersons tense)) TENSES).

Definition sameCell (a b : string * string) : bool :=
  String.eqb a.1 b.1 && String.eqb a.2 b.2.

(** An entry with its infinitive, a block for each of the seven tenses and a
    form in every required cell. *)
Definition complete (verb : json) : bool :=
  truthy (getProp verb "infinitive")
  && match getProp verb "tenses" with
     | Some tenses =>
         forallb (hasBlock tenses) TENSES
         && forallb (fun cell => hasForm tenses cell.1 cell.2) requiredCells
     | None => false
     end.

(** An entry like a complete one, except that the cell [missing] holds no
    form. *)
Definition lacksOnly (missing : string * string) (verb : json) : bool :=
  truthy (getProp verb "infinitive")
  && match getProp verb "tenses" with
     | Some tenses =>
         forallb (hasBlock tenses) TENSES
         && forallb (fun cell =>
                       if sameCell cell missing
                       then negb (hasForm tenses cell.1 cell.2)
                       else hasForm tenses cell.1 cell.2) requiredCells
     | None => false
     end.

(** All the required cells hold a form; nothing is asked of the imperative,
    not even its block. *)
Definition hasRequiredCells (verb : json) : bool :=
  truthy (getProp verb "infinitive")
  && match getProp verb "tenses" with
     | Some tenses =>
         forallb (fun cell => hasForm tenses cell.1 cell.2) requiredCells
     | None => false
     end.

End ValidateVerbs.

(** ** The application ([App.jsx], its first version) *)

Module App.

Import Stdlib.Strings.Ascii.
Import JS.

Definition PERSONS : list string :=
  ["jo"; "tu"; "ell"; "nosaltres"; "vosaltres"; "ells"].

Definition TENSES : list string :=
  ["present"; "imperfect"; "future"; "conditional"].

(** *** Per-character status *)

(** [normalize("NFD")] on one code unit below U+0100: the canonical
    decomposition of the accented Latin letters into the base letter and a
    combining mark; the other units have none.  The result is a sequence of
    code units, given by their numbers. *)
Definition nfdUnit (a : ascii) : list N :=
  let n := N_of_ascii a in
  let grave := 768%N in let acute := 769%N in let circumflex := 770%N in
  let tilde := 771%N in let diaeresis := 776%N in let ring := 778%N in
  let cedilla := 807%N in
  match n with
  | 192 => [65; grave] | 193 => [65; acute] | 194 => [65; circumflex]
  | 195 => [65; tilde] | 196 => [65; diaeresis] | 197 => [65; ring]
  | 199 => [67; cedilla]
  | 200 => [69; grave] | 201 => [69; acute] | 202 => [69; circumflex]
  | 203 => [69; diaeresis]
  | 204 => [73; grave] | 205 => [73; acute] | 206 => [73; circumflex]
  | 207 => [73; diaeresis]
  | 209 => [78; tilde]
  | 210 => [79; grave] | 211 => [79; acute] | 212 => [79; circumflex]
  | 213 => [79; tilde] | 214 => [79; diaeresis]
  | 217 => [85; grave] | 218 => [85; acute] | 219 => [85; circumflex]
  | 220 => [85; diaeresis]
  | 221 => [89; acute]
  | 224 => [97; grave] | 225 => [97; acute] | 226 => [97; circumflex]
  | 227 => [97; tilde] | 228 => [97; diaeresis] | 229 => [97; ring]
  | 231 => [99; cedilla]
  | 232 => [101; grave] | 233 => [101; acute] | 234 => [101; circumflex]
  | 235 => [101; diaeresis]
  | 236 => [105; grave] | 237 => [105; acute] | 238 => [105; circumflex]
  | 239 => [105; diaeresis]
  | 241 => [110; tilde]
  | 242 => [111; grave] | 243 => [111; acute] | 244 => [111; circumflex]
  | 245 => [111; tilde] | 246 => [111; diaeresis]
  | 249 => [117; grave] | 250 => [117; acute] | 251 => [117; circumflex]
  | 252 => [117; diaeresis]
  | 253 => [121; acute] | 255 => [121; diaeresis]
  | _ => [n]
  end%N.

Definition normalizeNFD (value : string) : list N :=
  concat (map nfdUnit (chars value)).

(** The class of the combining marks, U+0300..U+036F. *)
Definition isCombiningMark (u : N) : bool := ((768 <=? u) && (u <=? 879))%N.

(** [normalize("NFD")], then the combining marks are removed; what is left
    is below U+0100 again. *)
Definition stripAccents (value : string) : string :=
  str (map ascii_of_N
           (filter (fun u => isCombiningMark u = false) (normalizeNFD value))).

Definition baseChar (char : string) : string :=
  stripAccents (toLowerCase char).

Definition getStatus (typedChar expectedChar : string) (isHinted : bool)
  : string :=
  if negb (nonEmpty typedChar) then "empty"
  else if isHinted then "yellow"
  else
    let typedLower := toLowerCase typedChar in
    let expectedLower := toLowerCase expectedChar in
    if String.eqb typedLower expectedLower then "green"
    else if String.eqb (baseChar typedLower) (baseChar expectedLower)
    then "yellow"
    else "red".

(** *** Regular conjugation *)

Definition getVerbGroup (infinitive : string) : string :=
  if endsWith infinitive "ar" then "ar"
  else if endsWith infinitive "ir" then "ir"
  else if endsWith infinitive "er" || endsWith infinitive "re" then "er"
  else "ar".

(** [{ jo: ..., tu: ..., ... }[person] ?? ""] *)
Definition formOf (forms : list (string * string)) (person : string) : string :=
  match find (fun kv => String.eqb kv.1 person) forms with
  | Some kv => kv.2
  | None => ""
  end.

Definition regularPresent (infinitive group person : string) : string :=
  let stem := slice_0_minus2 infinitive in
  if String.eqb group "ar" then
    formOf [("jo", stem +:+ "o"); ("tu", stem +:+ "es"); ("ell", stem +:+ "a");
            ("nosaltres", stem +:+ "em"); ("vosaltres", stem +:+ "eu");
            ("ells", stem +:+ "en")] person
  else if String.eqb group "ir" then
    formOf [("jo", stem +:+ "o"); ("tu", stem +:+ "s"); ("ell", stem);
            ("nosaltres", stem +:+ "im"); ("vosaltres", stem +:+ "iu");
            ("ells", stem +:+ "en")] person
  else
    formOf [("jo", stem +:+ "o"); ("tu", stem +:+ "s"); ("ell", stem);
            ("nosaltres", stem +:+ "em"); ("vosaltres", stem +:+ "eu");
            ("ells", stem +:+ "en")] person.

(** [u n] is the one-unit string of the code unit [n]: 224 a grave,
    233 e acute, 237 i acute. *)
Definition u (n : nat) : string := String (c n) EmptyString.

Definition regularImperfect (infinitive group person : string) : string :=
  let stem := slice_0_minus2 infinitive in
  if String.eqb group "ar" then
    formOf [("jo", stem +:+ "ava"); ("tu", stem +:+ "aves");
            ("ell", stem +:+ "ava"); ("nosaltres", stem +:+ u 224 +:+ "vem");
            ("vosaltres", stem +:+ u 224 +:+ "veu"); ("ells", stem +:+ "aven")]
           person
  else
    formOf [("jo", stem +:+ "ia"); ("tu", stem +:+ "ies"); ("ell", stem +:+ "ia");
            ("nosaltres", stem +:+ u 237 +:+ "em");
            ("vosaltres", stem +:+ u 237 +:+ "eu"); ("ells", stem +:+ "ien")]
           person.

Definition regularFuture (infinitive person : string) : string :=
  formOf [("jo", infinitive +:+ u 233); ("tu", infinitive +:+ u 224 +:+ "s");
          ("ell", infinitive +:+ u 224); ("nosaltres", infinitive +:+ "em");
          ("vosaltres", infinitive +:+ "eu"); ("ells", infinitive +:+ "an")]
         person.

Definition regularConditional (infinitive person : string) : string :=
  formOf [("jo", infinitive +:+ "ia"); ("tu", infinitive +:+ "ies");
          ("ell", infinitive +:+ "ia"); ("nosaltres", infinitive +:+ u 237 +:+ "em");
          ("vosaltres", infinitive +:+ u 237 +:+ "eu");
          ("ells", infinitive +:+ "ien")]
         person.

(** An element of [verbs.json] as the application reads it; an absent
    property is [None]. *)
Record verb : Type := Verb {
  infinitive : string;
  translation : string;
  regular : option bool;
  group : option string;
  tenses : option (gmap string (gmap string string));
  present : option (gmap string string)
}.

Definition getConjugation (verb : verb) (tense person : string) : string :=
  let stored :=
    match tenses verb with
    | Some table => default "" (table !! tense ≫= fun block => block !! person)
    | None => ""
    end in
  if nonEmpty stored then stored
  else
    let group := default (getVerbGroup (infinitive verb)) (group verb) in
    if String.eqb tense "present" then
      default (regularPresent (infinitive verb) group person)
              (present verb ≫= fun forms => forms !! person)
    else if String.eqb tense "imperfect" then
      regularImperfect (infinitive verb) group person
    else if String.eqb tense "future" then
      regularFuture (infinitive verb) person
    else if String.eqb tense "conditional" then
      regularConditional (infinitive verb) person
    else "".

(** *** Prompt selection *)

(** A filter object such as [enabledPersons]: its keys with their flags. *)
Abbreviation flags := (gmap string bool).

(** [flagsObject[key]] as a condition: enabled when present and [true]. *)
Definition isOn (object : flags) (key : string) : bool :=
  default false (object !! key).

(** An element of [currentPrompt]. *)
Record prompt : Type := Prompt {
  p_verb : verb;
  p_person : string;
  p_tense : string;
  p_key : string
}.

(** [verb.regular !== false] *)
Definition isRegular (verb : verb) : bool :=
  match regular verb with Some false => false | _ => true end.

(** The predicate of [verbs.filter] in [pickNextPrompt]. *)
Definition passesVerbFilters (verbFilters : flags) (verb : verb) : bool :=
  let regular := isRegular verb in
  if regular && negb (isOn verbFilters "regular") then false
  else if negb regular && negb (isOn verbFilters "irregular") then false
  else true.

(** A value of [Math.random()]: the number [num / (num + slack + 1)], which
    lies in the interval from 0 (included) to 1 (excluded). *)
Record randomValue : Type := RandomValue { num : nat; slack : nat }.

(** [Math.floor(Math.random() * n)] *)
Definition randomIndex (r : randomValue) (n : nat) : nat :=
  (num r * n) / (num r + slack r + 1).

(** How a call ends.  [Threw] is the [TypeError] of a property read on
    [undefined]; [Unfinished] is a loop that the model stopped for lack of
    fuel. *)
Inductive outcome (A : Type) : Type :=
  | Returned (a : A)
  | Threw
  | Unfinished.
Arguments Returned {A} a.
Arguments Threw {A}.
Arguments Unfinished {A}.

(** [lastKey && next.key === lastKey]; [lastKey] is [None] for [null] and
    [undefined]. *)
Definition repeats (lastKey : option string) (next : prompt) : bool :=
  match lastKey with
  | Some k => nonEmpty k && String.eqb (p_key next) k
  | None => false
  end.

Section Prompts.

(** The dataset imported from [./data/verbs.json]. *)
Variable verbs : list verb.

Definition enabledList (enabledPersons : flags) : list string :=
  filter (fun person => isOn enabledPersons person = true) PERSONS.

Definition enabledTenseList (enabledTenses : flags) : list string :=
  filter (fun tense => isOn enabledTenses tense = true) TENSES.

Definition filteredVerbs (verbFilters : flags) : list verb :=
  filter (fun verb => passesVerbFilters verbFilters verb = true) verbs.

Definition makePrompt (verb : verb) (person tense : string) : prompt :=
  Prompt verb person tense
         (infinitive verb +:+ "-" +:+ person +:+ "-" +:+ tense).

(** The body of the loop at its turn number [tries]; [rng k] is the value of
    the [k]-th call of [Math.random] made by this call of
    [pickNextPrompt].  An index outside of an array yields [undefined],
    and [verb.infinitive] then throws. *)
Definition draw (filtered : list verb) (enabled tenseList : list string)
    (rng : nat -> randomValue) (tries : nat) : option prompt :=
  verb ← filtered !! randomIndex (rng (3 * tries)) (length filtered);
  person ← enabled !! randomIndex (rng (3 * tries + 1)) (length enabled);
  tense ← tenseList !! randomIndex (rng (3 * tries + 2)) (length tenseList);
  Some (makePrompt verb person tense).

(** [!next || (lastKey && next.key === lastKey && tries < 10)] *)
Definition goesOn (lastKey : option string) (next : option prompt)
    (tries : nat) : bool :=
  match next with
  | None => true
  | Some p => repeats lastKey p && (tries <? 10)
  end.

(** The [while] loop, from the state [(next, tries)]. *)
Fixpoint retry (fuel : nat) (filtered : list verb)
    (enabled tenseList : list string) (lastKey : option string)
    (rng : nat -> randomValue) (next : option prompt) (tries : nat)
  : outcome (option prompt) :=
  if goesOn lastKey next tries then
    match fuel with
    | 0 => Unfinished
    | S fuel' =>
        match draw filtered enabled tenseList rng tries with
        | Some p =>
            retry fuel' filtered enabled tenseList lastKey rng (Some p)
                  (S tries)
        | None => Threw
        end
    end
  else Returned next.

Definition pickNextPrompt (enabledPersons enabledTenses verbFilters : flags)
    (lastKey : option string) (rng : nat -> randomValue)
  : outcome (option prompt) :=
  let enabled := enabledList enabledPersons in
  let tenseList := enabledTenseList enabledTenses in
  if length enabled =? 0 then Returned None
  else if length tenseList =? 0 then Returned None
  else
    let filtered := filteredVerbs verbFilters in
    if length filtered =? 0 then Returned None
    else retry 10 filtered enabled tenseList lastKey rng None 0.

Definition isPromptAllowed (prompt : option prompt)
    (enabledPersons enabledTenses verbFilters : flags) : bool :=
  match prompt with
  | None => false
  | Some p =>
      if negb (isOn enabledPersons (p_person p)) then false
      else if negb (isOn enabledTenses (p_tense p)) then false
      else passesVerbFilters verbFilters (p_verb p)
  end.

(** The instances [pickNextPrompt] draws from: every verb that passes the
    verb-type filter with every enabled person and every enabled tense. *)
Definition candidateInstances (enabledPersons enabledTenses verbFilters : flags)
  : list prompt :=
  verb ← filteredVerbs verbFilters;
  person ← enabledList enabledPersons;
  tense ← enabledTenseList enabledTenses;
  [makePrompt verb person tense].

End Prompts.

(** *** Filter toggles *)

(** The three filter objects of the component's state. *)
Record filterState : Type := FilterState {
  enabledPersons : flags;
  enabledTenses : flags;
  verbFilters : flags
}.

(** [Object.values(prev).filter(Boolean).length] *)
Definition enabledCount (prev : flags) : nat :=
  length (filter (fun kv => kv.2 = true) (map_to_list prev)).

(** The updater the three toggles pass to their state setter:
    [if (prev[key] && enabledCount === 1) return prev;
     return { ...prev, [key]: !prev[key] }]. *)
Definition toggled (key : string) (prev : flags) : flags :=
  if isOn prev key && (enabledCount prev =? 1) then prev
  else <[key := negb (isOn prev key)]> prev.

Definition togglePerson (person : string) (st : filterState) : filterState :=
  FilterState (toggled person (enabledPersons st)) (enabledTenses st)
              (verbFilters st).

Definition toggleTense (tense : string) (st : filterState) : filterState :=
  FilterState (enabledPersons st) (toggled tense (enabledTenses st))
              (verbFilters st).

Definition toggleVerbFilter (key : string) (st : filterState) : filterState :=
  FilterState (enabledPersons st) (enabledTenses st)
              (toggled key (verbFilters st)).

(** At least one person, one tense and one verb type are enabled. *)
Definition atLeastOneEach (st : filterState) : Prop :=
  1 <= enabledCount (enabledPersons st)
  /\ 1 <= enabledCount (enabledTenses st)
  /\ 1 <= enabledCount (verbFilters st).

(** The state the component starts with. *)
Definition initialState : filterState :=
  FilterState
    (list_to_map [("jo", true); ("tu", true); ("ell", true);
                  ("nosaltres", true); ("vosaltres", true); ("ells", true)])
    (list_to_map [("present", true); ("imperfect", true); ("future", true);
                  ("conditional", true)])
    (list_to_map [("regular", true); ("irregular", true)]).

End App.

(** ** Sample data *)

Module Samples.

Import JS.

(** *** Entries of [verbs.json] for the validator *)

Section Entries.
Import ValidateVerbs.

Definition blockOf (persons : list string) : json :=
  JObj (map (fun person => (person, JStr "x")) persons).

Definition tableOf (tenses : list string) : json :=
  JObj (map (fun tense => (tense, blockOf PERSONS)) tenses).

(** "ser" with its seven blocks, every cell filled. *)
Definition serComplete : json :=
  JObj [("infinitive", JStr "ser"); ("regular", JBool false);
        ("tenses", tableOf TENSES)].

(** "anar", irregular, whose future block has no "tu". *)
Definition anarWithoutFutureTu : json :=
  JObj [("infinitive", JStr "anar"); ("regular", JBool false);
        ("tenses",
         JObj [("present", blockOf PERSONS); ("imperfect", blockOf PERSONS);
               ("future",
                blockOf ["jo"; "ell"; "nosaltres"; "vosaltres"; "ells"]);
               ("conditional", blockOf PERSONS);
               ("subjunctive_present", blockOf PERSONS);
               ("subjunctive_imperfect", blockOf PERSONS);
               ("imperative", JObj [])])].

(** "fer" with every required cell and no imperative block. *)
Definition ferWithoutImperative : json :=
  JObj [("infinitive", JStr "fer"); ("regular", JBool false);
        ("tenses",
         tableOf ["present"; "imperfect"; "future"; "conditional";
                  "subjunctive_present"; "subjunctive_imperfect"])].

(** "parlar", regular, stored without a table, and with an empty one. *)
Definition parlarWithoutTable : json :=
  JObj [("infinitive", JStr "parlar"); ("regular", JBool true);
        ("group", JStr "ar")].

Definition parlarEmptyTable : json :=
  JObj [("infinitive", JStr "parlar"); ("regular", JBool true);
        ("group", JStr "ar"); ("tenses", JObj [])].
End Entries.

(** *** Inputs of the dataset builder *)

Section Builder.
Import BuildVerbs.

(** Two verb entries with the lemma "parlar" and different translations,
    and a noun between them. *)
Definition parlarEntry1 : string :=
  "<entry><form><orth>parlar</orth></form><gramGrp><pos>v</pos></gramGrp><sense><cit type='trans'><quote>to speak</quote></cit></sense></entry>".
Definition casaEntry : string :=
  "<entry><form><orth>casa</orth></form><gramGrp><pos>n</pos></gramGrp><sense><cit type='trans'><quote>house</quote></cit></sense></entry>".
Definition parlarEntry2 : string :=
  "<entry><form><orth>parlar</orth></form><gramGrp><pos>verb</pos></gramGrp><sense><cit type='trans'><quote>to <hi>talk</hi></quote></cit></sense></entry>".

Definition teiWithDuplicate : string :=
  "<TEI><text><body>" +:+ parlarEntry1 +:+ " " +:+ casaEntry +:+ " "
  +:+ parlarEntry2 +:+ "</body></text></TEI>".

(** A frequency list with an orthographic verb between two others. *)
Definition threeVerbs : list string := ["parlar"; "tocar"; "dormir"].

Definition threeTranslations : gmap string string :=
  list_to_map [("parlar", "speak"); ("tocar", "touch, feel");
               ("dormir", "to sleep")].

(** A remote that fails for "anar" and answers a page with a table that
    lacks the "tu" of the future for "fer"; the pages are named after the
    verb. *)
Definition fullTable : gmap string string :=
  list_to_map (map (fun person => (person, "x")) PERSON_LABELS).

Definition sampleExtract (html : string) : conjugations :=
  Conjugations fullTable fullTable
    (if String.eqb html "fer" then delete "tu" fullTable else fullTable)
    fullTable fullTable fullTable ∅.

Definition sampleRemote (infinitive : string) (visits : nat)
  : (string + string) * nat :=
  if String.eqb infinitive "anar" then (inl "Failed to fetch: 503", S visits)
  else (inr infinitive, S visits).

Definition fourSelected : list candidate :=
  [Candidate "ser" "to be" 1; Candidate "anar" "to go" 2;
   Candidate "fer" "to do" 3; Candidate "dir" "to say" 4].
End Builder.

(** *** Datasets and filters of the application *)

Section Prompts.
Import App.

Definition parlar : verb :=
  Verb "parlar" "to speak" (Some true) (Some "ar") None None.

Definition onlyJo : flags :=
  list_to_map [("jo", true); ("tu", false); ("ell", false);
               ("nosaltres", false); ("vosaltres", false); ("ells", false)].

Definition joAndTu : flags :=
  list_to_map [("jo", true); ("tu", true); ("ell", false);
               ("nosaltres", false); ("vosaltres", false); ("ells", false)].

Definition onlyPresent : flags :=
  list_to_map [("present", true); ("imperfect", false); ("future", false);
               ("conditional", false)].

Definition noPerson : flags :=
  list_to_map [("jo", false); ("tu", false); ("ell", false);
               ("nosaltres", false); ("vosaltres", false); ("ells", false)].

Definition bothTypes : flags := verbFilters initialState.

(** [Math.random] answering 0 at every call. *)
Definition alwaysZero : nat -> randomValue := fun _ => RandomValue 0 0.

(** The state in which only "jo" is enabled among the persons. *)
Definition onlyJoState : filterState :=
  FilterState onlyJo (enabledTenses initialState) (verbFilters initialState).
End Prompts.

End Samples.

(** ** Typing an answer ([App.jsx]) *)

Module Typing.

Import Stdlib.Strings.Ascii.
Import JS App.

(** The one-unit string of a code unit, as [typed[i]] is. *)
Definition unit1 (a : ascii) : string := String a EmptyString.

(** [s[i]]: [None] stands for [undefined]. *)
Definition charAt (s : string) (i : nat) : option ascii := chars s !! i.

(** [s[i]] where the code goes on with the value: the empty string stands
    for [undefined], which is as falsy and is joined as nothing. *)
Definition charOrEmpty (s : string) (i : nat) : string :=
  match charAt s i with Some a => unit1 a | None => EmptyString end.

(** [s.slice(0, n)] *)
Definition sliceTo (n : nat) (s : string) : string := str (take n (chars s)).

(** The status of the typed character at position [i]. *)
Definition statusAt (typed expected : string) (hintedSet : gset nat) (i : nat)
  : string :=
  getStatus (charOrEmpty typed i) (charOrEmpty expected i)
            (bool_decide (i ∈ hintedSet)).

(** The two [return i] of the loop of [findFirstRedIndex]. *)
Definition stopsAt (typed expected : string) (hintedSet : gset nat) (i : nat)
  : bool :=
  match charAt expected i with
  | None => true
  | Some _ => String.eqb (statusAt typed expected hintedSet i) "red"
  end.

Definition findFirstRedIndex (typed expected : string) (hintedSet : gset nat)
  : Z :=
  match find (stopsAt typed expected hintedSet)
             (seq 0 (length (chars typed))) with
  | Some i => Z.of_nat i
  | None => (-1)%Z
  end.

(** The value [handleInputChange] passes to [setInputValue]. *)
Definition handleInputChange (expectedAnswer : string)
    (hintedIndices : gset nat) (rawValue : string) : string :=
  let normalized := toLowerCase rawValue in
  if nonEmpty expectedAnswer then
    let nextValue :=
      if length (chars expectedAnswer) <? length (chars normalized)
      then sliceTo (length (chars expectedAnswer)) normalized
      else normalized in
    let redIndex := findFirstRedIndex nextValue expectedAnswer hintedIndices in
    if negb (redIndex =? -1)%Z then sliceTo (Z.to_nat (redIndex + 1)) nextValue
    else nextValue
  else normalized.

(** What typing and hinting change. *)
Record typingState : Type := TypingState {
  inputValue : string;
  hintedIndices : gset nat;
  hintsUsed : nat
}.

(** The [while] loop of [handleHint], from [index]; [fuel] is what is left
    of [expectedLower.length]. *)
Fixpoint hintIndexFrom (fuel index : nat) (inputValue expectedLower : string)
  : nat :=
  match fuel with
  | 0 => index
  | S fuel' =>
      match charAt inputValue index with
      | None => index
      | Some a =>
          if String.eqb (toLowerCase (unit1 a)) (charOrEmpty expectedLower index)
          then hintIndexFrom fuel' (S index) inputValue expectedLower
          else index
      end
  end.

(** The test of the loop of [handleHint] at one position. *)
Definition matchesAt (inputValue expectedLower : string) (index : nat) : bool :=
  match charAt inputValue index with
  | None => false
  | Some a =>
      String.eqb (toLowerCase (unit1 a)) (charOrEmpty expectedLower index)
  end.

Definition hintIndex (inputValue expectedAnswer : string) : nat :=
  let expectedLower := toLowerCase expectedAnswer in
  hintIndexFrom (length (chars expectedLower)) 0 inputValue expectedLower.

(** [nextChars.join("")] *)
Definition join (parts : list string) : string := foldr String.append "" parts.

Definition handleHint (expectedAnswer : string) (st : typingState)
  : typingState :=
  if negb (nonEmpty expectedAnswer) then st
  else
    let expectedLower := toLowerCase expectedAnswer in
    let index := hintIndex (inputValue st) expectedAnswer in
    if length (chars expectedLower) <=? index then st
    else
      let nextChars := map unit1 (chars (inputValue st)) in
      let nextChars' :=
        if index <? length nextChars
        then <[index := charOrEmpty expectedAnswer index]> nextChars
        else nextChars ++ [charOrEmpty expectedAnswer index] in
      TypingState (toLowerCase (join nextChars'))
                  ({[index]} ∪ hintedIndices st) (S (hintsUsed st)).

(** The test under which the effect on [inputValue] keeps a hinted index:
    the character is there and equals the expected one up to case. *)
Definition stillHinted (inputValue expectedAnswer : string) (index : nat)
  : bool :=
  match charAt inputValue index with
  | None => false
  | Some a =>
      match charAt expectedAnswer index with
      | None => false
      | Some e => String.eqb (toLowerCase (unit1 a)) (toLowerCase (unit1 e))
      end
  end.

(** The updater of the effect that prunes [hintedIndices]. *)
Definition pruneHinted (inputValue expectedAnswer : string) (prev : gset nat)
  : gset nat :=
  if negb (nonEmpty expectedAnswer) then prev
  else filter (fun index => stillHinted inputValue expectedAnswer index = true)
              prev.

(** The condition under which the answer is taken as complete. *)
Definition answerComplete (inputValue expectedAnswer : string) : bool :=
  nonEmpty expectedAnswer
  && String.eqb (toLowerCase inputValue) (toLowerCase expectedAnswer)
  && (length (chars (toLowerCase inputValue))
      =? length (chars (toLowerCase expectedAnswer))).

End Typing.

(** ** The application with a verb limit ([App.jsx], the version that lists
       the available prompts) *)

Module Practice.

Import JS App.

Definition PERSONS : list string :=
  ["jo"; "tu"; "ell"; "nosaltres"; "vosaltres"; "ells"].

Definition TENSES : list string :=
  ["present"; "imperfect"; "future"; "conditional"; "subjunctive_present";
   "subjunctive_imperfect"; "imperative"].

Definition VERB_LIMITS : list Z := [100; 300; 500]%Z.

(** An element of [verbs.json]; [rank] is [None] when the property is not a
    number. *)
Record verb : Type := Verb {
  infinitive : string;
  translation : string;
  regular : option bool;
  rank : option Z;
  tenses : option (gmap string (gmap string string))
}.

(** [verb.tenses?.[tense]?.[person] ?? ""] *)
Definition getConjugation (verb : verb) (tense person : string) : string :=
  match tenses verb with
  | Some table =>
      match table !! tense with
      | Some block => default "" (block !! person)
      | None => ""
      end
  | None => ""
  end.

Definition getVerbRank (verb : verb) (index : nat) : Z :=
  match rank verb with
  | Some r => r
  | None => (Z.of_nat index + 1)%Z
  end.

(** [verb.regular !== false] *)
Definition isRegular (verb : verb) : bool :=
  match regular verb with Some false => false | _ => true end.

(** The predicate of [verbs.filter] in [getFilteredVerbs]. *)
Definition keepsVerb (verbFilters : flags) (verbLimit : Z) (verb : verb)
    (index : nat) : bool :=
  let regular := isRegular verb in
  if regular && negb (isOn verbFilters "regular") then false
  else if negb regular && negb (isOn verbFilters "irregular") then false
  else
    let rank := getVerbRank verb index in
    if (verbLimit <? rank)%Z then false else true.

(** [verbs.filter((verb, index) => ...)], the elements from [index] on. *)
Fixpoint filterFrom (verbFilters : flags) (verbLimit : Z) (index : nat)
    (verbs : list verb) : list verb :=
  match verbs with
  | [] => []
  | verb :: rest =>
      if keepsVerb verbFilters verbLimit verb index
      then verb :: filterFrom verbFilters verbLimit (S index) rest
      else filterFrom verbFilters verbLimit (S index) rest
  end.

(** An element of [prompts]. *)
Record prompt : Type := Prompt {
  p_verb : verb;
  p_person : string;
  p_tense : string;
  p_key : string
}.

Definition keyOf (verb : verb) (person tense : string) : string :=
  infinitive verb +:+ "-" +:+ person +:+ "-" +:+ tense.

(** [lastKey && key === lastKey]; [None] is [null] or [undefined]. *)
Definition isLastKey (lastKey : option string) (key : string) : bool :=
  match lastKey with
  | Some k => nonEmpty k && String.eqb key k
  | None => false
  end.

Definition getAvailablePrompts (filteredVerbs : list verb)
    (enabledPersons enabledTenses : flags) (lastKey : option string)
  : list prompt :=
  let enabledPersonList :=
    filter (fun person => isOn enabledPersons person = true) PERSONS in
  let enabledTenseList :=
    filter (fun tense => isOn enabledTenses tense = true) TENSES in
  if (length enabledPersonList =? 0) || (length enabledTenseList =? 0) then []
  else
    verb ← filteredVerbs;
    tense ← enabledTenseList;
    person ← enabledPersonList;
    let answer := getConjugation verb tense person in
    if negb (nonEmpty answer) then []
    else
      let key := keyOf verb person tense in
      if isLastKey lastKey key then []
      else [Prompt verb person tense key].

(** [verbs.findIndex((verb) => verb.infinitive === infinitive)], with [None]
    for -1. *)
Fixpoint findIndexFrom (index : nat) (infinitive0 : string) (verbs : list verb)
  : option nat :=
  match verbs with
  | [] => None
  | verb :: rest =>
      if String.eqb (infinitive verb) infinitive0 then Some index
      else findIndexFrom (S index) infinitive0 rest
  end.

Section Practice.

(** The dataset imported from [./data/verbs.json]. *)
Variable verbs : list verb.

Definition getFilteredVerbs (verbFilters : flags) (verbLimit : Z) : list verb :=
  filterFrom verbFilters verbLimit 0 verbs.

(** [random] is the value [Math.random()] answers; the result is [None] for
    [null]. *)
Definition pickNextPrompt (enabledPersons enabledTenses verbFilters : flags)
    (verbLimit : Z) (lastKey : option string) (random : randomValue)
  : option prompt :=
  let filteredVerbs := getFilteredVerbs verbFilters verbLimit in
  if length filteredVerbs =? 0 then None
  else
    let prompts :=
      getAvailablePrompts filteredVerbs enabledPersons enabledTenses lastKey in
    if length prompts =? 0 then None
    else prompts !! randomIndex random (length prompts).

Definition hasAvailablePrompts (enabledPersons enabledTenses verbFilters : flags)
    (verbLimit : Z) : bool :=
  let filteredVerbs := getFilteredVerbs verbFilters verbLimit in
  if length filteredVerbs =? 0 then false
  else
    let prompts :=
      getAvailablePrompts filteredVerbs enabledPersons enabledTenses None in
    0 <? length prompts.

Definition isPromptAllowed (prompt : option prompt)
    (enabledPersons enabledTenses verbFilters : flags) (verbLimit : Z) : bool :=
  match prompt with
  | None => false
  | Some p =>
      if negb (isOn enabledPersons (p_person p)) then false
      else if negb (isOn enabledTenses (p_tense p)) then false
      else
        let isRegular := isRegular (p_verb p) in
        if isRegular && negb (isOn verbFilters "regular") then false
        else if negb isRegular && negb (isOn verbFilters "irregular") then false
        else
          let verbIndex := findIndexFrom 0 (infinitive (p_verb p)) verbs in
          let rank := getVerbRank (p_verb p) (default 0 verbIndex) in
          if (verbLimit <? rank)%Z then false
          else
            let answer := getConjugation (p_verb p) (p_tense p) (p_person p) in
            if negb (nonEmpty answer) then false else true
  end.

(** The settings of the component and its flag [configError]. *)
Record settings : Type := Settings {
  enabledPersons : flags;
  enabledTenses : flags;
  verbFilters : flags;
  verbLimit : Z;
  configError : bool
}.

Definition togglePerson (person : string) (st : settings) : settings :=
  let prev := enabledPersons st in
  if isOn prev person && (enabledCount prev =? 1) then st
  else
    let next := <[person := negb (isOn prev person)]> prev in
    if negb (hasAvailablePrompts next (enabledTenses st) (verbFilters st)
                                 (verbLimit st))
    then Settings prev (enabledTenses st) (verbFilters st) (verbLimit st) true
    else Settings next (enabledTenses st) (verbFilters st) (verbLimit st) false.

Definition toggleTense (tense : string) (st : settings) : settings :=
  let prev := enabledTenses st in
  if isOn prev tense && (enabledCount prev =? 1) then st
  else
    let next := <[tense := negb (isOn prev tense)]> prev in
    if negb (hasAvailablePrompts (enabledPersons st) next (verbFilters st)
                                 (verbLimit st))
    then Settings (enabledPersons st) prev (verbFilters st) (verbLimit st) true
    else Settings (enabledPersons st) next (verbFilters st) (verbLimit st) false.

Definition toggleVerbFilter (key : string) (st : settings) : settings :=
  let prev := verbFilters st in
  if isOn prev key && (enabledCount prev =? 1) then st
  else
    let next := <[key := negb (isOn prev key)]> prev in
    if negb (hasAvailablePrompts (enabledPersons st) (enabledTenses st) next
                                 (verbLimit st))
    then Settings (enabledPersons st) (enabledTenses st) prev (verbLimit st) true
    else Settings (enabledPersons st) (enabledTenses st) next (verbLimit st) false.

(** [handleVerbLimitChange] *)
Definition handleVerbLimitChange (limit : Z) (st : settings) : settings :=
  Settings (enabledPersons st) (enabledTenses st) (verbFilters st) limit
           (configError st).

(** The settings allow a prompt. *)
Definition available (st : settings) : bool :=
  hasAvailablePrompts (enabledPersons st) (enabledTenses st) (verbFilters st)
                      (verbLimit st).

(** The three filter objects of the settings. *)
Definition filtersOf (st : settings) : flags * flags * flags :=
  (enabledPersons st, enabledTenses st, verbFilters st).

(** At least one person, one tense and one verb type are enabled. *)
Definition oneOfEach (st : settings) : Prop :=
  1 <= enabledCount (enabledPersons st)
  /\ 1 <= enabledCount (enabledTenses st)
  /\ 1 <= enabledCount (verbFilters st).

End Practice.

End Practice.

(** ** Analytics ([analytics.js]) *)

Module Analytics.

(** The calls made on the [amplitude] library, in the order they are made. *)
Inductive call : Type :=
  | InitAll (apiKey : string)
  | OptOut
  | OptIn
  | Track (event : string) (props : list (string * string)).

(** The two variables of the module, and the calls made so far. *)
Record state : Type := State {
  isInitialized : bool;
  analyticsEnabled : bool;
  calls : list call
}.

Definition initial : state := State false false [].

Section Analytics.

(** [import.meta.env.VITE_AMPLITUDE_KEY]; [None] when it is not set. *)
Variable apiKey : option string.

Definition initAnalytics (shouldEnable : bool) (st : state) : state :=
  if isInitialized st then st
  else
    match apiKey with
    | Some key =>
        if JS.nonEmpty key then
          State true shouldEnable
                (calls st ++ [InitAll key]
                 ++ (if negb shouldEnable then [OptOut] else []))
        else State (isInitialized st) shouldEnable (calls st)
    | None => State (isInitialized st) shouldEnable (calls st)
    end.

Definition setAnalyticsEnabled (value : bool) (st : state) : state :=
  if negb (isInitialized st) then State (isInitialized st) value (calls st)
  else if value then State (isInitialized st) value (calls st ++ [OptIn])
  else State (isInitialized st) value (calls st ++ [OptOut]).

Definition trackEvent (event : string) (props : list (string * string))
    (st : state) : state :=
  if negb (isInitialized st) || negb (analyticsEnabled st) then st
  else State (isInitialized st) (analyticsEnabled st)
             (calls st ++ [Track event props]).

(** What the application can ask of the module. *)
Inductive request : Type :=
  | DoInit (shouldEnable : bool)
  | DoSetEnabled (value : bool)
  | DoTrack (event : string) (props : list (string * string)).

Definition step (st : state) (r : request) : state :=
  match r with
  | DoInit shouldEnable => initAnalytics shouldEnable st
  | DoSetEnabled value => setAnalyticsEnabled value st
  | DoTrack event props => trackEvent event props st
  end.

Definition run (requests : list request) : state := foldl step initial requests.

End Analytics.

(** Whether the library is opted in after a sequence of calls: [None] before
    [initAll], then in until [optOut] and out until [optIn]. *)
Fixpoint optedIn (status : option bool) (log : list call) : option bool :=
  match log with
  | [] => status
  | InitAll _ :: rest => optedIn (Some true) rest
  | OptOut :: rest => optedIn (Some false) rest
  | OptIn :: rest => optedIn (Some true) rest
  | Track _ _ :: rest => optedIn status rest
  end.

(** Every [track] of the log is made while the library is opted in. *)
Fixpoint tracksWhileOptedIn (status : option bool) (log : list call) : bool :=
  match log with
  | [] => true
  | InitAll _ :: rest => tracksWhileOptedIn (Some true) rest
  | OptOut :: rest => tracksWhileOptedIn (Some false) rest
  | OptIn :: rest => tracksWhileOptedIn (Some true) rest
  | Track _ _ :: rest =>
      match status with
      | Some true => tracksWhileOptedIn status rest
      | _ => false
      end
  end.

Definition isInitAll (c : call) : bool :=
  match c with InitAll _ => true | _ => false end.

Definition countInit (log : list call) : nat :=
  length (filter (fun c => isInitAll c = true) log).

(** What the module maintains between two requests. *)
Record invariant (apiKey : option string) (st : state) : Prop := Invariant {
  inv_idle : isInitialized st = false -> calls st = [];
  inv_key : isInitialized st = true ->
            exists key, apiKey = Some key /\ JS.nonEmpty key = true
                        /\ head (calls st) = Some (InitAll key);
  inv_once : isInitialized st = true -> countInit (calls st) = 1;
  inv_status : isInitialized st = true ->
               optedIn None (calls st) = Some (analyticsEnabled st);
  inv_tracks : tracksWhileOptedIn None (calls st) = true
}.

End Analytics.

(** ** The frequency list *)

Module Frequency.

Import Stdlib.Strings.Ascii.
Import JS.

Definition isLF (a : ascii) : bool := code a =? 10.
Definition isCR (a : ascii) : bool := code a =? 13.

(** [text.split(/\r?\n/)] on the code units: the pieces between the line
    breaks, a line break being a line feed with the carriage return before
    it, if there is one. *)
Fixpoint splitLines (l : list ascii) : list (list ascii) :=
  match l with
  | [] => [[]]
  | a :: rest =>
      if isLF a then [] :: splitLines rest
      else
        match rest with
        | b :: rest' =>
            if isCR a && isLF b then [] :: splitLines rest'
            else
              match splitLines rest with
              | first :: others => (a :: first) :: others
              | [] => [[a]]
              end
        | [] => [[a]]
        end
  end.

(** [line.split(/\s+/)] on the code units: the pieces between the maximal
    runs of white space. *)
Fixpoint splitSpaces (l : list ascii) : list (list ascii) :=
  match l with
  | [] => [[]]
  | a :: rest =>
      if isSpace a then
        match rest with
        | b :: _ => if isSpace b then splitSpaces rest else [] :: splitSpaces rest
        | [] => [[]; []]
        end
      else
        match splitSpaces rest with
        | first :: others => (a :: first) :: others
        | [] => [[a]]
        end
  end.

(** The body of the loop of [parseFrequencyList]: the word a line adds, or
    [None] where the loop says [continue]. *)
Definition parseLine (line : string) : option string :=
  let trimmed := trim line in
  if negb (nonEmpty trimmed) then None
  else
    let parts := splitSpaces (chars trimmed) in
    if length parts <? 2 then None
    else
      match parts !! 1 with
      | Some word =>
          if negb (nonEmpty (str word)) then None
          else Some (toLowerCase (str word))
      | None => None
      end.

Definition parseFrequencyList (text : string) : list string :=
  omap parseLine (map str (splitLines (chars text))).

(** *** Lists as they are published *)

(** A column of a line: some text without white space. *)
Definition isColumn (s : string) : Prop :=
  nonEmpty s = true /\ forall a, a ∈ chars s -> isSpace a = false.

(** The columns of a line with one space between them, and the lines of a
    list with one line feed between them. *)
Fixpoint joinWith (sep : string) (parts : list string) : string :=
  match parts with
  | [] => ""
  | [part] => part
  | part :: rest => part +:+ sep +:+ joinWith sep rest
  end.

Definition lineOf (columns : list string) : string := joinWith " " columns.

Definition listOf (rows : list (list string)) : string :=
  joinWith (String (c 10) EmptyString) (map lineOf rows).

End Frequency.

(** ** The dataset file ([verbs.json]) *)

Module Dataset.

Import JS BuildVerbs ValidateVerbs.

(** The seven tables of [tenses]. *)
Definition tablesOf (tenses : conjugations) : list (gmap string string) :=
  [present tenses; imperfect tenses; future tenses; conditional tenses;
   subjunctive_present tenses; subjunctive_imperfect tenses;
   imperative tenses].

(** The forms are trimmed, as [parseTable] stores them
    ([forms[key] = cleaned], where [cleaned] ends in [.trim()]). *)
Definition trimmedTables (tenses : conjugations) : Prop :=
  forall table person form,
    table ∈ tablesOf tenses -> table !! person = Some form ->
    trim form = form.

(** What [JSON.parse] reads back from what [JSON.stringify] writes for a
    table of forms.  The order of the properties is not kept: the validator
    reads them by name only. *)
Definition tableJson (table : gmap string string) : json :=
  JObj (map (fun kv => (kv.1, JStr kv.2)) (map_to_list table)).

Definition tensesJson (tenses : conjugations) : json :=
  JObj [("present", tableJson (present tenses));
        ("imperfect", tableJson (imperfect tenses));
        ("future", tableJson (future tenses));
        ("conditional", tableJson (conditional tenses));
        ("subjunctive_present", tableJson (subjunctive_present tenses));
        ("subjunctive_imperfect", tableJson (subjunctive_imperfect tenses));
        ("imperative", tableJson (imperative tenses))].

(** An element of [verbs] as it is read back from [verbs.json]. *)
Definition verbJson (verb : builtVerb) : json :=
  JObj [("infinitive", JStr (v_infinitive verb));
        ("translation", JStr (v_translation verb));
        ("regular", JBool (v_regular verb));
        ("group", JStr (v_group verb));
        ("rank", JNum (inject_Z (Z.of_nat (v_rank verb))));
        ("tenses", tensesJson (v_tenses verb))].

(** [path.join(CACHE_DIR, `verbs-cat-${infinitive}.html`)], as a key of the
    cache. *)
Definition cachePathOf (infinitive : string) : string :=
  "verbs-cat-" +:+ infinitive +:+ ".html".

End Dataset.

(** ** Sample data *)

Module PracticeSamples.

Import App Practice.

(** "parlar", regular, of rank 1, with two forms of the present. *)
Definition parlar : Practice.verb :=
  Practice.Verb "parlar" "to speak" (Some true) (Some 1%Z)
    (Some (list_to_map
             [("present", list_to_map [("jo", "parlo"); ("tu", "parles")])])).

(** "ser", irregular, without rank, with one form of the present. *)
Definition ser : Practice.verb :=
  Practice.Verb "ser" "to be" (Some false) None
    (Some (list_to_map [("present", list_to_map [("jo", "soc")])])).

Definition twoVerbs : list Practice.verb := [parlar; ser].

Definition onlyTu : flags :=
  list_to_map [("jo", false); ("tu", true)].

Definition presentOn : flags := list_to_map [("present", true)].

Definition bothTypes : flags :=
  list_to_map [("regular", true); ("irregular", true)].

(** The prompt of "parlar" for "tu" in the present. *)
Definition tuParles : Practice.prompt :=
  Practice.Prompt parlar "tu" "present" "parlar-tu-present".

(** Settings under which only "tu parles" can be asked. *)
Definition onlyTuSettings : settings :=
  Settings onlyTu presentOn bothTypes 100 false.

End PracticeSamples.

Module DatasetSamples.

Import BuildVerbs.

(** A site whose pages carry the text the cache test looks for. *)
Definition moodRemote (infinitive : string) (visits : nat)
  : (string + string) * nat :=
  (inr ("Indicative mood of " +:+ infinitive), S visits).

(** The world after "ser" was fetched once from such a site. *)
Definition afterSer : @world nat :=
  World (<["verbs-cat-ser.html" := "Indicative mood of ser"]> ∅) 1.

End DatasetSamples.

(** * Properties *)

(** ** Strings *)

Module JSFacts.

Import Stdlib.Strings.Ascii.
Import JS.

Lemma chars_str (l : list ascii) : chars (str l) = l.
Proof. apply String.list_ascii_of_string_of_list_ascii. Qed.

Lemma str_chars (s : string) : str (chars s) = s.
Proof. apply String.string_of_list_ascii_of_string. Qed.

Lemma lowerUnit_idempotent (a : ascii) : lowerUnit (lowerUnit a) = lowerUnit a.
Proof. destruct a as [[] [] [] [] [] [] [] []]; reflexivity. Qed.

Lemma toLowerCase_idempotent (s : string) :
  toLowerCase (toLowerCase s) = toLowerCase s.
Proof.
  unfold toLowerCase. rewrite chars_str, map_map. f_equal.
  apply map_ext. intros a. apply lowerUnit_idempotent.
Qed.

Lemma nonEmpty_true (s : string) : nonEmpty s = true <-> s <> ""%string.
Proof. destruct s; simpl; split; congruence. Qed.

Lemma nonEmpty_str (l : list ascii) : nonEmpty (str l) = true <-> l <> [].
Proof. destruct l; simpl; split; congruence. Qed.

Lemma trim_empty : trim "" = ""%string.
Proof. reflexivity. Qed.

(** A string with something left after trimming is not empty. *)
Lemma nonEmpty_trim (s : string) : nonEmpty (trim s) = true -> nonEmpty s = true.
Proof. destruct s; [rewrite trim_empty|]; auto. Qed.

Lemma eqb_string_eq (s t : string) : String.eqb s t = true <-> s = t.
Proof. apply String.eqb_eq. Qed.

(** The string functions on small inputs. *)
Example endsWith_sample :
  endsWith "parlar" "ar" = true /\ endsWith "ar" "parlar" = false
  /\ includes "rentar-se" "-" = true /\ slice_0_minus2 "perdre" = "perd"%string
  /\ slice_0_minus2 "a" = ""%string /\ trim "  to be  " = "to be"%string
  /\ toLowerCase "PARLAR" = "parlar"%string
  /\ toLowerCase (String (c 199) "A") = String (c 231) "a".
Proof. repeat split; reflexivity. Qed.

End JSFacts.

(** ** The regular generator and the per-character status *)

Module AppFacts.

Import JS JSFacts App.

(** C7.  The regular present of the first person singular: "parlo" for
    "parlar", "dormo" for "dormir" and "perdo" for "perdre", the group being
    the one [getVerbGroup] derives from the ending of the infinitive ("ar",
    "ir" and "er"); [getConjugation] resolves the same forms for a verb
    stored without a table and without a group. *)
Theorem regularPresent_jo_of_each_group :
  (getVerbGroup "parlar" = "ar"
   /\ regularPresent "parlar" (getVerbGroup "parlar") "jo" = "parlo")
  /\ (getVerbGroup "dormir" = "ir"
      /\ regularPresent "dormir" (getVerbGroup "dormir") "jo" = "dormo")
  /\ (getVerbGroup "perdre" = "er"
      /\ regularPresent "perdre" (getVerbGroup "perdre") "jo" = "perdo")
  /\ (forall translation regular,
        getConjugation (Verb "parlar" translation regular None None None)
                       "present" "jo" = "parlo"
        /\ getConjugation (Verb "dormir" translation regular None None None)
                          "present" "jo" = "dormo"
        /\ getConjugation (Verb "perdre" translation regular None None None)
                          "present" "jo" = "perdo").
Proof. repeat split; reflexivity. Qed.

(** *** [getStatus] *)

Lemma baseChar_toLowerCase (char : string) :
  baseChar (toLowerCase char) = baseChar char.
Proof. unfold baseChar. now rewrite toLowerCase_idempotent. Qed.

Lemma getStatus_empty (expectedChar : string) (isHinted : bool) :
  getStatus "" expectedChar isHinted = "empty".
Proof. reflexivity. Qed.

Lemma getStatus_hinted (typedChar expectedChar : string) :
  nonEmpty typedChar = true -> getStatus typedChar expectedChar true = "yellow".
Proof. intros H. unfold getStatus. now rewrite H. Qed.

Lemma getStatus_unhinted (typedChar expectedChar : string) :
  nonEmpty typedChar = true ->
  getStatus typedChar expectedChar false =
    if String.eqb (toLowerCase typedChar) (toLowerCase expectedChar)
    then "green"
    else if String.eqb (baseChar typedChar) (baseChar expectedChar)
         then "yellow" else "red".
Proof.
  intros H. unfold getStatus. rewrite H. simpl.
  now rewrite !baseChar_toLowerCase.
Qed.

(** C10, as amended.  For a typed character at a position that is not
    hinted, the status is "green" exactly when the typed and the expected
    character are equal up to case; when they differ up to case and are equal
    once the diacritics are stripped, the status is "yellow" (so not "red");
    at a hinted position the status of a typed character is "yellow", so the
    status is "green" only at a position that is not hinted. *)
Theorem getStatus_green_iff_unhinted_equal (typedChar expectedChar : string)
    (isHinted : bool) :
  nonEmpty typedChar = true ->
  (getStatus typedChar expectedChar isHinted = "green"
     <-> isHinted = false /\ toLowerCase typedChar = toLowerCase expectedChar)
  /\ (isHinted = false ->
      toLowerCase typedChar <> toLowerCase expectedChar ->
      baseChar typedChar = baseChar expectedChar ->
      getStatus typedChar expectedChar isHinted = "yellow")
  /\ (isHinted = true -> getStatus typedChar expectedChar isHinted = "yellow").
Proof.
  intros Htyped. destruct isHinted.
  - rewrite getStatus_hinted by assumption.
    split; [|split]; try done. split; [discriminate | intros [? _]; done].
  - rewrite getStatus_unhinted by assumption.
    destruct (String.eqb (toLowerCase typedChar) (toLowerCase expectedChar))
      eqn:Hlower.
    + apply String.eqb_eq in Hlower. split; [|split]; try done.
    + apply String.eqb_neq in Hlower. split; [|split]; try done.
      * split; [|intros [_ ?]; done].
        destruct (String.eqb _ _); discriminate.
      * intros _ _ Hbase. apply String.eqb_eq in Hbase. now rewrite Hbase.
Qed.

(** An "a" typed where an a with a grave accent is expected is "yellow". *)
Lemma getStatus_green_iff_unhinted_equal_witness :
  nonEmpty "a" = true
  /\ toLowerCase "a" <> toLowerCase (u 224)
  /\ baseChar "a" = baseChar (u 224)
  /\ getStatus "a" (u 224) false = "yellow".
Proof.
  assert (Ht : nonEmpty "a" = true) by reflexivity.
  assert (Hne : toLowerCase "a" <> toLowerCase (u 224)) by (vm_compute; discriminate).
  assert (Hbase : baseChar "a" = baseChar (u 224)) by reflexivity.
  split; [exact Ht | split; [exact Hne | split; [exact Hbase |]]].
  exact (proj1 (proj2 (getStatus_green_iff_unhinted_equal "a" (u 224) false Ht))
               eq_refl Hne Hbase).
Defined.

(** C10 as stated fails at a hinted position: the typed "a" equals the
    expected "a", and the status is "yellow", not "green". *)
Lemma getStatus_hinted_equal_is_not_green :
  nonEmpty "a" = true
  /\ toLowerCase "a" = toLowerCase "a"
  /\ getStatus "a" "a" true = "yellow"
  /\ getStatus "a" "a" true <> "green".
Proof. repeat split; vm_compute; discriminate. Qed.

End AppFacts.

(** ** The validator *)

Module ValidateFacts.

Import JS JSFacts ValidateVerbs.

(** Membership in a list that is written out. *)
Ltac in_list :=
  solve [repeat (first [apply list_elem_of_here | apply list_elem_of_further])].

Lemma filter_nothing {A} (P : A -> Prop) `{!forall x, Decision (P x)}
    (l : list A) :
  (forall x, x ∈ l -> ~ P x) -> filter P l = [].
Proof.
  induction l as [|a l IH]; intros Hnot; [done|].
  rewrite filter_cons_False by (apply Hnot; left).
  apply IH. intros x Hx. apply Hnot. now right.
Qed.

Lemma elem_of_requiredCells (tense person : string) :
  tense ∈ TENSES -> person ∈ requiredPersons tense ->
  (tense, person) ∈ requiredCells.
Proof.
  intros Ht Hp. unfold requiredCells. apply list_elem_of_In, in_concat.
  exists (map (fun person => (tense, person)) (requiredPersons tense)). split.
  - apply in_map_iff. exists tense. split; [done|]. now apply list_elem_of_In.
  - apply in_map_iff. exists person. split; [done|]. now apply list_elem_of_In.
Qed.

Lemma hasForm_not_missing (tenses block : json) (tense person : string) :
  getProp tenses tense = Some block ->
  formMissing (getProp block person) = negb (hasForm tenses tense person).
Proof.
  intros Hb. unfold hasForm, formMissing. rewrite Hb.
  destruct (getProp block person) as [[| | |s| |]|]; try reflexivity.
  destruct (nonEmpty (trim s)) eqn:Ht.
  - now rewrite (nonEmpty_trim s Ht).
  - now rewrite orb_true_r.
Qed.

Lemma hasBlock_inv (tenses : json) (tense : string) :
  hasBlock tenses tense = true ->
  exists block, getProp tenses tense = Some block
    /\ truthy (Some block) = true /\ typeofObject (Some block) = true.
Proof.
  unfold hasBlock. destruct (getProp tenses tense) as [[| | | | |]|];
    try discriminate; eauto.
Qed.

(** The issues of one tense: one for each required person without a form. *)
Lemma tenseIssues_block (tenses : json) (tense : string) :
  hasBlock tenses tense = true ->
  tenseIssues tenses tense =
    map (fun person => "missing-form:" +:+ tense +:+ ":" +:+ person)
        (filter (fun person => hasForm tenses tense person = false)
                (requiredPersons tense)).
Proof.
  intros (block & Hb & Ht & Ho)%hasBlock_inv. unfold tenseIssues.
  rewrite Hb, Ht, Ho. simpl. f_equal. apply list_filter_iff. intros person.
  rewrite (hasForm_not_missing tenses block tense person Hb).
  destruct (hasForm tenses tense person); simpl; split; congruence.
Qed.

Lemma tenseIssues_complete (tenses : json) (tense : string) :
  hasBlock tenses tense = true ->
  (forall person, person ∈ requiredPersons tense ->
                  hasForm tenses tense person = true) ->
  tenseIssues tenses tense = [].
Proof.
  intros Hb Hf. rewrite tenseIssues_block by assumption.
  rewrite filter_nothing; [done|]. intros person Hp. rewrite (Hf person Hp).
  discriminate.
Qed.

Lemma tenses_is_object (tenses : json) :
  hasBlock tenses "present" = true -> exists fields, tenses = JObj fields.
Proof.
  intros (block & Hb & _)%hasBlock_inv. destruct tenses; try discriminate.
  eauto.
Qed.

Lemma verb_is_object (verb tenses : json) :
  getProp verb "tenses" = Some tenses -> exists fields, verb = JObj fields.
Proof. destruct verb; try discriminate. eauto. Qed.

(** The issues of an entry that has its infinitive and its seven blocks. *)
Lemma validateVerb_blocks (verb tenses : json) :
  truthy (getProp verb "infinitive") = true ->
  getProp verb "tenses" = Some tenses ->
  forallb (hasBlock tenses) TENSES = true ->
  validateVerb verb = concat (map (tenseIssues tenses) TENSES).
Proof.
  intros Hinf Htenses Hblocks.
  assert (Hpresent : hasBlock tenses "present" = true).
  { rewrite forallb_forall in Hblocks. apply Hblocks. now left. }
  destruct (verb_is_object verb tenses Htenses) as [fields ->].
  destruct (tenses_is_object tenses Hpresent) as [cells ->].
  unfold validateVerb. rewrite Hinf, Htenses. reflexivity.
Qed.

Lemma validateVerb_complete (verb : json) :
  complete verb = true -> validateVerb verb = [].
Proof.
  unfold complete. intros [Hinf H]%andb_prop.
  destruct (getProp verb "tenses") as [tenses|] eqn:Htenses; [|discriminate].
  apply andb_prop in H as [Hblocks Hcells].
  rewrite (validateVerb_blocks verb tenses) by assumption.
  rewrite forallb_forall in Hblocks, Hcells.
  assert (Hall : forall tense, tense ∈ TENSES -> tenseIssues tenses tense = []).
  { intros tense Ht. apply tenseIssues_complete.
    - apply Hblocks. now apply list_elem_of_In.
    - intros person Hp.
      apply (Hcells (tense, person)), list_elem_of_In.
      now apply elem_of_requiredCells. }
  clear -Hall. induction TENSES as [|t ts IH]; [done|]. simpl.
  rewrite (Hall t) by (now left). apply IH. intros ? ?. apply Hall. now right.
Qed.

Lemma validateVerb_lacks_future_tu (verb : json) :
  lacksOnly ("future", "tu") verb = true ->
  validateVerb verb = ["missing-form:future:tu"].
Proof.
  unfold lacksOnly. intros [Hinf H]%andb_prop.
  destruct (getProp verb "tenses") as [tenses|] eqn:Htenses; [|discriminate].
  apply andb_prop in H as [Hblocks Hcells].
  rewrite (validateVerb_blocks verb tenses) by assumption.
  rewrite forallb_forall in Hblocks, Hcells.
  assert (Hblock : forall tense, tense ∈ TENSES -> hasBlock tenses tense = true).
  { intros tense Ht. apply Hblocks. now apply list_elem_of_In. }
  assert (Hcell : forall tense person,
             tense ∈ TENSES -> person ∈ requiredPersons tense ->
             hasForm tenses tense person
             = negb (sameCell (tense, person) ("future", "tu"))).
  { intros tense person Ht Hp.
    pose proof (Hcells (tense, person)) as Hc. simpl in Hc.
    specialize (Hc (proj1 (list_elem_of_In _ _)
                          (elem_of_requiredCells tense person Ht Hp))).
    destruct (sameCell (tense, person) ("future", "tu")); simpl.
    - now apply negb_true_iff in Hc.
    - exact Hc. }
  assert (Hother : forall tense, tense ∈ TENSES -> tense <> "future" ->
                                 tenseIssues tenses tense = []).
  { intros tense Ht Hne. apply tenseIssues_complete; [now apply Hblock|].
    intros person Hp. rewrite (Hcell tense person Ht Hp).
    unfold sameCell. simpl. apply String.eqb_neq in Hne. now rewrite Hne. }
  assert (Hfuture : tenseIssues tenses "future" = ["missing-form:future:tu"]).
  { rewrite tenseIssues_block by (apply Hblock; in_list).
    assert (Hin : "future" ∈ TENSES) by in_list.
    change (requiredPersons "future") with PERSONS. unfold PERSONS.
    rewrite filter_cons_False
      by (rewrite (Hcell "future" "jo" Hin) by in_list; done).
    rewrite filter_cons_True
      by (rewrite (Hcell "future" "tu" Hin) by in_list; done).
    rewrite filter_nothing; [done|]. intros person Hp.
    rewrite (Hcell "future" person Hin)
      by (change (requiredPersons "future") with PERSONS;
          now do 2 apply list_elem_of_further).
    unfold sameCell. simpl.
    assert (person <> "tu") as ->%String.eqb_neq; [|done].
    intros ->. apply list_elem_of_In in Hp. simpl in Hp.
    intuition discriminate. }
  unfold TENSES in *. simpl.
  rewrite Hfuture, !Hother by (in_list || discriminate). reflexivity.
Qed.

Lemma validate_complete (verbs : list json) :
  forallb complete verbs = true -> validate verbs = [].
Proof.
  induction verbs as [|verb verbs IH]; [done|]. simpl.
  intros [Hv Hvs]%andb_prop. unfold validate in *. simpl.
  rewrite (validateVerb_complete verb Hv). now apply IH.
Qed.

Lemma validate_app (before after : list json) :
  validate (before ++ after) = validate before ++ validate after.
Proof. apply omap_app. Qed.

(** C6, as amended.  On a dataset whose entries are complete (each has its
    infinitive, a block for each of the seven tenses, the imperative
    included, and a form in every required cell) but for one verb that lacks
    only the "tu" form of "future", [validate] returns exactly one report
    entry, which names that verb and holds the one issue
    "missing-form:future:tu"; on a dataset whose entries are all complete it
    returns the empty list. *)
Theorem validate_reports_exactly_the_missing_cell
    (before after : list json) (verb : json) (infinitive : string) :
  forallb complete before = true ->
  forallb complete after = true ->
  getProp verb "infinitive" = Some (JStr infinitive) ->
  lacksOnly ("future", "tu") verb = true ->
  validate (before ++ verb :: after)
    = [ReportEntry (JStr infinitive) ["missing-form:future:tu"]]
  /\ validate (before ++ after) = [].
Proof.
  intros Hbefore Hafter Hinf Hlacks.
  rewrite !validate_app, (validate_complete before Hbefore).
  change (verb :: after) with ([verb] ++ after).
  rewrite validate_app, (validate_complete after Hafter).
  split; [|done]. unfold validate. simpl.
  rewrite (validateVerb_lacks_future_tu verb Hlacks).
  unfold lacksOnly in Hlacks. apply andb_prop in Hlacks as [Ht _].
  rewrite Ht, Hinf. reflexivity.
Qed.

Lemma validate_reports_exactly_the_missing_cell_witness :
  validate [Samples.serComplete; Samples.anarWithoutFutureTu; Samples.serComplete]
    = [ReportEntry (JStr "anar") ["missing-form:future:tu"]]
  /\ validate [Samples.serComplete; Samples.serComplete] = [].
Proof.
  exact (validate_reports_exactly_the_missing_cell
           [Samples.serComplete] [Samples.serComplete]
           Samples.anarWithoutFutureTu "anar"
           eq_refl eq_refl eq_refl eq_refl).
Defined.

(** C6 as stated fails on an entry that has every required cell and no
    block for the imperative, which requires no cell: [validate] reports
    "missing-tense:imperative". *)
Lemma validate_reports_absent_imperative_block :
  hasRequiredCells Samples.ferWithoutImperative = true
  /\ validate [Samples.ferWithoutImperative]
     = [ReportEntry (JStr "fer") ["missing-tense:imperative"]]
  /\ validate [Samples.ferWithoutImperative] <> [].
Proof. repeat split; vm_compute; discriminate. Qed.

(** *** The flag [regular] *)

(** C4 as stated fails on a regular entry: without a table it is reported
    with "missing-tenses", with an empty table with one issue for each
    tense. *)
Lemma validate_reports_regular_verb_without_table :
  getProp Samples.parlarWithoutTable "regular" = Some (JBool true)
  /\ getProp Samples.parlarWithoutTable "tenses" = None
  /\ validate [Samples.parlarWithoutTable]
     = [ReportEntry (JStr "parlar") ["missing-tenses"]]
  /\ getProp Samples.parlarEmptyTable "tenses" = Some (JObj [])
  /\ validate [Samples.parlarEmptyTable]
     = [ReportEntry (JStr "parlar")
          ["missing-tense:present"; "missing-tense:imperfect";
           "missing-tense:future"; "missing-tense:conditional";
           "missing-tense:subjunctive_present";
           "missing-tense:subjunctive_imperfect"; "missing-tense:imperative"]].
Proof. repeat split. Qed.

End ValidateFacts.

(** ** The dataset builder *)

Module BuildFacts.

Import JS JSFacts Regex BuildVerbs.

(** *** The scanning functions on small inputs *)

Example stripTags_sample :
  stripTags "to <hi>talk</hi>" = "to talk"%string
  /\ stripTags "a < b > c" = "a  c"%string
  /\ stripTags "a <> b" = "a <> b"%string.
Proof. repeat split; vm_compute; reflexivity. Qed.

Example normalizeText_sample :
  normalizeText ("  to " +:+ String (c 10) "  speak ") = "to speak"%string.
Proof. vm_compute. reflexivity. Qed.

(** The dot of [(.*?)] does not cross a line break: the first [orth] that
    closes on its own line is the one that matches. *)
Example orthRegex_sample :
  matchGroup orthRegex ("<orth>a" +:+ String (c 10) "b</orth><orth n='2'>c</orth>")
    = Some "c"%string
  /\ matchGroup orthRegex "<form>parlar</form>" = None.
Proof. split; vm_compute; reflexivity. Qed.

(** The lazy star of the entry expression stops at the first closing tag. *)
Example entriesOf_sample :
  entriesOf "x<entry>a</entry>y<entry>b</entry></entry><entry>c"
    = ["<entry>a</entry>"; "<entry>b</entry>"]%string.
Proof. vm_compute. reflexivity. Qed.

Example isVerbCandidate_sample :
  isVerbCandidate "parlar" = true /\ isVerbCandidate "perdre" = true
  /\ isVerbCandidate "casa" = false /\ isVerbCandidate "rentar-se" = false
  /\ isVerbCandidate "base" = false /\ isVerbCandidate "" = false.
Proof. repeat split; vm_compute; reflexivity. Qed.

Example normalizeTranslation_sample :
  normalizeTranslation "speak, talk; say" = "to speak"%string
  /\ normalizeTranslation "to be; to exist" = "to be"%string
  /\ normalizeTranslation "" = ""%string
  /\ normalizeTranslation ", x" = ", x"%string.
Proof. repeat split; vm_compute; reflexivity. Qed.

Example isOrthographic_sample :
  isOrthographic "tocar" = true /\ isOrthographic "pagar" = true
  /\ isOrthographic (String (c 231) "ar") = true
  /\ isOrthographic "CAR" = true /\ isOrthographic "cara" = false
  /\ isOrthographic "parlar" = false.
Proof. repeat split; vm_compute; reflexivity. Qed.

(** *** First wins in [parseFreeDict] *)

Lemma addEntry_keeps (map : gmap string string) (entry lemma t : string) :
  map !! lemma = Some t -> addEntry map entry !! lemma = Some t.
Proof.
  intros Hbound. unfold addEntry.
  destruct (parseEntry entry) as [[lemma' t']|]; [|done].
  destruct (map !! lemma') eqn:Hl; [done|].
  rewrite lookup_insert_ne; [done|]. congruence.
Qed.

Lemma addEntries_keep (entries : list string) (map : gmap string string)
    (lemma t : string) :
  map !! lemma = Some t -> foldl addEntry map entries !! lemma = Some t.
Proof.
  revert map. induction entries as [|entry entries IH]; intros map Hbound;
    [done|].
  simpl. apply IH. now apply addEntry_keeps.
Qed.

Lemma addEntry_other_lemma (map : gmap string string) (entry lemma : string) :
  (forall t, parseEntry entry <> Some (lemma, t)) ->
  addEntry map entry !! lemma = map !! lemma.
Proof.
  intros Hother. unfold addEntry.
  destruct (parseEntry entry) as [[lemma' t']|]; [|done].
  destruct (map !! lemma') eqn:Hl; [done|].
  rewrite lookup_insert_ne; [done|]. intros ->. now apply (Hother t').
Qed.

Lemma addEntries_other_lemma (entries : list string) (map : gmap string string)
    (lemma : string) :
  (forall entry t, entry ∈ entries -> parseEntry entry <> Some (lemma, t)) ->
  foldl addEntry map entries !! lemma = map !! lemma.
Proof.
  revert map. induction entries as [|entry entries IH]; intros map Hother;
    [done|].
  simpl. rewrite IH.
  - apply addEntry_other_lemma. intros t. apply Hother. now left.
  - intros e t He. apply Hother. now right.
Qed.

Lemma addEntry_binds_new_lemma (map : gmap string string)
    (entry lemma t : string) :
  map !! lemma = None -> parseEntry entry = Some (lemma, t) ->
  addEntry map entry !! lemma = Some t.
Proof.
  intros Hfree Hentry. unfold addEntry. rewrite Hentry, Hfree.
  apply lookup_insert_eq.
Qed.

(** C8.  When the dictionary has two verb entries with the same lemma and
    different translations, the map [parseFreeDict] returns binds the lemma to
    the translation of the entry met first; and once a lemma is bound, no
    later entry changes its binding. *)
Theorem parseFreeDict_keeps_first_translation
    (teiText : string) (before between after : list string)
    (entry1 entry2 lemma translation1 translation2 : string) :
  entriesOf teiText = before ++ entry1 :: between ++ entry2 :: after ->
  (forall entry t, entry ∈ before -> parseEntry entry <> Some (lemma, t)) ->
  parseEntry entry1 = Some (lemma, translation1) ->
  parseEntry entry2 = Some (lemma, translation2) ->
  translation1 <> translation2 ->
  parseFreeDict teiText !! lemma = Some translation1
  /\ parseFreeDict teiText !! lemma <> Some translation2
  /\ (forall (map : gmap string string) (entries : list string) (t : string),
        map !! lemma = Some t ->
        foldl addEntry map entries !! lemma = Some t).
Proof.
  intros Hentries Hbefore H1 H2 Hdiff.
  assert (Hfirst : parseFreeDict teiText !! lemma = Some translation1).
  { unfold parseFreeDict. rewrite Hentries, foldl_app. simpl.
    apply addEntries_keep, addEntry_binds_new_lemma; [|exact H1].
    rewrite addEntries_other_lemma by exact Hbefore. apply lookup_empty. }
  split; [exact Hfirst|]. split.
  - rewrite Hfirst. congruence.
  - intros map entries t. apply addEntries_keep.
Qed.

Lemma parseFreeDict_keeps_first_translation_witness :
  parseEntry Samples.parlarEntry1 = Some ("parlar", "to speak")
  /\ parseEntry Samples.parlarEntry2 = Some ("parlar", "to talk")
  /\ parseFreeDict Samples.teiWithDuplicate !! "parlar" = Some "to speak".
Proof.
  assert (H1 : parseEntry Samples.parlarEntry1 = Some ("parlar", "to speak"))
    by (vm_compute; reflexivity).
  assert (H2 : parseEntry Samples.parlarEntry2 = Some ("parlar", "to talk"))
    by (vm_compute; reflexivity).
  assert (Hentries : entriesOf Samples.teiWithDuplicate
            = [] ++ Samples.parlarEntry1 :: [Samples.casaEntry]
                 ++ Samples.parlarEntry2 :: [])
    by (vm_compute; reflexivity).
  split; [exact H1 | split; [exact H2 |]].
  refine (proj1 (parseFreeDict_keeps_first_translation
            Samples.teiWithDuplicate [] [Samples.casaEntry] []
            Samples.parlarEntry1 Samples.parlarEntry2 "parlar"
            "to speak" "to talk" Hentries _ H1 H2 _)).
  - intros entry t Hin. now apply elem_of_nil in Hin.
  - discriminate.
Defined.

(** *** Ranks of the selected verbs *)

Lemma ranks_app (l1 l2 : list candidate) : ranks (l1 ++ l2) = ranks l1 ++ ranks l2.
Proof. apply map_app. Qed.

Lemma ranksInvariant_empty : ranksInvariant emptySelection.
Proof.
  split; simpl; [constructor | constructor | | constructor].
  intros r Hr. now apply elem_of_nil in Hr.
Qed.

Lemma sorted_snoc (l : list nat) (bound : nat) :
  StronglySorted lt l -> (forall r, r ∈ l -> r <= bound) ->
  StronglySorted lt (l ++ [bound + 1]).
Proof.
  intros Hsorted Hbound. apply StronglySorted_app_2; [|done|repeat constructor].
  intros x1 x2 H1 ->%list_elem_of_singleton. specialize (Hbound x1 H1). lia.
Qed.

Lemma ranksInvariant_missing (st : selection) (word : string) :
  ranksInvariant st ->
  ranksInvariant (Selection (selected st) (missingTranslations st ++ [word])
                            (orthographyCandidates st) (rank st)).
Proof. intros [? ? ? ?]. now split. Qed.

Lemma ranksInvariant_select (st : selection) (word translation : string) :
  ranksInvariant st ->
  ranksInvariant
    (Selection (selected st ++ [Candidate word translation (rank st + 1)])
               (missingTranslations st) (orthographyCandidates st)
               (rank st + 1)).
Proof.
  intros [Hsel Hdef Hrange Hdistinct]. split; simpl; rewrite ?ranks_app; simpl.
  - apply sorted_snoc; [done|]. intros r Hr.
    apply (Hrange r), elem_of_app. now left.
  - done.
  - intros r. rewrite !elem_of_app, list_elem_of_singleton.
    intros [[Hr | ->] | Hr]; [| lia |].
    + specialize (Hrange r ltac:(apply elem_of_app; now left)). lia.
    + specialize (Hrange r ltac:(apply elem_of_app; now right)). lia.
  - apply NoDup_app in Hdistinct as (Hd1 & Hd12 & Hd2).
    apply NoDup_app. split; [|split; [|done]].
    + apply NoDup_app. split; [done|]. split; [|apply NoDup_singleton].
      intros r Hr ->%list_elem_of_singleton.
      specialize (Hrange (rank st + 1) ltac:(apply elem_of_app; now left)). lia.
    + intros r [Hr | ->%list_elem_of_singleton]%elem_of_app; [now apply Hd12|].
      intros Hin.
      specialize (Hrange (rank st + 1) ltac:(apply elem_of_app; now right)). lia.
Qed.

Lemma ranksInvariant_defer (st : selection) (word translation : string) :
  ranksInvariant st ->
  ranksInvariant
    (Selection (selected st) (missingTranslations st)
               (orthographyCandidates st ++ [Candidate word translation (rank st + 1)])
               (rank st + 1)).
Proof.
  intros [Hsel Hdef Hrange Hdistinct]. split; simpl; rewrite ?ranks_app; simpl.
  - done.
  - apply sorted_snoc; [done|]. intros r Hr.
    apply (Hrange r), elem_of_app. now right.
  - intros r. rewrite !elem_of_app, list_elem_of_singleton.
    intros [Hr | [Hr | ->]]; [| | lia].
    + specialize (Hrange r ltac:(apply elem_of_app; now left)). lia.
    + specialize (Hrange r ltac:(apply elem_of_app; now right)). lia.
  - rewrite app_assoc. apply NoDup_app. split; [done|].
    split; [|apply NoDup_singleton].
    intros r Hr ->%list_elem_of_singleton. specialize (Hrange _ Hr). lia.
Qed.

Lemma mainPass_ranksInvariant (translationMap : gmap string string)
    (freqWords : list string) (st : selection) :
  ranksInvariant st -> ranksInvariant (mainPass translationMap freqWords st).
Proof.
  revert st. induction freqWords as [|word rest IH]; intros st Hinv; [done|].
  cbn [mainPass]. destruct (MAX_VERBS <=? length (selected st)); [done|].
  destruct (isVerbCandidate word); cbn [negb]; [|now apply IH].
  destruct (nonEmpty (default "" (translationMap !! word))); cbn [negb].
  - destruct (isOrthographic word); apply IH.
    + now apply ranksInvariant_defer.
    + now apply ranksInvariant_select.
  - apply IH. now apply ranksInvariant_missing.
Qed.

(** The second loop appends the deferred verbs it still has room for. *)
Lemma includeOrthographic_appends (candidates sel : list candidate) :
  exists k, includeOrthographic candidates sel = sel ++ take k candidates.
Proof.
  revert sel. induction candidates as [|candidate rest IH]; intros sel.
  - exists 0. simpl. now rewrite app_nil_r.
  - cbn [includeOrthographic]. destruct (MAX_VERBS <=? length sel).
    + exists 0. simpl. now rewrite app_nil_r.
    + destruct (IH (sel ++ [candidate])) as [k Hk]. exists (S k).
      rewrite Hk, <- app_assoc. reflexivity.
Qed.

(** C3, as amended.  The assembled list is the verbs of the main pass
    followed by a prefix of the deferred orthographic verbs.  Its ranks are
    positive and pairwise distinct; they increase strictly along the verbs
    of the main pass and along the deferred verbs, each taken on their own
    (a deferred verb carries the rank of its place in the frequency list, so
    it need not exceed the ranks of the main-pass verbs before it). *)
Theorem selectVerbs_ranks_increase_within_each_pass
    (translationMap : gmap string string) (freqWords : list string) :
  let st := mainPass translationMap freqWords emptySelection in
  exists deferred,
    selectVerbs translationMap freqWords = selected st ++ deferred
    /\ deferred `prefix_of` orthographyCandidates st
    /\ Forall (fun r => 0 < r) (ranks (selectVerbs translationMap freqWords))
    /\ StronglySorted lt (ranks (selected st))
    /\ StronglySorted lt (ranks deferred)
    /\ NoDup (ranks (selectVerbs translationMap freqWords)).
Proof.
  intros st.
  destruct (mainPass_ranksInvariant translationMap freqWords emptySelection
              ranksInvariant_empty) as [Hsel Hdef Hrange Hdistinct].
  fold st in Hsel, Hdef, Hrange, Hdistinct.
  destruct (includeOrthographic_appends (orthographyCandidates st) (selected st))
    as [k Hk].
  exists (take k (orthographyCandidates st)). unfold selectVerbs. fold st.
  rewrite Hk, ranks_app.
  assert (Hsplit : ranks (orthographyCandidates st)
            = ranks (take k (orthographyCandidates st))
              ++ ranks (drop k (orthographyCandidates st))).
  { now rewrite <- ranks_app, take_drop. }
  rewrite Hsplit in Hdef, Hrange, Hdistinct.
  split; [done|]. split; [apply prefix_take|]. split; [|split; [done|split]].
  - apply Forall_forall. intros r Hr.
    assert (1 <= r <= rank st); [|lia]. apply Hrange.
    rewrite app_assoc. apply elem_of_app. now left.
  - now apply StronglySorted_app_1_l in Hdef.
  - rewrite app_assoc in Hdistinct. now apply NoDup_app in Hdistinct as (? & _).
Qed.

(** C3 as stated fails when an orthographic verb stands between two others
    in the frequency list: "tocar" is deferred with rank 2 and lands after
    "dormir", whose rank is 3. *)
Lemma selectVerbs_ranks_not_increasing :
  map c_infinitive (selectVerbs Samples.threeTranslations Samples.threeVerbs)
    = ["parlar"; "dormir"; "tocar"]
  /\ ranks (selectVerbs Samples.threeTranslations Samples.threeVerbs) = [1; 3; 2]
  /\ ~ StronglySorted lt
         (ranks (selectVerbs Samples.threeTranslations Samples.threeVerbs)).
Proof.
  assert (Hranks : ranks (selectVerbs Samples.threeTranslations Samples.threeVerbs)
                   = [1; 3; 2]) by (vm_compute; reflexivity).
  split; [vm_compute; reflexivity|]. split; [exact Hranks|].
  rewrite Hranks. intros Hsorted.
  apply StronglySorted_cons in Hsorted as [_ Hsorted].
  apply StronglySorted_cons in Hsorted as [Hhead _].
  apply Forall_cons in Hhead as [Hlt _]. lia.
Qed.

(** *** Failing verbs *)

Section AssemblyFacts.

Context {Remote : Type}.
Variable extractTables : string -> conjugations.
Variable fetchConjugationHtml : string -> Remote -> (string + string) * Remote.

Local Abbreviation fetchOne := (fetchIrregularConjugations extractTables fetchConjugationHtml).
Local Abbreviation fetchEach := (fetchAll extractTables fetchConjugationHtml).
Local Abbreviation answersOf := (outcomes extractTables fetchConjugationHtml).

(** One turn of the loop, by the answer of the fetch. *)
Lemma fetchVerb_answer (translationMap : gmap string string)
    (verb : candidate) (acc : assembly) (w : world) :
  fetchVerb extractTables fetchConjugationHtml translationMap verb acc w =
    match fetchOne (c_infinitive verb) w with
    | (Ok tenses, w') =>
        (Ok (Assembly (verbs acc ++ [buildVerb translationMap verb tenses])
                      (missingConjugations acc)), w')
    | (Thrown message, w') =>
        (Ok (Assembly (verbs acc)
               (missingConjugations acc
                ++ [c_infinitive verb +:+ ": " +:+ message])), w')
    end.
Proof.
  unfold fetchVerb, tryCatch, bind, ret.
  destruct (fetchOne (c_infinitive verb) w) as [[tenses|message] w'];
    reflexivity.
Qed.

(** C9.  The loop over the selected verbs always runs to its end and
    returns: a verb whose conjugation table cannot be fetched or parsed
    adds the line "infinitive: reason" to [missingConjugations] and no
    entry to [verbs], every other verb adds its entry to [verbs], and the
    verbs after a failing one are fetched all the same, each verb being
    answered once, in the order of the selection. *)
Theorem fetchAll_records_failures_and_goes_on
    (translationMap : gmap string string) (selected : list candidate)
    (acc : assembly) (w : world) :
  exists acc' w',
    fetchEach translationMap selected acc w = (Ok acc', w')
    /\ verbs acc' = verbs acc ++ keptVerbs translationMap (answersOf selected w)
    /\ missingConjugations acc'
       = missingConjugations acc ++ diagnostics (answersOf selected w)
    /\ map fst (answersOf selected w) = selected.
Proof.
  revert acc w. induction selected as [|verb rest IH]; intros acc w.
  - exists acc, w. simpl. now rewrite !app_nil_r.
  - simpl. unfold bind at 1. rewrite fetchVerb_answer.
    destruct (fetchOne (c_infinitive verb) w) as [[tenses|message] w1].
    + destruct (IH (Assembly (verbs acc ++ [buildVerb translationMap verb tenses])
                             (missingConjugations acc)) w1)
        as (acc' & w' & Hrun & Hverbs & Hmissing & Horder).
      exists acc', w'. simpl in *. rewrite Hrun, Hverbs, Hmissing, Horder.
      now rewrite <- app_assoc.
    + destruct (IH (Assembly (verbs acc)
                      (missingConjugations acc
                       ++ [c_infinitive verb +:+ ": " +:+ message])) w1)
        as (acc' & w' & Hrun & Hverbs & Hmissing & Horder).
      exists acc', w'. simpl in *. rewrite Hrun, Hverbs, Hmissing, Horder.
      now rewrite <- app_assoc.
Qed.

End AssemblyFacts.

(** A build in which "anar" cannot be fetched and the page of "fer" lacks a
    cell: both are reported, "ser" and "dir" are written. *)
Example fetchAll_sample :
  let run := fetchAll Samples.sampleExtract Samples.sampleRemote ∅
               Samples.fourSelected (Assembly [] []) (World ∅ 0) in
  (exists acc w, run = (Ok acc, w)
     /\ map v_infinitive (verbs acc) = ["ser"; "dir"]
     /\ missingConjugations acc
        = ["anar: Failed to fetch: 503"; "fer: Missing tu for fer (future)"]).
Proof. eexists _, _. vm_compute. repeat split. Qed.

End BuildFacts.

(** ** The prompt engine *)

Module PromptFacts.

Import JS JSFacts App.

(** *** Random indices *)

Lemma randomIndex_lt (r : randomValue) (n : nat) : 0 < n -> randomIndex r n < n.
Proof.
  intros Hn. unfold randomIndex. apply Nat.Div0.div_lt_upper_bound. nia.
Qed.

Lemma randomIndex_one (r : randomValue) : randomIndex r 1 = 0.
Proof. unfold randomIndex. apply Nat.div_small. lia. Qed.

Lemma random_element {A} (l : list A) (r : randomValue) :
  l <> [] -> exists x, l !! randomIndex r (length l) = Some x.
Proof.
  intros Hne. apply lookup_lt_is_Some_2, randomIndex_lt.
  destruct l; [done | simpl; lia].
Qed.

Lemma length_bind {A B} (f : A -> list B) (n : nat) (l : list A) :
  (forall x, length (f x) = n) -> length (l ≫= f) = length l * n.
Proof.
  intros Hf. induction l as [|a l IH]; csimpl; [done|].
  rewrite length_app, IH, Hf. lia.
Qed.

Section PromptFacts.

Variable verbs : list verb.
Variables enabledPersons enabledTenses verbFilters : flags.

Local Abbreviation filtered := (filteredVerbs verbs verbFilters).
Local Abbreviation enabled := (enabledList enabledPersons).
Local Abbreviation tenseList := (enabledTenseList enabledTenses).
Local Abbreviation candidates :=
  (candidateInstances verbs enabledPersons enabledTenses verbFilters).
Local Abbreviation drawn := (draw filtered enabled tenseList).

(** *** The candidate instances *)

Lemma elem_of_candidates (p : prompt) :
  p ∈ candidates <->
  exists verb person tense,
    verb ∈ filtered /\ person ∈ enabled /\ tense ∈ tenseList
    /\ p = makePrompt verb person tense.
Proof.
  unfold candidateInstances. rewrite list_elem_of_bind. split.
  - intros (verb & (person & (tense & Hp%list_elem_of_singleton & Ht)
                            %list_elem_of_bind & Hpe)%list_elem_of_bind & Hv).
    eauto 10.
  - intros (verb & person & tense & Hv & Hpe & Ht & ->).
    exists verb. split; [|done]. apply list_elem_of_bind.
    exists person. split; [|done]. apply list_elem_of_bind.
    exists tense. split; [|done]. now apply list_elem_of_singleton.
Qed.

Lemma candidates_nil_iff :
  candidates = [] <-> enabled = [] \/ tenseList = [] \/ filtered = [].
Proof.
  split.
  - intros Hnil.
    destruct enabled as [|person ?] eqn:He; [now left|].
    destruct tenseList as [|tense ?] eqn:Ht; [now right; left|].
    destruct filtered as [|verb ?] eqn:Hv; [now right; right|].
    exfalso. apply (elem_of_nil (makePrompt verb person tense)).
    rewrite <- Hnil. apply elem_of_candidates.
    exists verb, person, tense. rewrite He, Ht, Hv.
    repeat split; apply list_elem_of_here.
  - intros Hempty. apply elem_of_nil_inv. intros p.
    rewrite elem_of_candidates.
    intros (verb & person & tense & Hv & Hpe & Ht & _).
    destruct Hempty as [H | [H | H]]; rewrite H in *;
      eapply elem_of_nil; eassumption.
Qed.

Lemma draw_is_candidate (rng : nat -> randomValue) (tries : nat) (p : prompt) :
  drawn rng tries = Some p -> p ∈ candidates.
Proof.
  unfold draw. intros H.
  destruct (filtered !! _) as [verb|] eqn:Hv; [|done].
  destruct (enabled !! _) as [person|] eqn:Hp; [|done].
  destruct (tenseList !! _) as [tense|] eqn:Ht; [|done].
  simpl in H. injection H as <-. apply elem_of_candidates.
  exists verb, person, tense.
  repeat split; eapply list_elem_of_lookup_2; eassumption.
Qed.

(** A draw never reads outside of the three arrays. *)
Lemma draw_succeeds (rng : nat -> randomValue) (tries : nat) :
  candidates <> [] -> exists p, drawn rng tries = Some p.
Proof.
  intros Hne. unfold draw.
  assert (enabled <> [] /\ tenseList <> [] /\ filtered <> [])
    as (He & Ht & Hv).
  { repeat split; intros H; apply Hne, candidates_nil_iff; auto. }
  destruct (random_element filtered (rng (3 * tries)) Hv) as [verb ->].
  destruct (random_element enabled (rng (3 * tries + 1)) He) as [person ->].
  destruct (random_element tenseList (rng (3 * tries + 2)) Ht) as [tense ->].
  simpl. eauto.
Qed.

(** *** The retry loop *)

Lemma retry_unfold (fuel : nat) (lastKey : option string)
    (rng : nat -> randomValue) (next : option prompt) (tries : nat) :
  retry fuel filtered enabled tenseList lastKey rng next tries =
    if goesOn lastKey next tries then
      match fuel with
      | 0 => Unfinished
      | S fuel' =>
          match drawn rng tries with
          | Some p =>
              retry fuel' filtered enabled tenseList lastKey rng (Some p)
                    (S tries)
          | None => Threw
          end
      end
    else Returned next.
Proof. destruct fuel; reflexivity. Qed.

Lemma repeats_true (k : string) (p : prompt) :
  repeats (Some k) p = true <-> nonEmpty k = true /\ p_key p = k.
Proof.
  unfold repeats. rewrite andb_true_iff, String.eqb_eq. reflexivity.
Qed.

(** What is returned was the state on entry or one of the draws. *)
Lemma retry_result (lastKey : option string) (rng : nat -> randomValue)
    (fuel : nat) (next : option prompt) (tries : nat) (r : option prompt) :
  retry fuel filtered enabled tenseList lastKey rng next tries = Returned r ->
  r = next \/ exists i, tries <= i /\ drawn rng i = r /\ is_Some r.
Proof.
  revert next tries. induction fuel as [|fuel IH]; intros next tries;
    rewrite retry_unfold; destruct (goesOn lastKey next tries);
    try discriminate; try (intros [= <-]; now left).
  destruct (drawn rng tries) as [p|] eqn:Hdraw; [|discriminate].
  intros [-> | (i & Hi & Hd & Hs)]%IH; right.
  - exists tries. split; [lia|]. split; [done|]. eauto.
  - exists i. split; [lia|]. done.
Qed.

(** When the loop stops on the prompt of [lastKey], its ten turns are
    over. *)
Lemma stopped_on_repeat (k : string) (rng : nat -> randomValue)
    (next : option prompt) (tries : nat) (p : prompt) :
  nonEmpty k = true ->
  goesOn (Some k) next tries = false ->
  Returned next = Returned (Some p) ->
  p_key p = k ->
  (forall q, next = Some q -> p_key q = k)
  /\ (forall i, tries <= i < 10 -> p_key <$> drawn rng i = Some k).
Proof.
  intros Hk Hgo [= ->] Hp. simpl in Hgo. split; [now intros q [= <-]|].
  intros i Hi. apply andb_false_iff in Hgo as [Hgo | Hgo].
  - exfalso. apply not_true_iff_false in Hgo. apply Hgo.
    now apply repeats_true.
  - apply Nat.ltb_ge in Hgo. lia.
Qed.

(** The loop hands back the prompt of [lastKey] only when every draw from
    [tries] up to the tenth produced it. *)
Lemma retry_repeat (k : string) (rng : nat -> randomValue)
    (fuel : nat) (next : option prompt) (tries : nat) (p : prompt) :
  nonEmpty k = true ->
  retry fuel filtered enabled tenseList (Some k) rng next tries
    = Returned (Some p) ->
  p_key p = k ->
  (forall q, next = Some q -> p_key q = k)
  /\ (forall i, tries <= i < 10 -> p_key <$> drawn rng i = Some k).
Proof.
  intros Hk. revert next tries.
  induction fuel as [|fuel IH]; intros next tries; rewrite retry_unfold;
    destruct (goesOn (Some k) next tries) eqn:Hgo; try discriminate.
  - now apply stopped_on_repeat.
  - destruct (drawn rng tries) as [p'|] eqn:Hdraw; [|discriminate].
    intros Hrun Hp. destruct (IH _ _ Hrun Hp) as [Hnext Hdraws]. split.
    + intros q ->. simpl in Hgo. apply andb_prop in Hgo as [Hgo _].
      now apply repeats_true in Hgo.
    + intros i Hi. destruct (decide (i = tries)) as [-> | Hne].
      * rewrite Hdraw. simpl. f_equal. now apply Hnext.
      * apply Hdraws. lia.
  - now apply stopped_on_repeat.
Qed.

(** Ten turns are enough, and no turn throws. *)
Lemma retry_returns (lastKey : option string) (rng : nat -> randomValue)
    (fuel : nat) (next : option prompt) (tries : nat) :
  candidates <> [] ->
  10 <= fuel + tries ->
  (next = None -> 1 <= fuel) ->
  exists p, retry fuel filtered enabled tenseList lastKey rng next tries
            = Returned (Some p).
Proof.
  intros Hne. revert next tries.
  induction fuel as [|fuel IH]; intros next tries Hfuel Hnext;
    rewrite retry_unfold; destruct (goesOn lastKey next tries) eqn:Hgo.
  - exfalso. destruct next as [q|]; [|specialize (Hnext eq_refl); lia].
    simpl in Hgo. apply andb_prop in Hgo as [_ Hlt%Nat.ltb_lt]. lia.
  - destruct next as [q|]; [eauto | discriminate].
  - destruct (draw_succeeds rng tries Hne) as [p ->].
    apply IH; [lia | discriminate].
  - destruct next as [q|]; [eauto | discriminate].
Qed.

Lemma pickNextPrompt_unfold (lastKey : option string)
    (rng : nat -> randomValue) :
  candidates <> [] ->
  pickNextPrompt verbs enabledPersons enabledTenses verbFilters lastKey rng
  = retry 10 filtered enabled tenseList lastKey rng None 0.
Proof.
  intros Hne.
  assert (enabled <> [] /\ tenseList <> [] /\ filtered <> [])
    as (He & Ht & Hv).
  { repeat split; intros H; apply Hne, candidates_nil_iff; auto. }
  unfold pickNextPrompt.
  destruct enabled; [done|]. destruct tenseList; [done|].
  destruct filtered; [done|]. reflexivity.
Qed.

(** With candidates to draw from, [pickNextPrompt] returns one of them. *)
Lemma pickNextPrompt_returns (lastKey : option string)
    (rng : nat -> randomValue) :
  candidates <> [] ->
  exists p,
    pickNextPrompt verbs enabledPersons enabledTenses verbFilters lastKey rng
    = Returned (Some p)
    /\ p ∈ candidates.
Proof.
  intros Hne. rewrite pickNextPrompt_unfold by assumption.
  destruct (retry_returns lastKey rng 10 None 0 Hne) as [p Hp];
    [lia | lia |].
  exists p. split; [exact Hp|].
  apply retry_result in Hp as [[=] | (i & _ & Hd & _)].
  now apply draw_is_candidate in Hd.
Qed.

(** *** One candidate only *)

Lemma candidates_length :
  length candidates = length filtered * (length enabled * length tenseList).
Proof.
  unfold candidateInstances.
  apply length_bind. intros verb. apply length_bind. intros person.
  rewrite (length_bind _ 1); [lia | done].
Qed.

Lemma candidates_singleton (q : prompt) :
  candidates = [q] ->
  exists verb person tense,
    filtered = [verb] /\ enabled = [person] /\ tenseList = [tense]
    /\ q = makePrompt verb person tense.
Proof.
  intros Hone. pose proof candidates_length as Hlen.
  rewrite Hone in Hlen. simpl in Hlen.
  assert (Hin : q ∈ candidates) by (rewrite Hone; apply list_elem_of_here).
  apply elem_of_candidates in Hin
    as (verb & person & tense & Hv & Hp & Ht & ->).
  exists verb, person, tense. symmetry in Hlen.
  apply Nat.eq_mul_1 in Hlen as [Hlv [Hlp Hlt]%Nat.eq_mul_1].
  destruct filtered as [|v [|? ?]]; try discriminate.
  destruct enabled as [|p [|? ?]]; try discriminate.
  destruct tenseList as [|t [|? ?]]; try discriminate.
  apply list_elem_of_singleton in Hv, Hp, Ht. now subst.
Qed.

Lemma draw_singleton (rng : nat -> randomValue) (tries : nat) (q : prompt) :
  candidates = [q] -> drawn rng tries = Some q.
Proof.
  intros (verb & person & tense & Hv & Hp & Ht & ->)%candidates_singleton.
  unfold draw. rewrite Hv, Hp, Ht. simpl. now rewrite !randomIndex_one.
Qed.

(** C5.  When there is nothing to draw from (no enabled person, no enabled
    tense, or no verb passing the verb-type filter), the set of instances is
    empty and [pickNextPrompt] returns [null]: it ends with the outcome
    [Returned None], which is neither a thrown error nor an unfinished
    loop, whatever [lastKey] and the random numbers. *)
Theorem pickNextPrompt_returns_none_without_instances
    (lastKey : option string) (rng : nat -> randomValue) :
  enabled = [] \/ tenseList = [] \/ filtered = [] ->
  candidates = []
  /\ pickNextPrompt verbs enabledPersons enabledTenses verbFilters lastKey rng
     = Returned None.
Proof.
  intros Hempty. split; [now apply candidates_nil_iff|].
  unfold pickNextPrompt.
  destruct enabled as [|? ?] eqn:He; [reflexivity|].
  destruct tenseList as [|? ?] eqn:Ht; [reflexivity|].
  destruct filtered as [|? ?] eqn:Hv; [reflexivity|].
  destruct Hempty as [H | [H | H]]; discriminate.
Qed.

(** The retry loop of the first version.  With a non-empty [lastKey],
    [pickNextPrompt] returns one of the candidate instances whenever there
    is one, and the instance it returns has the key [lastKey] only when each
    of its first ten draws produced that key; so this version can repeat a
    prompt, though seldom, even with several instances to choose from.  When
    the only candidate has the key [lastKey], it is returned, not [null].
    The later version samples once from the instances other than that of
    [lastKey]. *)
Lemma pickNextPrompt_repeats_only_after_ten_draws
    (lastKey : string) (rng : nat -> randomValue) :
  nonEmpty lastKey = true ->
  candidates <> [] ->
  (exists p,
     pickNextPrompt verbs enabledPersons enabledTenses verbFilters
                    (Some lastKey) rng = Returned (Some p)
     /\ p ∈ candidates
     /\ (p_key p = lastKey ->
         forall i, i < 10 -> p_key <$> drawn rng i = Some lastKey))
  /\ (forall q, candidates = [q] -> p_key q = lastKey ->
        pickNextPrompt verbs enabledPersons enabledTenses verbFilters
                       (Some lastKey) rng = Returned (Some q)).
Proof.
  intros Hk Hne.
  destruct (pickNextPrompt_returns (Some lastKey) rng Hne) as (p & Hrun & Hin).
  split.
  - exists p. split; [exact Hrun|]. split; [exact Hin|].
    intros Hkey i Hi. rewrite pickNextPrompt_unfold in Hrun by assumption.
    destruct (retry_repeat lastKey rng 10 None 0 p Hk Hrun Hkey) as [_ Hdraws].
    apply Hdraws. lia.
  - intros q Hone _. rewrite Hrun. do 2 f_equal.
    rewrite Hone in Hin. now apply list_elem_of_singleton in Hin.
Qed.

End PromptFacts.

(** With "parlar" as the only verb and "jo" and "tu" enabled in the present,
    a random source that does not always answer the same draws "tu" after
    "jo": the prompt of [lastKey] is not repeated. *)
Lemma pickNextPrompt_repeats_only_after_ten_draws_witness :
  exists p,
    pickNextPrompt [Samples.parlar] Samples.joAndTu Samples.onlyPresent
      Samples.bothTypes (Some "parlar-jo-present")
      (fun k => RandomValue k 3) = Returned (Some p)
    /\ p_key p = "parlar-tu-present".
Proof.
  destruct (pickNextPrompt_repeats_only_after_ten_draws
              [Samples.parlar] Samples.joAndTu Samples.onlyPresent
              Samples.bothTypes "parlar-jo-present" (fun k => RandomValue k 3)
              eq_refl ltac:(vm_compute; discriminate))
    as [(p & Hrun & _ & _) _].
  exists p. split; [exact Hrun|].
  vm_compute in Hrun. injection Hrun as <-. reflexivity.
Defined.

(** The first version repeats.  With "jo" as the only person, "present" as
    the only tense and "parlar" as the only verb there is one instance; asked
    not to repeat it, [pickNextPrompt] returns it, not [null].  With "jo" and
    "tu" there are two instances, and a random source that always answers 0
    makes the ten draws fall on "jo": the instance of [lastKey] is
    returned. *)
Lemma pickNextPrompt_returns_lastKey :
  (map p_key (candidateInstances [Samples.parlar] Samples.onlyJo
                Samples.onlyPresent Samples.bothTypes) = ["parlar-jo-present"]
   /\ pickNextPrompt [Samples.parlar] Samples.onlyJo Samples.onlyPresent
        Samples.bothTypes (Some "parlar-jo-present") Samples.alwaysZero
      = Returned (Some (makePrompt Samples.parlar "jo" "present")))
  /\ (map p_key (candidateInstances [Samples.parlar] Samples.joAndTu
                   Samples.onlyPresent Samples.bothTypes)
      = ["parlar-jo-present"; "parlar-tu-present"]
      /\ pickNextPrompt [Samples.parlar] Samples.joAndTu Samples.onlyPresent
           Samples.bothTypes (Some "parlar-jo-present") Samples.alwaysZero
         = Returned (Some (makePrompt Samples.parlar "jo" "present")))
  /\ p_key (makePrompt Samples.parlar "jo" "present") = "parlar-jo-present".
Proof. repeat split; vm_compute; reflexivity. Qed.

Lemma pickNextPrompt_returns_none_without_instances_witness :
  pickNextPrompt [Samples.parlar] Samples.noPerson Samples.onlyPresent
    Samples.bothTypes (Some "parlar-jo-present") Samples.alwaysZero
  = Returned None.
Proof.
  exact (proj2 (pickNextPrompt_returns_none_without_instances
                  [Samples.parlar] Samples.noPerson Samples.onlyPresent
                  Samples.bothTypes (Some "parlar-jo-present")
                  Samples.alwaysZero (or_introl eq_refl))).
Defined.

End PromptFacts.

(** ** The filter toggles *)

Module ToggleFacts.

Import JS JSFacts App.

(** *** Counting the enabled keys *)

Lemma enabledCount_insert (key : string) (b : bool) (m : flags) :
  enabledCount (<[key := b]> m)
  = (if b then 1 else 0) + enabledCount (delete key m).
Proof.
  unfold enabledCount. rewrite <- insert_delete_eq.
  rewrite map_to_list_insert by apply lookup_delete_eq.
  destruct b.
  - rewrite filter_cons_True by done. reflexivity.
  - rewrite filter_cons_False by done. reflexivity.
Qed.

Lemma enabledCount_lookup (key : string) (b : bool) (m : flags) :
  m !! key = Some b ->
  enabledCount m = (if b then 1 else 0) + enabledCount (delete key m).
Proof.
  intros Hb. rewrite <- (insert_id m key b Hb) at 1. apply enabledCount_insert.
Qed.

(** There is an enabled key exactly when the count is not zero. *)
Lemma enabledCount_positive (m : flags) :
  1 <= enabledCount m <-> exists key, m !! key = Some true.
Proof.
  split.
  - unfold enabledCount. intros Hcount.
    destruct (filter _ (map_to_list m)) as [|[key b] l] eqn:Hfilter;
      [simpl in Hcount; lia|].
    assert (Hin : (key, b) ∈ filter (fun kv : string * bool => kv.2 = true)
                                    (map_to_list m))
      by (rewrite Hfilter; apply list_elem_of_here).
    apply list_elem_of_filter in Hin as [Htrue Hin]. simpl in Htrue. subst b.
    exists key. now apply elem_of_map_to_list.
  - intros [key Hkey]. rewrite (enabledCount_lookup key true m Hkey). lia.
Qed.

Lemma isOn_true (m : flags) (key : string) :
  isOn m key = true <-> m !! key = Some true.
Proof.
  unfold isOn. destruct (m !! key) as [[]|]; simpl; split; congruence.
Qed.

(** *** The updater *)

(** Turning off the only enabled key is refused. *)
Lemma toggled_last (key : string) (prev : flags) :
  isOn prev key = true -> enabledCount prev = 1 -> toggled key prev = prev.
Proof. intros Hon Hone. unfold toggled. now rewrite Hon, Hone. Qed.

(** Whatever the state before, an enabled key is left. *)
Lemma toggled_keeps_one (key : string) (prev : flags) :
  1 <= enabledCount (toggled key prev).
Proof.
  unfold toggled. destruct (isOn prev key) eqn:Hon; simpl.
  - apply isOn_true in Hon.
    pose proof (enabledCount_lookup key true prev Hon) as Hcount.
    cbn iota in Hcount.
    destruct (enabledCount prev =? 1) eqn:Hone.
    + apply Nat.eqb_eq in Hone. lia.
    + apply Nat.eqb_neq in Hone. rewrite enabledCount_insert. lia.
  - rewrite enabledCount_insert. lia.
Qed.

(** The updater changes the flag of [key] at most, and switches it when
    it changes anything. *)
Lemma toggled_lookup (key other : string) (prev : flags) :
  toggled key prev !! other =
    if decide (other = key) then
      if isOn prev key && (enabledCount prev =? 1) then prev !! key
      else Some (negb (isOn prev key))
    else prev !! other.
Proof.
  unfold toggled. destruct (decide (other = key)) as [-> | Hne].
  - destruct (isOn prev key && (enabledCount prev =? 1)); [done|].
    apply lookup_insert_eq.
  - destruct (isOn prev key && (enabledCount prev =? 1)); [done|].
    now apply lookup_insert_ne.
Qed.

(** The toggles of the first version.  Turning off the last enabled person,
    the last enabled tense or the last enabled verb type leaves the filter
    state unchanged, and every toggle keeps at least one person, one tense
    and one verb type enabled.  This version looks at nothing else; the
    later one also asks whether a prompt would remain. *)
Lemma toggles_keep_one_of_each_enabled (key : string) (st : filterState) :
  ((isOn (enabledPersons st) key = true ->
    enabledCount (enabledPersons st) = 1 -> togglePerson key st = st)
   /\ (isOn (enabledTenses st) key = true ->
       enabledCount (enabledTenses st) = 1 -> toggleTense key st = st)
   /\ (isOn (verbFilters st) key = true ->
       enabledCount (verbFilters st) = 1 -> toggleVerbFilter key st = st))
  /\ (atLeastOneEach st ->
      atLeastOneEach (togglePerson key st)
      /\ atLeastOneEach (toggleTense key st)
      /\ atLeastOneEach (toggleVerbFilter key st)).
Proof.
  destruct st as [persons tenses filters]. split.
  - unfold togglePerson, toggleTense, toggleVerbFilter. simpl.
    repeat split; intros Hon Hone; now rewrite toggled_last.
  - unfold atLeastOneEach. simpl. intros (Hp & Ht & Hf).
    repeat split; try assumption; apply toggled_keeps_one.
Qed.

Lemma toggles_keep_one_of_each_enabled_witness :
  togglePerson "jo" Samples.onlyJoState = Samples.onlyJoState
  /\ atLeastOneEach (toggleVerbFilter "regular" initialState).
Proof.
  split.
  - exact (proj1 (proj1 (toggles_keep_one_of_each_enabled "jo"
                           Samples.onlyJoState)) eq_refl eq_refl).
  - refine (proj2 (proj2 (proj2 (toggles_keep_one_of_each_enabled "regular"
                                   initialState) _))).
    unfold atLeastOneEach. vm_compute. lia.
Defined.

(** In the first version a toggle that is not the last of its group is
    applied even when it leaves nothing to ask: with a dataset of regular
    verbs only and everything enabled, "regular" is turned off and
    [pickNextPrompt] then returns [null]. *)
Lemma toggleVerbFilter_applied_without_valid_instance :
  let st := initialState in
  let st' := toggleVerbFilter "regular" st in
  isOn (verbFilters st) "regular" = true
  /\ isOn (verbFilters st') "regular" = false
  /\ st' <> st
  /\ pickNextPrompt [Samples.parlar] (enabledPersons st') (enabledTenses st')
                    (verbFilters st') None Samples.alwaysZero = Returned None.
Proof.
  intros st st'.
  assert (Hoff : isOn (verbFilters st') "regular" = false)
    by (vm_compute; reflexivity).
  assert (Hon : isOn (verbFilters st) "regular" = true)
    by (vm_compute; reflexivity).
  split; [exact Hon|]. split; [exact Hoff|]. split.
  - intros Heq. rewrite Heq in Hoff. congruence.
  - vm_compute. reflexivity.
Qed.

End ToggleFacts.

(** ** Typing an answer *)

Module TypingFacts.

Import Stdlib.Strings.Ascii.
Import JS JSFacts App Typing.

(** *** Strings by their code units *)

Lemma chars_toLowerCase (s : string) :
  chars (toLowerCase s) = map lowerUnit (chars s).
Proof. unfold toLowerCase. apply chars_str. Qed.

Lemma length_toLowerCase (s : string) :
  length (chars (toLowerCase s)) = length (chars s).
Proof. now rewrite chars_toLowerCase, length_map. Qed.

Lemma toLowerCase_unit1 (a : ascii) : toLowerCase (unit1 a) = unit1 (lowerUnit a).
Proof. reflexivity. Qed.

Lemma unit1_inj (a b : ascii) : unit1 a = unit1 b -> a = b.
Proof. now intros [= ->]. Qed.

Lemma chars_inj (s t : string) : chars s = chars t -> s = t.
Proof. intros H. rewrite <- (str_chars s), <- (str_chars t). now f_equal. Qed.

Lemma charAt_toLowerCase (s : string) (i : nat) :
  charAt (toLowerCase s) i = lowerUnit <$> charAt s i.
Proof. unfold charAt. now rewrite chars_toLowerCase, list_lookup_fmap. Qed.

Lemma chars_sliceTo (n : nat) (s : string) : chars (sliceTo n s) = take n (chars s).
Proof. apply chars_str. Qed.

Lemma charAt_sliceTo (n i : nat) (s : string) :
  i < n -> charAt (sliceTo n s) i = charAt s i.
Proof. intros Hi. unfold charAt. rewrite chars_sliceTo. now apply lookup_take_lt. Qed.

Lemma charAt_is_Some (s : string) (i : nat) :
  is_Some (charAt s i) <-> i < length (chars s).
Proof. apply lookup_lt_is_Some. Qed.

Lemma charAt_None (s : string) (i : nat) :
  charAt s i = None <-> length (chars s) <= i.
Proof. apply lookup_ge_None. Qed.

(** *** [findFirstRedIndex] *)

Lemma find_seq_first (f : nat -> bool) (start len i : nat) :
  find f (seq start len) = Some i ->
  start <= i < start + len /\ f i = true
  /\ forall j, start <= j < i -> f j = false.
Proof.
  revert start. induction len as [|len IH]; intros start; [discriminate|].
  simpl. destruct (f start) eqn:Hstart.
  - intros [= <-]. repeat split; try lia. done.
  - intros (Hrange & Hi & Hfirst)%IH. repeat split; try lia; [done|].
    intros j Hj. destruct (decide (j = start)) as [-> | Hne]; [done|].
    apply Hfirst. lia.
Qed.

Lemma find_seq_none (f : nat -> bool) (start len : nat) :
  find f (seq start len) = None <->
  forall j, start <= j < start + len -> f j = false.
Proof.
  revert start. induction len as [|len IH]; intros start; simpl.
  - split; [intros _ j Hj; lia | done].
  - destruct (f start) eqn:Hstart.
    + split; [discriminate|]. intros H. rewrite H in Hstart by lia. discriminate.
    + rewrite IH. split; intros H j Hj.
      * destruct (decide (j = start)) as [-> | Hne]; [done|]. apply H. lia.
      * apply H. lia.
Qed.

Lemma stopsAt_false (typed expected : string) (hintedSet : gset nat) (i : nat) :
  stopsAt typed expected hintedSet i = false <->
  i < length (chars expected) /\ statusAt typed expected hintedSet i <> "red".
Proof.
  unfold stopsAt. destruct (charAt expected i) as [e|] eqn:He.
  - rewrite String.eqb_neq. split.
    + intros Hs. split; [|done]. apply charAt_is_Some. eauto.
    + now intros [_ Hs].
  - apply charAt_None in He. split; [discriminate|]. intros [Hi _]. lia.
Qed.

(** The status at [i] only looks at the characters at [i]. *)
Lemma statusAt_same_char (typed typed' expected : string)
    (hintedSet : gset nat) (i : nat) :
  charAt typed i = charAt typed' i ->
  statusAt typed expected hintedSet i = statusAt typed' expected hintedSet i.
Proof. intros H. unfold statusAt, charOrEmpty. now rewrite H. Qed.

Lemma stopsAt_same_char (typed typed' expected : string)
    (hintedSet : gset nat) (i : nat) :
  charAt typed i = charAt typed' i ->
  stopsAt typed expected hintedSet i = stopsAt typed' expected hintedSet i.
Proof.
  intros H. unfold stopsAt.
  now rewrite (statusAt_same_char typed typed' expected hintedSet i H).
Qed.

Lemma findFirstRedIndex_none (typed expected : string) (hintedSet : gset nat) :
  findFirstRedIndex typed expected hintedSet = (-1)%Z <->
  forall i, i < length (chars typed) ->
            stopsAt typed expected hintedSet i = false.
Proof.
  unfold findFirstRedIndex.
  destruct (find _ _) as [i|] eqn:Hfind.
  - split; [lia|]. intros Hall.
    apply find_seq_first in Hfind as (Hrange & Hstop & _).
    rewrite Hall in Hstop by lia. discriminate.
  - split; [|done]. intros _ i Hi.
    apply (proj1 (find_seq_none _ _ _) Hfind). lia.
Qed.

Lemma findFirstRedIndex_some (typed expected : string) (hintedSet : gset nat)
    (i : nat) :
  findFirstRedIndex typed expected hintedSet = Z.of_nat i <->
  i < length (chars typed)
  /\ stopsAt typed expected hintedSet i = true
  /\ forall j, j < i -> stopsAt typed expected hintedSet j = false.
Proof.
  unfold findFirstRedIndex.
  destruct (find _ _) as [k|] eqn:Hfind.
  - pose proof Hfind as (Hrange & Hstop & Hfirst)%find_seq_first.
    split.
    + intros ->%Nat2Z.inj. repeat split; try lia; [done|].
      intros j Hj. apply Hfirst. lia.
    + intros (Hi & Hs & Hf). f_equal.
      destruct (Nat.lt_trichotomy k i) as [Hlt | [-> | Hgt]]; [|done|].
      * rewrite Hf in Hstop by lia. discriminate.
      * rewrite Hfirst in Hs by lia. discriminate.
  - split; [lia|]. intros (Hi & Hs & _).
    rewrite (proj1 (find_seq_none _ _ _) Hfind) in Hs by lia. discriminate.
Qed.

(** What [findFirstRedIndex] answers. *)
Lemma findFirstRedIndex_spec
    (typed expected : string) (hintedSet : gset nat) :
  (findFirstRedIndex typed expected hintedSet = (-1)%Z <->
     length (chars typed) <= length (chars expected)
     /\ forall i, i < length (chars typed) ->
                  statusAt typed expected hintedSet i <> "red")
  /\ (findFirstRedIndex typed expected hintedSet <> (-1)%Z ->
      exists i, findFirstRedIndex typed expected hintedSet = Z.of_nat i
        /\ i < length (chars typed)
        /\ (length (chars expected) <= i
            \/ statusAt typed expected hintedSet i = "red")
        /\ forall j, j < i ->
             j < length (chars expected)
             /\ statusAt typed expected hintedSet j <> "red").
Proof.
  split.
  - rewrite findFirstRedIndex_none. split.
    + intros Hall. split.
      * destruct (decide (length (chars typed) <= length (chars expected)))
          as [|Hlong]; [done|].
        specialize (Hall (length (chars expected)) ltac:(lia)).
        apply stopsAt_false in Hall as [Hlt _]. lia.
      * intros i Hi. now apply (stopsAt_false typed expected hintedSet i), Hall.
    + intros [Hlen Hclean] i Hi. apply stopsAt_false. split; [lia|].
      now apply Hclean.
  - intros Hne. unfold findFirstRedIndex in *.
    destruct (find _ _) as [i|] eqn:Hfind; [|done].
    exists i. split; [done|].
    assert (Hspec : findFirstRedIndex typed expected hintedSet = Z.of_nat i)
      by (unfold findFirstRedIndex; now rewrite Hfind).
    apply findFirstRedIndex_some in Hspec as (Hi & Hstop & Hfirst).
    split; [done|]. split.
    + unfold stopsAt in Hstop.
      destruct (charAt expected i) eqn:He.
      * right. now apply String.eqb_eq.
      * left. now apply charAt_None.
    + intros j Hj. now apply stopsAt_false, Hfirst.
Qed.

(** X1.  [findFirstRedIndex] answers -1 exactly when the typed text is no
    longer than the expected one and none of its characters is "red";
    otherwise it answers a position of the typed text, the first one that is
    past the end of the expected text or "red". *)
Theorem findFirstRedIndex_minus_one_iff_clean
    (typed expected : string) (hintedSet : gset nat) :
  (findFirstRedIndex typed expected hintedSet = (-1)%Z <->
     length (chars typed) <= length (chars expected)
     /\ forall i, i < length (chars typed) ->
                  statusAt typed expected hintedSet i <> "red")
  /\ (findFirstRedIndex typed expected hintedSet <> (-1)%Z ->
      exists i, findFirstRedIndex typed expected hintedSet = Z.of_nat i
        /\ i < length (chars typed)
        /\ (length (chars expected) <= i
            \/ statusAt typed expected hintedSet i = "red")
        /\ forall j, j < i ->
             j < length (chars expected)
             /\ statusAt typed expected hintedSet j <> "red").
Proof.
  split.
  - rewrite findFirstRedIndex_none. split.
    + intros Hall. split.
      * destruct (decide (length (chars typed) <= length (chars expected)))
          as [|Hlong]; [done|].
        specialize (Hall (length (chars expected)) ltac:(lia)).
        apply stopsAt_false in Hall as [Hlt _]. lia.
      * intros i Hi. now apply (stopsAt_false typed expected hintedSet i), Hall.
    + intros [Hlen Hclean] i Hi. apply stopsAt_false. split; [lia|].
      now apply Hclean.
  - intros Hne. unfold findFirstRedIndex in *.
    destruct (find _ _) as [i|] eqn:Hfind; [|done].
    exists i. split; [done|].
    assert (Hspec : findFirstRedIndex typed expected hintedSet = Z.of_nat i)
      by (unfold findFirstRedIndex; now rewrite Hfind).
    apply findFirstRedIndex_some in Hspec as (Hi & Hstop & Hfirst).
    split; [done|]. split.
    + unfold stopsAt in Hstop.
      destruct (charAt expected i) eqn:He.
      * right. now apply String.eqb_eq.
      * left. now apply charAt_None.
    + intros j Hj. now apply stopsAt_false, Hfirst.
Qed.

Lemma findFirstRedIndex_minus_one_iff_clean_witness :
  findFirstRedIndex "pax" "parlo" ∅ = 2%Z
  /\ findFirstRedIndex "parlox" "parlo" ∅ = 5%Z
  /\ findFirstRedIndex "par" "parlo" ∅ = (-1)%Z.
Proof.
  split; [vm_compute; reflexivity|]. split; [vm_compute; reflexivity|].
  apply (proj1 (findFirstRedIndex_minus_one_iff_clean "par" "parlo" ∅)).
  split; [vm_compute; lia|].
  intros i Hi. assert (i = 0 \/ i = 1 \/ i = 2) as [-> | [-> | ->]]
    by (vm_compute in Hi; lia); vm_compute; discriminate.
Defined.

(** *** [handleInputChange] *)

Lemma findFirstRedIndex_cut (typed expected : string) (hintedSet : gset nat)
    (i : nat) :
  findFirstRedIndex typed expected hintedSet = Z.of_nat i ->
  findFirstRedIndex (sliceTo (S i) typed) expected hintedSet = Z.of_nat i
  /\ length (chars (sliceTo (S i) typed)) = S i.
Proof.
  intros (Hi & Hstop & Hfirst)%findFirstRedIndex_some.
  assert (Hlen : length (chars (sliceTo (S i) typed)) = S i).
  { rewrite chars_sliceTo, length_take. lia. }
  split; [|done]. apply findFirstRedIndex_some. rewrite Hlen.
  split; [lia|]. split.
  - rewrite <- Hstop. apply stopsAt_same_char, charAt_sliceTo. lia.
  - intros j Hj. rewrite <- (Hfirst j Hj).
    apply stopsAt_same_char, charAt_sliceTo. lia.
Qed.

(** X2.  Whatever is typed, the value [handleInputChange] keeps for a
    non-empty expected answer is a prefix of the typed text in lower case, is
    no longer than the expected answer, and has no "red" character except
    possibly its last one: typing stops at the first wrong character. *)
Theorem handleInputChange_stops_at_first_red
    (expectedAnswer rawValue : string) (hintedIndices : gset nat) :
  nonEmpty expectedAnswer = true ->
  let nextValue := handleInputChange expectedAnswer hintedIndices rawValue in
  chars nextValue `prefix_of` chars (toLowerCase rawValue)
  /\ length (chars nextValue) <= length (chars expectedAnswer)
  /\ (forall i, S i < length (chars nextValue) ->
        statusAt nextValue expectedAnswer hintedIndices i <> "red")
  /\ (findFirstRedIndex (toLowerCase rawValue) expectedAnswer hintedIndices
        = (-1)%Z -> nextValue = toLowerCase rawValue).
Proof.
  intros Hexp. unfold handleInputChange. rewrite Hexp.
  set (normalized := toLowerCase rawValue).
  set (truncated :=
         if length (chars expectedAnswer) <? length (chars normalized)
         then sliceTo (length (chars expectedAnswer)) normalized
         else normalized).
  assert (Hprefix : chars truncated `prefix_of` chars normalized).
  { unfold truncated. destruct (_ <? _); [|done].
    rewrite chars_sliceTo. apply prefix_take. }
  assert (Hshort : length (chars truncated) <= length (chars expectedAnswer)).
  { unfold truncated. destruct (_ <? _) eqn:Hlt.
    - rewrite chars_sliceTo, length_take. lia.
    - apply Nat.ltb_ge in Hlt. lia. }
  assert (Hsame : findFirstRedIndex normalized expectedAnswer hintedIndices
                  = (-1)%Z -> truncated = normalized).
  { intros [Hlen _]%findFirstRedIndex_spec. unfold truncated.
    destruct (_ <? _) eqn:Hlt; [|done]. apply Nat.ltb_lt in Hlt. lia. }
  simpl.
  destruct (findFirstRedIndex truncated expectedAnswer hintedIndices =? -1)%Z
    eqn:Hred; simpl.
  - apply Z.eqb_eq in Hred. split; [done|]. split; [done|]. split.
    + intros i Hi.
      apply findFirstRedIndex_spec in Hred as [_ Hclean].
      apply Hclean. lia.
    + done.
  - apply Z.eqb_neq in Hred.
    destruct (proj2 (findFirstRedIndex_spec
                       truncated expectedAnswer hintedIndices) Hred)
      as (i & Hi & Hlt & _ & Hbefore).
    rewrite Hi. replace (Z.to_nat (Z.of_nat i + 1)) with (S i) by lia.
    destruct (findFirstRedIndex_cut truncated expectedAnswer hintedIndices i Hi)
      as [Hcut Hlen].
    split; [|split; [|split]].
    + etrans; [|exact Hprefix]. rewrite chars_sliceTo. apply prefix_take.
    + rewrite Hlen. lia.
    + rewrite Hlen. intros j Hj.
      apply findFirstRedIndex_some in Hcut as (_ & _ & Hfirst).
      apply stopsAt_false, Hfirst. lia.
    + intros Hclean. rewrite (Hsame Hclean) in Hred. done.
Qed.

Lemma handleInputChange_stops_at_first_red_witness :
  handleInputChange "parlo" ∅ "PAXLO" = "pax"%string
  /\ statusAt "pax" "parlo" ∅ 2 = "red"%string
  /\ statusAt "pax" "parlo" ∅ 1 <> "red"%string.
Proof.
  pose proof (handleInputChange_stops_at_first_red "parlo" "PAXLO" ∅ eq_refl)
    as (_ & _ & Hclean & _).
  split; [vm_compute; reflexivity|]. split; [vm_compute; reflexivity|].
  assert (Hvalue : handleInputChange "parlo" ∅ "PAXLO" = "pax"%string)
    by (vm_compute; reflexivity).
  rewrite Hvalue in Hclean. apply Hclean. vm_compute. lia.
Defined.

End TypingFacts.

(** ** Hints *)

Module HintFacts.

Import Stdlib.Strings.Ascii.
Import JS JSFacts App Typing TypingFacts.

Lemma hintIndexFrom_spec (fuel index : nat) (inputValue expectedLower : string) :
  let result := hintIndexFrom fuel index inputValue expectedLower in
  index <= result <= index + fuel
  /\ (forall j, index <= j < result -> matchesAt inputValue expectedLower j = true)
  /\ (result < index + fuel ->
      matchesAt inputValue expectedLower result = false).
Proof.
  revert index. induction fuel as [|fuel IH]; intros index;
    cbn [hintIndexFrom]; cbv zeta.
  - split; [lia|]. split; [intros j Hj; lia | lia].
  - assert (Hhere : matchesAt inputValue expectedLower index
              = match charAt inputValue index with
                | None => false
                | Some a => String.eqb (toLowerCase (unit1 a))
                                       (charOrEmpty expectedLower index)
                end) by reflexivity.
    destruct (charAt inputValue index) as [a|] eqn:Ha.
    + destruct (String.eqb (toLowerCase (unit1 a))
                           (charOrEmpty expectedLower index)) eqn:Heq.
      * destruct (IH (S index)) as (Hrange & Hmatch & Hstop).
        split; [lia|]. split.
        -- intros j Hj. destruct (decide (j = index)) as [-> | Hne]; [done|].
           apply Hmatch. lia.
        -- intros Hlt. apply Hstop. lia.
      * split; [lia|]. split; [intros j Hj; lia | done].
    + split; [lia|]. split; [intros j Hj; lia | done].
Qed.

(** The loop goes at least as far as the characters match. *)
Lemma hintIndexFrom_reaches (fuel index bound : nat)
    (inputValue expectedLower : string) :
  bound <= index + fuel ->
  (forall j, index <= j < bound -> matchesAt inputValue expectedLower j = true) ->
  bound <= hintIndexFrom fuel index inputValue expectedLower.
Proof.
  intros Hbound Hmatch.
  destruct (hintIndexFrom_spec fuel index inputValue expectedLower)
    as (Hrange & _ & Hstop).
  destruct (decide (bound <= hintIndexFrom fuel index inputValue expectedLower))
    as [|Hlt]; [done|].
  rewrite Hmatch in Hstop by lia. discriminate Hstop. lia.
Qed.

Lemma charOrEmpty_toLowerCase (s : string) (j : nat) :
  charOrEmpty (toLowerCase s) j = toLowerCase (charOrEmpty s j).
Proof.
  unfold charOrEmpty. rewrite charAt_toLowerCase.
  now destruct (charAt s j).
Qed.

Lemma matchesAt_lower (inputValue expectedAnswer : string) (j : nat) :
  matchesAt inputValue (toLowerCase expectedAnswer) j = true <->
  exists a e, charAt inputValue j = Some a /\ charAt expectedAnswer j = Some e
              /\ lowerUnit a = lowerUnit e.
Proof.
  unfold matchesAt. rewrite charOrEmpty_toLowerCase. unfold charOrEmpty.
  destruct (charAt inputValue j) as [a|];
    [|split; [done | intros (? & ? & ? & _); done]].
  destruct (charAt expectedAnswer j) as [e|].
  - rewrite String.eqb_eq, !toLowerCase_unit1. split.
    + intros H%unit1_inj. eauto.
    + intros (? & ? & [= <-] & [= <-] & ->). done.
  - split; [discriminate | intros (? & ? & _ & ? & _); done].
Qed.

Lemma hintIndex_bounds (inputValue expectedAnswer : string) :
  hintIndex inputValue expectedAnswer <= length (chars expectedAnswer)
  /\ hintIndex inputValue expectedAnswer <= length (chars inputValue).
Proof.
  unfold hintIndex.
  destruct (hintIndexFrom_spec (length (chars (toLowerCase expectedAnswer))) 0
              inputValue (toLowerCase expectedAnswer)) as (Hrange & Hmatch & _).
  rewrite length_toLowerCase in *. split; [lia|].
  set (i := hintIndexFrom _ _ _ _) in *. destruct i as [|i]; [lia|].
  specialize (Hmatch i ltac:(lia)).
  apply matchesAt_lower in Hmatch as (a & _ & Ha & _).
  assert (i < length (chars inputValue)) by (apply charAt_is_Some; eauto). lia.
Qed.

Lemma join_unit1 (l : list ascii) : join (map unit1 l) = str l.
Proof. induction l as [|a l IH]; simpl; [done|]. now rewrite IH. Qed.

(** The text [handleHint] builds, by its code units. *)
Lemma hinted_chars (cs : list ascii) (e : ascii) (index : nat) :
  index <= length cs ->
  chars (toLowerCase (join (if index <? length (map unit1 cs)
                            then <[index := unit1 e]> (map unit1 cs)
                            else map unit1 cs ++ [unit1 e])))
  = map lowerUnit (take index cs ++ e :: drop (S index) cs).
Proof.
  intros Hindex. rewrite chars_toLowerCase, length_map. f_equal.
  destruct (index <? length cs) eqn:Hlt.
  - apply Nat.ltb_lt in Hlt.
    replace (<[index := unit1 e]> (map unit1 cs))
      with (map unit1 (<[index := e]> cs)) by (now rewrite list_fmap_insert).
    rewrite join_unit1, chars_str. now apply insert_take_drop.
  - apply Nat.ltb_ge in Hlt. assert (index = length cs) as -> by lia.
    replace (map unit1 cs ++ [unit1 e]) with (map unit1 (cs ++ [e]))
      by (now rewrite map_app).
    rewrite join_unit1, chars_str, firstn_all, drop_ge by lia. done.
Qed.

(** What one hint does. *)
Lemma handleHint_effect (expectedAnswer : string) (st : typingState) :
  let index := hintIndex (inputValue st) expectedAnswer in
  let st' := handleHint expectedAnswer st in
  (length (chars expectedAnswer) <= index -> st' = st)
  /\ (index < length (chars expectedAnswer) ->
      index < hintIndex (inputValue st') expectedAnswer
      /\ take index (chars (inputValue st'))
         = map lowerUnit (take index (chars (inputValue st)))
      /\ length (chars (inputValue st'))
         = Nat.max (length (chars (inputValue st))) (S index)
      /\ hintedIndices st' = {[index]} ∪ hintedIndices st
      /\ hintsUsed st' = S (hintsUsed st)
      /\ statusAt (inputValue st') expectedAnswer (hintedIndices st') index
         = "yellow"
      /\ index ∈ pruneHinted (inputValue st') expectedAnswer (hintedIndices st')).
Proof.
  intros index st'. split.
  - intros Hdone. unfold st', handleHint.
    destruct (nonEmpty expectedAnswer); [|done]. simpl.
    rewrite length_toLowerCase. fold index.
    now rewrite (proj2 (Nat.leb_le _ _) Hdone).
  - intros Hlt.
    assert (Hexp : nonEmpty expectedAnswer = true).
    { apply nonEmpty_true. intros ->. simpl in Hlt. lia. }
    destruct (hintIndex_bounds (inputValue st) expectedAnswer) as [_ Hinput].
    fold index in Hinput.
    destruct (proj2 (charAt_is_Some expectedAnswer index) Hlt) as [e He].
    assert (Hvalue : chars (inputValue st')
              = map lowerUnit (take index (chars (inputValue st))
                               ++ e :: drop (S index) (chars (inputValue st)))).
    { unfold st', handleHint. rewrite Hexp. simpl.
      rewrite length_toLowerCase. fold index.
      rewrite (proj2 (Nat.leb_gt _ _) Hlt). simpl.
      unfold charOrEmpty. rewrite He. now apply hinted_chars. }
    assert (Hset : hintedIndices st' = {[index]} ∪ hintedIndices st).
    { unfold st', handleHint. rewrite Hexp. simpl.
      rewrite length_toLowerCase. fold index.
      now rewrite (proj2 (Nat.leb_gt _ _) Hlt). }
    assert (Hused : hintsUsed st' = S (hintsUsed st)).
    { unfold st', handleHint. rewrite Hexp. simpl.
      rewrite length_toLowerCase. fold index.
      now rewrite (proj2 (Nat.leb_gt _ _) Hlt). }
    assert (Hat : charAt (inputValue st') index = Some (lowerUnit e)).
    { unfold charAt. rewrite Hvalue, map_app, lookup_app_r;
        rewrite length_map, length_take; [|lia].
      replace (index - index `min` length (chars (inputValue st))) with 0 by lia.
      done. }
    assert (Hbefore : forall j, j < index ->
              charAt (inputValue st') j = lowerUnit <$> charAt (inputValue st) j).
    { intros j Hj. unfold charAt.
      rewrite Hvalue, map_app, lookup_app_l
        by (rewrite length_map, length_take; lia).
      rewrite list_lookup_fmap, lookup_take_lt by lia. done. }
    assert (Hold : forall j, j < index ->
              matchesAt (inputValue st) (toLowerCase expectedAnswer) j = true).
    { intros j Hj.
      destruct (hintIndexFrom_spec (length (chars (toLowerCase expectedAnswer)))
                  0 (inputValue st) (toLowerCase expectedAnswer))
        as (_ & Hmatch & _).
      apply Hmatch. unfold index, hintIndex in Hj. lia. }
    split; [|split; [|split; [|split; [|split; [|split]]]]].
    + unfold hintIndex. apply (hintIndexFrom_reaches _ 0 (S index)).
      * rewrite length_toLowerCase. lia.
      * intros j Hj. apply matchesAt_lower.
        destruct (decide (j = index)) as [-> | Hne].
        -- exists (lowerUnit e), e. repeat split; try done.
           apply lowerUnit_idempotent.
        -- specialize (Hold j ltac:(lia)).
           apply matchesAt_lower in Hold as (a & e' & Ha & He' & Heq).
           exists (lowerUnit a), e'. rewrite Hbefore, Ha by lia.
           repeat split; try done. now rewrite lowerUnit_idempotent.
    + rewrite Hvalue, map_app, take_app_length'; [done|].
      rewrite length_map, length_take. lia.
    + rewrite Hvalue, length_map, length_app, length_take. simpl.
      rewrite length_drop. lia.
    + exact Hset.
    + exact Hused.
    + unfold statusAt, charOrEmpty. rewrite Hat, He, Hset.
      rewrite bool_decide_eq_true_2
        by (apply elem_of_union; left; now apply elem_of_singleton).
      reflexivity.
    + unfold pruneHinted. rewrite Hexp. simpl. apply elem_of_filter.
      split; [|rewrite Hset; apply elem_of_union; left;
                now apply elem_of_singleton].
      unfold stillHinted. rewrite Hat, He, !toLowerCase_unit1.
      rewrite lowerUnit_idempotent. apply String.eqb_refl.
Qed.

(** X3.  A hint extends the correctly typed prefix: when the first [index]
    characters of the input match the expected answer and the answer is
    longer, [handleHint] puts the expected character at [index], keeps what
    precedes, marks [index] as hinted and counts the hint; afterwards the
    matching prefix is longer than [index], the character at [index] is
    "yellow", and the pruning effect keeps [index] hinted.  When the whole
    answer is typed, or the expected answer is empty, a hint changes
    nothing. *)
Theorem handleHint_extends_the_matching_prefix
    (expectedAnswer : string) (st : typingState) :
  let index := hintIndex (inputValue st) expectedAnswer in
  let st' := handleHint expectedAnswer st in
  (length (chars expectedAnswer) <= index -> st' = st)
  /\ (index < length (chars expectedAnswer) ->
      index < hintIndex (inputValue st') expectedAnswer
      /\ take index (chars (inputValue st'))
         = map lowerUnit (take index (chars (inputValue st)))
      /\ length (chars (inputValue st'))
         = Nat.max (length (chars (inputValue st))) (S index)
      /\ hintedIndices st' = {[index]} ∪ hintedIndices st
      /\ hintsUsed st' = S (hintsUsed st)
      /\ statusAt (inputValue st') expectedAnswer (hintedIndices st') index
         = "yellow"
      /\ index ∈ pruneHinted (inputValue st') expectedAnswer (hintedIndices st')).
Proof.
  intros index st'. split.
  - intros Hdone. unfold st', handleHint.
    destruct (nonEmpty expectedAnswer); [|done]. simpl.
    rewrite length_toLowerCase. fold index.
    now rewrite (proj2 (Nat.leb_le _ _) Hdone).
  - intros Hlt.
    assert (Hexp : nonEmpty expectedAnswer = true).
    { apply nonEmpty_true. intros ->. simpl in Hlt. lia. }
    destruct (hintIndex_bounds (inputValue st) expectedAnswer) as [_ Hinput].
    fold index in Hinput.
    destruct (proj2 (charAt_is_Some expectedAnswer index) Hlt) as [e He].
    assert (Hvalue : chars (inputValue st')
              = map lowerUnit (take index (chars (inputValue st))
                               ++ e :: drop (S index) (chars (inputValue st)))).
    { unfold st', handleHint. rewrite Hexp. simpl.
      rewrite length_toLowerCase. fold index.
      rewrite (proj2 (Nat.leb_gt _ _) Hlt). simpl.
      unfold charOrEmpty. rewrite He. now apply hinted_chars. }
    assert (Hset : hintedIndices st' = {[index]} ∪ hintedIndices st).
    { unfold st', handleHint. rewrite Hexp. simpl.
      rewrite length_toLowerCase. fold index.
      now rewrite (proj2 (Nat.leb_gt _ _) Hlt). }
    assert (Hused : hintsUsed st' = S (hintsUsed st)).
    { unfold st', handleHint. rewrite Hexp. simpl.
      rewrite length_toLowerCase. fold index.
      now rewrite (proj2 (Nat.leb_gt _ _) Hlt). }
    assert (Hat : charAt (inputValue st') index = Some (lowerUnit e)).
    { unfold charAt. rewrite Hvalue, map_app, lookup_app_r;
        rewrite length_map, length_take; [|lia].
      replace (index - index `min` length (chars (inputValue st))) with 0 by lia.
      done. }
    assert (Hbefore : forall j, j < index ->
              charAt (inputValue st') j = lowerUnit <$> charAt (inputValue st) j).
    { intros j Hj. unfold charAt.
      rewrite Hvalue, map_app, lookup_app_l
        by (rewrite length_map, length_take; lia).
      rewrite list_lookup_fmap, lookup_take_lt by lia. done. }
    assert (Hold : forall j, j < index ->
              matchesAt (inputValue st) (toLowerCase expectedAnswer) j = true).
    { intros j Hj.
      destruct (hintIndexFrom_spec (length (chars (toLowerCase expectedAnswer)))
                  0 (inputValue st) (toLowerCase expectedAnswer))
        as (_ & Hmatch & _).
      apply Hmatch. unfold index, hintIndex in Hj. lia. }
    split; [|split; [|split; [|split; [|split; [|split]]]]].
    + unfold hintIndex. apply (hintIndexFrom_reaches _ 0 (S index)).
      * rewrite length_toLowerCase. lia.
      * intros j Hj. apply matchesAt_lower.
        destruct (decide (j = index)) as [-> | Hne].
        -- exists (lowerUnit e), e. repeat split; try done.
           apply lowerUnit_idempotent.
        -- specialize (Hold j ltac:(lia)).
           apply matchesAt_lower in Hold as (a & e' & Ha & He' & Heq).
           exists (lowerUnit a), e'. rewrite Hbefore, Ha by lia.
           repeat split; try done. now rewrite lowerUnit_idempotent.
    + rewrite Hvalue, map_app, take_app_length'; [done|].
      rewrite length_map, length_take. lia.
    + rewrite Hvalue, length_map, length_app, length_take. simpl.
      rewrite length_drop. lia.
    + exact Hset.
    + exact Hused.
    + unfold statusAt, charOrEmpty. rewrite Hat, He, Hset.
      rewrite bool_decide_eq_true_2
        by (apply elem_of_union; left; now apply elem_of_singleton).
      reflexivity.
    + unfold pruneHinted. rewrite Hexp. simpl. apply elem_of_filter.
      split; [|rewrite Hset; apply elem_of_union; left;
                now apply elem_of_singleton].
      unfold stillHinted. rewrite Hat, He, !toLowerCase_unit1.
      rewrite lowerUnit_idempotent. apply String.eqb_refl.
Qed.

Lemma handleHint_extends_the_matching_prefix_witness :
  inputValue (handleHint "parlo" (TypingState "pax" ∅ 0)) = "par"%string
  /\ hintIndex "pax" "parlo" < hintIndex "par" "parlo".
Proof.
  assert (Hvalue : inputValue (handleHint "parlo" (TypingState "pax" ∅ 0))
                   = "par"%string) by (vm_compute; reflexivity).
  split; [exact Hvalue|].
  pose proof (proj1 (proj2 (handleHint_extends_the_matching_prefix "parlo"
                              (TypingState "pax" ∅ 0))
                      ltac:(vm_compute; lia))) as Hlonger.
  rewrite Hvalue in Hlonger. exact Hlonger.
Defined.

(** *** Completing the answer *)

Lemma lower_equal_by_units (inputValue expectedAnswer : string) :
  toLowerCase inputValue = toLowerCase expectedAnswer <->
  length (chars inputValue) = length (chars expectedAnswer)
  /\ forall i a e, charAt inputValue i = Some a ->
                   charAt expectedAnswer i = Some e ->
                   lowerUnit a = lowerUnit e.
Proof.
  split.
  - intros Heq. apply (f_equal chars) in Heq.
    rewrite !chars_toLowerCase in Heq. split.
    + apply (f_equal length) in Heq. now rewrite !length_map in Heq.
    + intros i a e Ha He.
      apply (f_equal (fun l => l !! i)) in Heq.
      rewrite !list_lookup_fmap in Heq. unfold charAt in Ha, He.
      rewrite Ha, He in Heq. now injection Heq.
  - intros [Hlen Hunits]. apply chars_inj. rewrite !chars_toLowerCase.
    apply list_eq. intros i. rewrite !list_lookup_fmap.
    destruct (chars inputValue !! i) as [a|] eqn:Ha;
      destruct (chars expectedAnswer !! i) as [e|] eqn:He; simpl.
    + f_equal. now apply (Hunits i).
    + apply lookup_lt_Some in Ha. apply lookup_ge_None in He. lia.
    + apply lookup_lt_Some in He. apply lookup_ge_None in Ha. lia.
    + done.
Qed.

Lemma statusAt_green (inputValue expectedAnswer : string) (i : nat) (a e : ascii) :
  charAt inputValue i = Some a -> charAt expectedAnswer i = Some e ->
  statusAt inputValue expectedAnswer ∅ i = "green" <-> lowerUnit a = lowerUnit e.
Proof.
  intros Ha He. unfold statusAt, charOrEmpty. rewrite Ha, He.
  rewrite bool_decide_eq_false_2 by apply not_elem_of_empty.
  rewrite AppFacts.getStatus_unhinted by reflexivity.
  rewrite !toLowerCase_unit1.
  destruct (String.eqb (unit1 (lowerUnit a)) (unit1 (lowerUnit e))) eqn:Heq.
  - apply String.eqb_eq, unit1_inj in Heq. done.
  - apply String.eqb_neq in Heq. split.
    + destruct (String.eqb _ _); discriminate.
    + intros Hl. rewrite Hl in Heq. done.
Qed.

(** The answer is taken as complete exactly when the input has the length of
    the expected answer and, hints aside, every character of it is "green". *)
Lemma answerComplete_spec (inputValue expectedAnswer : string) :
  answerComplete inputValue expectedAnswer = true <->
  nonEmpty expectedAnswer = true
  /\ length (chars inputValue) = length (chars expectedAnswer)
  /\ forall i, i < length (chars inputValue) ->
               statusAt inputValue expectedAnswer ∅ i = "green".
Proof.
  unfold answerComplete. rewrite !andb_true_iff, String.eqb_eq, Nat.eqb_eq.
  rewrite !length_toLowerCase, lower_equal_by_units. split.
  - intros [[Hexp [Hlen Hunits]] _]. split; [done|]. split; [done|].
    intros i Hi.
    destruct (proj2 (charAt_is_Some inputValue i) Hi) as [a Ha].
    destruct (proj2 (charAt_is_Some expectedAnswer i) ltac:(lia)) as [e He].
    apply (statusAt_green _ _ i a e Ha He). now apply (Hunits i).
  - intros (Hexp & Hlen & Hgreen). split; [|done]. split; [done|].
    split; [done|]. intros i a e Ha He.
    apply (statusAt_green _ _ i a e Ha He), Hgreen, charAt_is_Some. eauto.
Qed.

(** X4.  The answer is taken as complete exactly when the input has the
    length of the expected answer and every character of it would be "green"
    at a position without hint; a complete answer has no "red" character. *)
Theorem answerComplete_iff_all_green (inputValue expectedAnswer : string) :
  (answerComplete inputValue expectedAnswer = true <->
     nonEmpty expectedAnswer = true
     /\ length (chars inputValue) = length (chars expectedAnswer)
     /\ forall i, i < length (chars inputValue) ->
                  statusAt inputValue expectedAnswer ∅ i = "green")
  /\ (answerComplete inputValue expectedAnswer = true ->
      forall hintedSet,
        findFirstRedIndex inputValue expectedAnswer hintedSet = (-1)%Z).
Proof.
  split; [apply answerComplete_spec|].
  intros (Hexp & Hlen & Hgreen)%answerComplete_spec hintedSet.
  apply findFirstRedIndex_none. intros i Hi. apply stopsAt_false.
  split; [lia|].
  destruct (proj2 (charAt_is_Some inputValue i) Hi) as [a Ha].
  destruct (proj2 (charAt_is_Some expectedAnswer i) ltac:(lia)) as [e He].
  pose proof (proj1 (statusAt_green _ _ i a e Ha He) (Hgreen i Hi)) as Heq.
  unfold statusAt, charOrEmpty. rewrite Ha, He.
  destruct (bool_decide (i ∈ hintedSet)).
  - rewrite AppFacts.getStatus_hinted by reflexivity. discriminate.
  - rewrite AppFacts.getStatus_unhinted by reflexivity.
    rewrite !toLowerCase_unit1, Heq, String.eqb_refl. discriminate.
Qed.

Lemma answerComplete_iff_all_green_witness :
  answerComplete "Parlo" "parlo" = true
  /\ findFirstRedIndex "Parlo" "parlo" ∅ = (-1)%Z.
Proof.
  assert (Hdone : answerComplete "Parlo" "parlo" = true) by reflexivity.
  split; [exact Hdone|].
  exact (proj2 (answerComplete_iff_all_green "Parlo" "parlo") Hdone ∅).
Defined.

(** Hints, one after the other. *)
Lemma hints_progress (expectedAnswer : string) (n : nat) (st : typingState) :
  length (chars (inputValue st)) <= length (chars expectedAnswer) ->
  let st' := Nat.iter n (handleHint expectedAnswer) st in
  length (chars (inputValue st')) <= length (chars expectedAnswer)
  /\ Nat.min (length (chars expectedAnswer))
             (hintIndex (inputValue st) expectedAnswer + n)
     <= hintIndex (inputValue st') expectedAnswer.
Proof.
  intros Hshort. induction n as [|n IH]; simpl.
  - split; [done|]. lia.
  - destruct IH as [Hlen Hindex].
    set (stn := Nat.iter n (handleHint expectedAnswer) st) in *.
    destruct (handleHint_effect expectedAnswer stn) as [Hdone Hstep].
    destruct (decide (length (chars expectedAnswer)
                      <= hintIndex (inputValue stn) expectedAnswer))
      as [Hfull | Hmore].
    + rewrite (Hdone Hfull). split; [done|]. lia.
    + destruct (Hstep ltac:(lia)) as (Hlonger & _ & Hlength & _).
      split; [rewrite Hlength|]; lia.
Qed.

(** X5.  From an input that is no longer than the expected answer, as many
    hints as the answer has characters complete it, whatever was typed. *)
Theorem hints_complete_the_answer (expectedAnswer : string) (st : typingState) :
  nonEmpty expectedAnswer = true ->
  length (chars (inputValue st)) <= length (chars expectedAnswer) ->
  answerComplete
    (inputValue (Nat.iter (length (chars expectedAnswer))
                          (handleHint expectedAnswer) st))
    expectedAnswer = true.
Proof.
  intros Hexp Hshort.
  destruct (hints_progress expectedAnswer (length (chars expectedAnswer)) st
              Hshort) as [Hlen Hindex].
  set (st' := Nat.iter _ _ st) in *.
  destruct (hintIndex_bounds (inputValue st') expectedAnswer) as [Hb1 Hb2].
  assert (Hfull : hintIndex (inputValue st') expectedAnswer
                  = length (chars expectedAnswer)) by lia.
  apply answerComplete_spec. split; [done|].
  assert (Hsame : length (chars (inputValue st'))
                  = length (chars expectedAnswer)) by lia.
  split; [done|]. intros i Hi.
  destruct (hintIndexFrom_spec (length (chars (toLowerCase expectedAnswer)))
              0 (inputValue st') (toLowerCase expectedAnswer))
    as (_ & Hmatch & _).
  specialize (Hmatch i). unfold hintIndex in Hfull. rewrite Hfull in Hmatch.
  specialize (Hmatch ltac:(lia)).
  apply matchesAt_lower in Hmatch as (a & e & Ha & He & Heq).
  now apply (statusAt_green _ _ i a e Ha He).
Qed.

Lemma hints_complete_the_answer_witness :
  answerComplete
    (inputValue (Nat.iter 5 (handleHint "parlo") (TypingState "px" ∅ 0)))
    "parlo" = true.
Proof.
  exact (hints_complete_the_answer "parlo" (TypingState "px" ∅ 0) eq_refl
           ltac:(vm_compute; lia)).
Defined.

End HintFacts.

(** ** The answer of a prompt *)

Module ConjugationFacts.

Import JS JSFacts App.

Lemma nonEmpty_append (s t : string) :
  nonEmpty (s +:+ t) = nonEmpty s || nonEmpty t.
Proof. destruct s; reflexivity. Qed.

Lemma nonEmpty_suffixed (s t : string) :
  nonEmpty t = true -> nonEmpty (s +:+ t) = true.
Proof. intros Ht. rewrite nonEmpty_append, Ht. apply orb_true_r. Qed.

Lemma stem_empty (infinitive : string) :
  nonEmpty (slice_0_minus2 infinitive) = false ->
  length (chars infinitive) <= 2.
Proof.
  unfold slice_0_minus2. intros Hempty.
  destruct (take (length (chars infinitive) - 2) (chars infinitive))
    as [|a l] eqn:Htake; [|discriminate].
  apply (f_equal (@length _)) in Htake. rewrite length_take in Htake.
  simpl in Htake. lia.
Qed.

Ltac person_cases H :=
  unfold PERSONS in H;
  repeat (apply elem_of_cons in H as [-> | H]);
  [.. | now apply elem_of_nil in H].

Lemma regularPresent_empty (infinitive group person : string) :
  person ∈ PERSONS ->
  nonEmpty (regularPresent infinitive group person) = false ->
  person = "ell"%string /\ group <> "ar"%string
  /\ length (chars infinitive) <= 2.
Proof.
  intros Hp. unfold regularPresent.
  destruct (String.eqb group "ar") eqn:Har;
    [|destruct (String.eqb group "ir") eqn:Hir];
    person_cases Hp; cbn [formOf find fst snd String.eqb Ascii.eqb Bool.eqb];
    rewrite ?nonEmpty_suffixed by reflexivity; try discriminate;
    intros Hstem%stem_empty; apply String.eqb_neq in Har; done.
Qed.

Lemma regularImperfect_nonEmpty (infinitive group person : string) :
  person ∈ PERSONS ->
  nonEmpty (regularImperfect infinitive group person) = true.
Proof.
  intros Hp. unfold regularImperfect.
  destruct (String.eqb group "ar"); person_cases Hp;
    cbn [formOf find fst snd String.eqb Ascii.eqb Bool.eqb];
    rewrite ?nonEmpty_suffixed; reflexivity.
Qed.

Lemma regularFuture_nonEmpty (infinitive person : string) :
  person ∈ PERSONS -> nonEmpty (regularFuture infinitive person) = true.
Proof.
  intros Hp. unfold regularFuture. person_cases Hp;
    cbn [formOf find fst snd String.eqb Ascii.eqb Bool.eqb];
    rewrite ?nonEmpty_suffixed; reflexivity.
Qed.

Lemma regularConditional_nonEmpty (infinitive person : string) :
  person ∈ PERSONS -> nonEmpty (regularConditional infinitive person) = true.
Proof.
  intros Hp. unfold regularConditional. person_cases Hp;
    cbn [formOf find fst snd String.eqb Ascii.eqb Bool.eqb];
    rewrite ?nonEmpty_suffixed; reflexivity.
Qed.

(** X6.  For a verb without a [present] table of its own, the application
    finds an answer for every person and every tense it offers, whatever
    the stored table holds, with one exception: the third person of the
    present of a verb that is not of the group "ar" and whose infinitive has
    at most two characters.  So every verb with an infinitive of three
    characters or more has an answer everywhere. *)
Theorem getConjugation_is_empty_only_for_a_short_infinitive
    (verb : verb) (tense person : string) :
  present verb = None -> tense ∈ TENSES -> person ∈ PERSONS ->
  (nonEmpty (getConjugation verb tense person) = false ->
   tense = "present"%string /\ person = "ell"%string
   /\ default (getVerbGroup (infinitive verb)) (group verb) <> "ar"%string
   /\ length (chars (infinitive verb)) <= 2)
  /\ (2 < length (chars (infinitive verb)) ->
      nonEmpty (getConjugation verb tense person) = true).
Proof.
  intros Hpresent Ht Hp.
  assert (Hempty : nonEmpty (getConjugation verb tense person) = false ->
            tense = "present"%string /\ person = "ell"%string
            /\ default (getVerbGroup (infinitive verb)) (group verb)
               <> "ar"%string
            /\ length (chars (infinitive verb)) <= 2).
  { unfold getConjugation. rewrite Hpresent.
    match goal with
    | |- context [if nonEmpty ?stored then _ else _] =>
        destruct (nonEmpty stored) eqn:Hstored; [congruence|]
    end.
    unfold TENSES in Ht.
    repeat (apply elem_of_cons in Ht as [-> | Ht]);
      [.. | now apply elem_of_nil in Ht];
      cbn [String.eqb Ascii.eqb Bool.eqb option_bind mbind default from_option
           id].
    - intros Hform. apply regularPresent_empty in Hform; [|done]. done.
    - now rewrite regularImperfect_nonEmpty.
    - now rewrite regularFuture_nonEmpty.
    - now rewrite regularConditional_nonEmpty. }
  split; [exact Hempty|]. intros Hlong.
  destruct (nonEmpty (getConjugation verb tense person)) eqn:Hform; [done|].
  destruct (Hempty eq_refl) as (_ & _ & _ & Hshort). lia.
Qed.

Lemma getConjugation_is_empty_only_for_a_short_infinitive_witness :
  nonEmpty (getConjugation Samples.parlar "present" "ell") = true
  /\ getConjugation (Verb "ir" "" None None None None) "present" "ell"
     = ""%string.
Proof.
  split; [|reflexivity].
  refine (proj2 (getConjugation_is_empty_only_for_a_short_infinitive
                   Samples.parlar "present" "ell" eq_refl _ _) _).
  - apply list_elem_of_here.
  - apply list_elem_of_further, list_elem_of_further, list_elem_of_here.
  - vm_compute. lia.
Defined.

End ConjugationFacts.

(** ** The check of the current prompt *)

Module PromptCheckFacts.

Import JS App.

Lemma pickNextPrompt_is_candidate (verbs : list verb)
    (enabledPersons enabledTenses verbFilters : flags)
    (lastKey : option string) (rng : nat -> randomValue) (p : prompt) :
  pickNextPrompt verbs enabledPersons enabledTenses verbFilters lastKey rng
    = Returned (Some p) ->
  p ∈ candidateInstances verbs enabledPersons enabledTenses verbFilters.
Proof.
  unfold pickNextPrompt.
  destruct (length (enabledList enabledPersons) =? 0); [discriminate|].
  destruct (length (enabledTenseList enabledTenses) =? 0); [discriminate|].
  destruct (length (filteredVerbs verbs verbFilters) =? 0); [discriminate|].
  intros Hrun. apply PromptFacts.retry_result in Hrun
    as [[=] | (i & _ & Hdraw & _)].
  now apply PromptFacts.draw_is_candidate in Hdraw.
Qed.

Lemma candidate_is_allowed (verbs : list verb)
    (enabledPersons enabledTenses verbFilters : flags) (p : prompt) :
  p ∈ candidateInstances verbs enabledPersons enabledTenses verbFilters ->
  isPromptAllowed (Some p) enabledPersons enabledTenses verbFilters = true
  /\ p_verb p ∈ verbs /\ p_person p ∈ PERSONS /\ p_tense p ∈ TENSES
  /\ p = makePrompt (p_verb p) (p_person p) (p_tense p).
Proof.
  intros (verb & person & tense & Hv & Hp & Ht & ->)%PromptFacts.elem_of_candidates.
  unfold filteredVerbs in Hv. apply list_elem_of_filter in Hv as [Hpass Hv].
  unfold enabledList in Hp. apply list_elem_of_filter in Hp as [Hon Hp].
  unfold enabledTenseList in Ht. apply list_elem_of_filter in Ht as [Hton Ht].
  simpl. rewrite Hon, Hton. simpl. done.
Qed.

(** X7.  A prompt that [pickNextPrompt] returns passes [isPromptAllowed]
    under the same filters, so the effect that replaces a prompt that is
    not allowed leaves the prompt just picked alone; its verb is one of the
    dataset, its person and tense are among those of the application, and
    its key is made of these three. *)
Theorem pickNextPrompt_result_passes_isPromptAllowed (verbs : list verb)
    (enabledPersons enabledTenses verbFilters : flags)
    (lastKey : option string) (rng : nat -> randomValue) (p : prompt) :
  pickNextPrompt verbs enabledPersons enabledTenses verbFilters lastKey rng
    = Returned (Some p) ->
  isPromptAllowed (Some p) enabledPersons enabledTenses verbFilters = true
  /\ p_verb p ∈ verbs /\ p_person p ∈ PERSONS /\ p_tense p ∈ TENSES
  /\ p_key p
     = infinitive (p_verb p) +:+ "-" +:+ p_person p +:+ "-" +:+ p_tense p.
Proof.
  intros Hrun%pickNextPrompt_is_candidate.
  destruct (candidate_is_allowed _ _ _ _ _ Hrun)
    as (Hallowed & Hv & Hp & Ht & Hkey).
  split; [done|]. split; [done|]. split; [done|]. split; [done|].
  now rewrite Hkey at 1.
Qed.

Lemma pickNextPrompt_result_passes_isPromptAllowed_witness :
  isPromptAllowed (Some (makePrompt Samples.parlar "jo" "present"))
    Samples.onlyJo Samples.onlyPresent Samples.bothTypes = true.
Proof.
  refine (proj1 (pickNextPrompt_result_passes_isPromptAllowed
                   [Samples.parlar] Samples.onlyJo Samples.onlyPresent
                   Samples.bothTypes None Samples.alwaysZero _ _)).
  vm_compute. reflexivity.
Defined.

End PromptCheckFacts.

(** ** The prompt engine with a verb limit *)

Module PracticeFacts.

Import JS JSFacts App Practice.

(** *** The filtered verbs and the available prompts *)

Lemma elem_of_filterFrom (verbFilters : flags) (verbLimit : Z) (index : nat)
    (verbs : list verb) (verb : verb) :
  verb ∈ filterFrom verbFilters verbLimit index verbs <->
  exists i, verbs !! i = Some verb
            /\ keepsVerb verbFilters verbLimit verb (index + i) = true.
Proof.
  revert index. induction verbs as [|v rest IH]; intros index; simpl.
  - split; [intros H; now apply elem_of_nil in H | intros (i & H & _); done].
  - destruct (keepsVerb verbFilters verbLimit v index) eqn:Hkeep.
    + rewrite elem_of_cons, IH. split.
      * intros [-> | (i & Hi & Hk)].
        -- exists 0. now rewrite Nat.add_0_r.
        -- exists (S i). now rewrite Nat.add_succ_r.
      * intros ([|i] & Hi & Hk).
        -- left. now injection Hi.
        -- right. exists i. now rewrite Nat.add_succ_r in Hk.
    + rewrite IH. split.
      * intros (i & Hi & Hk). exists (S i). now rewrite Nat.add_succ_r.
      * intros ([|i] & Hi & Hk).
        -- injection Hi as ->. rewrite Nat.add_0_r in Hk. congruence.
        -- exists i. now rewrite Nat.add_succ_r in Hk.
Qed.

Lemma elem_of_available (filteredVerbs : list verb)
    (enabledPersons enabledTenses : flags) (lastKey : option string)
    (p : prompt) :
  p ∈ getAvailablePrompts filteredVerbs enabledPersons enabledTenses lastKey <->
  exists verb tense person,
    verb ∈ filteredVerbs
    /\ (tense ∈ TENSES /\ isOn enabledTenses tense = true)
    /\ (person ∈ PERSONS /\ isOn enabledPersons person = true)
    /\ nonEmpty (getConjugation verb tense person) = true
    /\ isLastKey lastKey (keyOf verb person tense) = false
    /\ p = Prompt verb person tense (keyOf verb person tense).
Proof.
  unfold getAvailablePrompts.
  set (personList := filter (fun person => isOn enabledPersons person = true)
                            PERSONS).
  set (tenseList := filter (fun tense => isOn enabledTenses tense = true)
                           TENSES).
  assert (Hbody :
    p ∈ (verb ← filteredVerbs; tense ← tenseList; person ← personList;
         (if negb (nonEmpty (getConjugation verb tense person)) then []
          else if isLastKey lastKey (keyOf verb person tense) then []
               else [Prompt verb person tense (keyOf verb person tense)]))
    <-> exists verb tense person,
          verb ∈ filteredVerbs /\ tense ∈ tenseList /\ person ∈ personList
          /\ nonEmpty (getConjugation verb tense person) = true
          /\ isLastKey lastKey (keyOf verb person tense) = false
          /\ p = Prompt verb person tense (keyOf verb person tense)).
  { rewrite list_elem_of_bind. split.
    - intros (verb & (tense & (person & Hp & Hpe)%list_elem_of_bind & Ht)
                     %list_elem_of_bind & Hv).
      exists verb, tense, person.
      destruct (nonEmpty (getConjugation verb tense person));
        [|now apply elem_of_nil in Hp].
      destruct (isLastKey lastKey (keyOf verb person tense));
        [now apply elem_of_nil in Hp|].
      apply list_elem_of_singleton in Hp. done.
    - intros (verb & tense & person & Hv & Ht & Hpe & Hans & Hlast & ->).
      exists verb. split; [|done]. apply list_elem_of_bind.
      exists tense. split; [|done]. apply list_elem_of_bind.
      exists person. split; [|done]. rewrite Hans, Hlast.
      now apply list_elem_of_singleton. }
  assert (Hlists : forall tense person,
            (tense ∈ tenseList <-> tense ∈ TENSES /\ isOn enabledTenses tense = true)
            /\ (person ∈ personList
                <-> person ∈ PERSONS /\ isOn enabledPersons person = true)).
  { intros tense person. unfold tenseList, personList.
    split; rewrite list_elem_of_filter; split; intros [? ?]; done. }
  destruct ((length personList =? 0) || (length tenseList =? 0)) eqn:Hempty.
  - split; [intros H; now apply elem_of_nil in H|].
    intros (verb & tense & person & _ & Ht & Hp & _).
    apply (Hlists tense person) in Ht. apply (Hlists tense person) in Hp.
    apply orb_prop in Hempty as [H%Nat.eqb_eq | H%Nat.eqb_eq];
      apply nil_length_inv in H; rewrite H in *.
    + now apply elem_of_nil in Hp.
    + now apply elem_of_nil in Ht.
  - rewrite Hbody. split.
    + intros (verb & tense & person & Hv & Ht & Hp & Hrest).
      exists verb, tense, person.
      apply (Hlists tense person) in Ht. apply (Hlists tense person) in Hp.
      tauto.
    + intros (verb & tense & person & Hv & Ht & Hp & Hrest).
      exists verb, tense, person.
      apply (Hlists tense person) in Ht. apply (Hlists tense person) in Hp.
      tauto.
Qed.

(** Leaving [lastKey] out removes the prompts with that key and no other. *)
Lemma available_without_lastKey (filteredVerbs : list verb)
    (enabledPersons enabledTenses : flags) (lastKey : option string)
    (p : prompt) :
  p ∈ getAvailablePrompts filteredVerbs enabledPersons enabledTenses lastKey <->
  p ∈ getAvailablePrompts filteredVerbs enabledPersons enabledTenses None
  /\ isLastKey lastKey (p_key p) = false.
Proof.
  rewrite !elem_of_available. split.
  - intros (verb & tense & person & Hv & Ht & Hp & Hans & Hlast & ->).
    split; [|done]. exists verb, tense, person. done.
  - intros [(verb & tense & person & Hv & Ht & Hp & Hans & _ & ->) Hlast].
    exists verb, tense, person. done.
Qed.

Section PracticeFacts.

Variable verbs : list verb.

Local Abbreviation availableFor :=
  (fun enabledPersons enabledTenses verbFilters verbLimit lastKey =>
     getAvailablePrompts (getFilteredVerbs verbs verbFilters verbLimit)
                         enabledPersons enabledTenses lastKey).

(** What [pickNextPrompt] returns. *)
Lemma pickNextPrompt_spec (enabledPersons enabledTenses verbFilters : flags)
    (verbLimit : Z) (lastKey : option string) (random : randomValue) :
  match pickNextPrompt verbs enabledPersons enabledTenses verbFilters verbLimit
                       lastKey random with
  | Some p =>
      p ∈ availableFor enabledPersons enabledTenses verbFilters verbLimit lastKey
  | None =>
      availableFor enabledPersons enabledTenses verbFilters verbLimit lastKey = []
  end.
Proof.
  unfold pickNextPrompt.
  destruct (getFilteredVerbs verbs verbFilters verbLimit) as [|v vs] eqn:Hf.
  - simpl. apply elem_of_nil_inv. intros p.
    rewrite elem_of_available. intros (verb & _ & _ & Hv & _).
    now apply elem_of_nil in Hv.
  - replace (length (v :: vs) =? 0) with false by reflexivity.
    destruct (getAvailablePrompts (v :: vs) enabledPersons enabledTenses lastKey)
      as [|q qs] eqn:Ha; [done|].
    replace (length (q :: qs) =? 0) with false by reflexivity.
    destruct (PromptFacts.random_element (q :: qs) random ltac:(done))
      as [p Hp].
    rewrite Hp. eapply list_elem_of_lookup_2, Hp.
Qed.

(** X8.  [pickNextPrompt] never repeats the last prompt: the prompt it
    returns is one of the available ones, its key differs from a non-empty
    [lastKey], its verb passes the filters and its answer is not empty; and it
    returns [null] exactly when no prompt other than that of [lastKey] is
    available. *)
Theorem pickNextPrompt_never_returns_lastKey
    (enabledPersons enabledTenses verbFilters : flags)
    (verbLimit : Z) (lastKey : option string) (random : randomValue) :
  (forall p,
     pickNextPrompt verbs enabledPersons enabledTenses verbFilters verbLimit
                    lastKey random = Some p ->
     p ∈ availableFor enabledPersons enabledTenses verbFilters verbLimit None
     /\ (forall k, lastKey = Some k -> nonEmpty k = true -> p_key p <> k)
     /\ p_verb p ∈ getFilteredVerbs verbs verbFilters verbLimit
     /\ p_key p = keyOf (p_verb p) (p_person p) (p_tense p)
     /\ nonEmpty (getConjugation (p_verb p) (p_tense p) (p_person p)) = true)
  /\ (pickNextPrompt verbs enabledPersons enabledTenses verbFilters verbLimit
                     lastKey random = None <->
      forall p,
        p ∈ availableFor enabledPersons enabledTenses verbFilters verbLimit None ->
        isLastKey lastKey (p_key p) = true).
Proof.
  pose proof (pickNextPrompt_spec enabledPersons enabledTenses verbFilters
                verbLimit lastKey random) as Hspec.
  split.
  - intros p Hpick. rewrite Hpick in Hspec.
    pose proof Hspec as [Hnone Hlast]%available_without_lastKey.
    split; [done|]. split.
    + intros k -> Hk Hkey. simpl in Hlast. rewrite Hk, Hkey in Hlast.
      now rewrite String.eqb_refl in Hlast.
    + apply elem_of_available in Hspec
        as (verb & tense & person & Hv & _ & _ & Hans & _ & ->). done.
  - split.
    + intros Hpick. rewrite Hpick in Hspec. intros p Hp.
      destruct (isLastKey lastKey (p_key p)) eqn:Hlast; [done|].
      exfalso. apply (elem_of_nil p). rewrite <- Hspec.
      now apply available_without_lastKey.
    + intros Hall.
      destruct (pickNextPrompt _ _ _ _ _ _ _) as [p|]; [|done].
      apply available_without_lastKey in Hspec as [Hp Hlast].
      rewrite (Hall p Hp) in Hlast. discriminate.
Qed.

(** *** [hasAvailablePrompts] *)

Lemma hasAvailablePrompts_spec (enabledPersons enabledTenses verbFilters : flags)
    (verbLimit : Z) :
  hasAvailablePrompts verbs enabledPersons enabledTenses verbFilters verbLimit
    = true <->
  availableFor enabledPersons enabledTenses verbFilters verbLimit None <> [].
Proof.
  unfold hasAvailablePrompts.
  destruct (getFilteredVerbs verbs verbFilters verbLimit) as [|v vs] eqn:Hf.
  - simpl. split; [discriminate|]. intros Hne. exfalso. apply Hne.
    apply elem_of_nil_inv. intros p. rewrite elem_of_available.
    intros (verb & _ & _ & Hv & _). now apply elem_of_nil in Hv.
  - replace (length (v :: vs) =? 0) with false by reflexivity.
    destruct (getAvailablePrompts (v :: vs) enabledPersons enabledTenses None);
      simpl; split; done.
Qed.

(** X9.  [hasAvailablePrompts] answers true exactly when [pickNextPrompt],
    asked without a last key, returns a prompt, whatever the random number;
    it answers false exactly when the list of available prompts is empty. *)
Theorem hasAvailablePrompts_iff_pickNextPrompt_returns
    (enabledPersons enabledTenses verbFilters : flags) (verbLimit : Z) :
  (hasAvailablePrompts verbs enabledPersons enabledTenses verbFilters verbLimit
     = true <->
   forall random,
     pickNextPrompt verbs enabledPersons enabledTenses verbFilters verbLimit
                    None random <> None)
  /\ (hasAvailablePrompts verbs enabledPersons enabledTenses verbFilters
                          verbLimit = false <->
      availableFor enabledPersons enabledTenses verbFilters verbLimit None = []).
Proof.
  split.
  - rewrite hasAvailablePrompts_spec. split.
    + intros Hne random Hpick.
      pose proof (pickNextPrompt_spec enabledPersons enabledTenses verbFilters
                    verbLimit None random) as Hspec.
      now rewrite Hpick in Hspec.
    + intros Hall Hnil. apply (Hall (RandomValue 0 0)).
      pose proof (pickNextPrompt_spec enabledPersons enabledTenses verbFilters
                    verbLimit None (RandomValue 0 0)) as Hspec.
      destruct (pickNextPrompt _ _ _ _ _ _ _) as [p|]; [|done].
      rewrite Hnil in Hspec. now apply elem_of_nil in Hspec.
  - rewrite <- not_true_iff_false, hasAvailablePrompts_spec.
    destruct (getAvailablePrompts _ _ _ _) as [|q qs].
    + split; [done|]. intros _ Hne. now apply Hne.
    + split; [|discriminate]. intros Hnot. exfalso. now apply Hnot.
Qed.

(** *** A picked prompt is allowed *)

Lemma findIndexFrom_first (index i : nat) (infinitive0 : string)
    (vs : list verb) (verb : verb) :
  vs !! i = Some verb -> infinitive verb = infinitive0 ->
  exists k, findIndexFrom index infinitive0 vs = Some k /\ k <= index + i.
Proof.
  revert index i. induction vs as [|v rest IH]; intros index i Hi Hinf;
    [done|]. simpl.
  destruct (String.eqb (Practice.infinitive v) infinitive0) eqn:Heq.
  - exists index. split; [done | lia].
  - destruct i as [|i].
    + injection Hi as ->. rewrite Hinf, String.eqb_refl in Heq. discriminate.
    + destruct (IH (S index) i Hi Hinf) as (k & Hk & Hle).
      exists k. split; [done | lia].
Qed.

Lemma keepsVerb_inv (verbFilters : flags) (verbLimit : Z) (verb : verb)
    (index : nat) :
  keepsVerb verbFilters verbLimit verb index = true ->
  (isRegular verb && negb (isOn verbFilters "regular")) = false
  /\ (negb (isRegular verb) && negb (isOn verbFilters "irregular")) = false
  /\ (getVerbRank verb index <= verbLimit)%Z.
Proof.
  unfold keepsVerb.
  destruct (isRegular verb && negb (isOn verbFilters "regular")); [done|].
  destruct (negb (isRegular verb) && negb (isOn verbFilters "irregular"));
    [done|].
  destruct (verbLimit <? getVerbRank verb index)%Z eqn:Hlt; [done|].
  apply Z.ltb_ge in Hlt. done.
Qed.

(** X10.  A prompt that [pickNextPrompt] returns passes [isPromptAllowed]
    under the same settings: the check made after a pick never rejects the
    prompt just picked. *)
Theorem picked_prompt_is_allowed
    (enabledPersons enabledTenses verbFilters : flags)
    (verbLimit : Z) (lastKey : option string) (random : randomValue)
    (p : prompt) :
  pickNextPrompt verbs enabledPersons enabledTenses verbFilters verbLimit
                 lastKey random = Some p ->
  isPromptAllowed verbs (Some p) enabledPersons enabledTenses verbFilters
                  verbLimit = true.
Proof.
  intros Hpick.
  pose proof (pickNextPrompt_spec enabledPersons enabledTenses verbFilters
                verbLimit lastKey random) as Hspec.
  rewrite Hpick in Hspec.
  apply elem_of_available in Hspec
    as (verb & tense & person & Hv & [_ Ht] & [_ Hp] & Hans & _ & ->).
  apply elem_of_filterFrom in Hv as (i & Hi & Hkeep).
  apply keepsVerb_inv in Hkeep as (Hreg & Hirr & Hrank).
  unfold isPromptAllowed. simpl. rewrite Hp, Ht, Hreg, Hirr, Hans. simpl.
  destruct (findIndexFrom_first 0 i (infinitive verb) verbs verb Hi eq_refl)
    as (k & -> & Hk).
  simpl. unfold getVerbRank in *.
  destruct (rank verb) as [r|].
  - now rewrite (proj2 (Z.ltb_ge _ _) Hrank).
  - rewrite (proj2 (Z.ltb_ge _ _)); [done | lia].
Qed.

(** *** The guarded toggles *)

Lemma next_is_toggled (key : string) (prev : flags) :
  (isOn prev key && (enabledCount prev =? 1)) = false ->
  <[key := negb (isOn prev key)]> prev = toggled key prev.
Proof. intros H. unfold toggled. now rewrite H. Qed.

Lemma togglePerson_cases (key : string) (st : settings) :
  let st' := togglePerson verbs key st in
  st' = st
  \/ (filtersOf st' = filtersOf st /\ verbLimit st' = verbLimit st
      /\ configError st' = true)
  \/ (st' = Settings (toggled key (enabledPersons st)) (enabledTenses st)
                     (verbFilters st) (verbLimit st) false
      /\ available verbs st' = true).
Proof.
  unfold togglePerson.
  destruct (isOn (enabledPersons st) key && (enabledCount (enabledPersons st) =? 1))
    eqn:Hlast; [now left|].
  rewrite (next_is_toggled key (enabledPersons st) Hlast).
  destruct (hasAvailablePrompts verbs (toggled key (enabledPersons st))
              (enabledTenses st) (verbFilters st) (verbLimit st)) eqn:Hav; simpl.
  - right; right. split; [done|]. exact Hav.
  - right; left. done.
Qed.

Lemma toggleTense_cases (key : string) (st : settings) :
  let st' := toggleTense verbs key st in
  st' = st
  \/ (filtersOf st' = filtersOf st /\ verbLimit st' = verbLimit st
      /\ configError st' = true)
  \/ (st' = Settings (enabledPersons st) (toggled key (enabledTenses st))
                     (verbFilters st) (verbLimit st) false
      /\ available verbs st' = true).
Proof.
  unfold toggleTense.
  destruct (isOn (enabledTenses st) key && (enabledCount (enabledTenses st) =? 1))
    eqn:Hlast; [now left|].
  rewrite (next_is_toggled key (enabledTenses st) Hlast).
  destruct (hasAvailablePrompts verbs (enabledPersons st)
              (toggled key (enabledTenses st)) (verbFilters st) (verbLimit st))
    eqn:Hav; simpl.
  - right; right. split; [done|]. exact Hav.
  - right; left. done.
Qed.

Lemma toggleVerbFilter_cases (key : string) (st : settings) :
  let st' := toggleVerbFilter verbs key st in
  st' = st
  \/ (filtersOf st' = filtersOf st /\ verbLimit st' = verbLimit st
      /\ configError st' = true)
  \/ (st' = Settings (enabledPersons st) (enabledTenses st)
                     (toggled key (verbFilters st)) (verbLimit st) false
      /\ available verbs st' = true).
Proof.
  unfold toggleVerbFilter.
  destruct (isOn (verbFilters st) key && (enabledCount (verbFilters st) =? 1))
    eqn:Hlast; [now left|].
  rewrite (next_is_toggled key (verbFilters st) Hlast).
  destruct (hasAvailablePrompts verbs (enabledPersons st) (enabledTenses st)
              (toggled key (verbFilters st)) (verbLimit st)) eqn:Hav; simpl.
  - right; right. split; [done|]. exact Hav.
  - right; left. done.
Qed.

Lemma available_same_filters (st st' : settings) :
  filtersOf st' = filtersOf st -> verbLimit st' = verbLimit st ->
  available verbs st' = available verbs st.
Proof.
  unfold filtersOf, available. intros [= -> -> ->] ->. reflexivity.
Qed.

Lemma oneOfEach_same_filters (st st' : settings) :
  filtersOf st' = filtersOf st -> oneOfEach st -> oneOfEach st'.
Proof. unfold filtersOf, oneOfEach. now intros [= -> -> ->]. Qed.

(** X11.  Each of the three toggles keeps the application with a prompt to
    show: if a prompt is available before, one is available after; a toggle
    that changes the filters leaves a prompt available and clears
    [configError]; the toggles keep at least one person, one tense and one
    verb type enabled and never change the verb limit. *)
Theorem toggles_keep_a_prompt_available (key : string) (st st' : settings) :
  st' ∈ [togglePerson verbs key st; toggleTense verbs key st;
         toggleVerbFilter verbs key st] ->
  (available verbs st = true -> available verbs st' = true)
  /\ (filtersOf st' <> filtersOf st ->
      available verbs st' = true /\ configError st' = false)
  /\ (oneOfEach st -> oneOfEach st')
  /\ verbLimit st' = verbLimit st.
Proof.
  intros Hin.
  assert (Hcases :
    st' = st
    \/ (filtersOf st' = filtersOf st /\ verbLimit st' = verbLimit st
        /\ configError st' = true)
    \/ (available verbs st' = true /\ configError st' = false
        /\ verbLimit st' = verbLimit st
        /\ (oneOfEach st -> oneOfEach st'))).
  { apply elem_of_cons in Hin as [-> | Hin];
      [|apply elem_of_cons in Hin as [-> | Hin];
        [|apply list_elem_of_singleton in Hin as ->]].
    - destruct (togglePerson_cases key st) as [H | [H | [Heq Hav]]]; auto.
      right; right. split; [done|]. rewrite Heq. simpl.
      split; [done|]. split; [done|]. intros (_ & Ht & Hf).
      unfold oneOfEach. simpl.
      split; [apply ToggleFacts.toggled_keeps_one | done].
    - destruct (toggleTense_cases key st) as [H | [H | [Heq Hav]]]; auto.
      right; right. split; [done|]. rewrite Heq. simpl.
      split; [done|]. split; [done|]. intros (Hp & _ & Hf).
      unfold oneOfEach. simpl.
      split; [done|]. split; [apply ToggleFacts.toggled_keeps_one | done].
    - destruct (toggleVerbFilter_cases key st) as [H | [H | [Heq Hav]]]; auto.
      right; right. split; [done|]. rewrite Heq. simpl.
      split; [done|]. split; [done|]. intros (Hp & Ht & _).
      unfold oneOfEach. simpl.
      split; [done|]. split; [done | apply ToggleFacts.toggled_keeps_one]. }
  destruct Hcases as [-> | [(Hsame & Hlimit & _) | (Hav & Herr & Hlimit & Hone)]].
  - split; [done|]. split; [done|]. split; done.
  - split; [now rewrite (available_same_filters st st')|].
    split; [done|]. split; [now apply oneOfEach_same_filters | done].
  - split; [done|]. split; [done|]. split; done.
Qed.

(** *** The verb limit *)

Lemma keepsVerb_limit (verbFilters : flags) (limit1 limit2 : Z) (verb : verb)
    (index : nat) :
  (limit1 <= limit2)%Z ->
  keepsVerb verbFilters limit1 verb index = true ->
  keepsVerb verbFilters limit2 verb index = true.
Proof.
  intros Hle. unfold keepsVerb.
  destruct (isRegular verb && negb (isOn verbFilters "regular")); [done|].
  destruct (negb (isRegular verb) && negb (isOn verbFilters "irregular"));
    [done|].
  destruct (limit1 <? getVerbRank verb index)%Z eqn:H1; [done|].
  apply Z.ltb_ge in H1. intros _.
  destruct (limit2 <? getVerbRank verb index)%Z eqn:H2; [|done].
  apply Z.ltb_lt in H2. lia.
Qed.

Lemma availableFor_limit (enabledPersons enabledTenses verbFilters : flags)
    (limit1 limit2 : Z) (lastKey : option string) (p : prompt) :
  (limit1 <= limit2)%Z ->
  p ∈ availableFor enabledPersons enabledTenses verbFilters limit1 lastKey ->
  p ∈ availableFor enabledPersons enabledTenses verbFilters limit2 lastKey.
Proof.
  intros Hle. rewrite !elem_of_available.
  intros (verb & tense & person & Hv & Hrest).
  exists verb, tense, person. split; [|exact Hrest].
  unfold getFilteredVerbs in *. apply elem_of_filterFrom in Hv as (i & Hi & Hk).
  apply elem_of_filterFrom. exists i. split; [done|].
  now apply (keepsVerb_limit verbFilters limit1 limit2).
Qed.

(** X12.  [handleVerbLimitChange] changes the limit and nothing else, and
    it makes no check: raising the limit keeps every prompt that was
    available, for every last key, so the application still has a prompt to
    show; lowering it may leave none. *)
Theorem raising_the_verb_limit_keeps_every_prompt (limit : Z) (st : settings) :
  (verbLimit st <= limit)%Z ->
  filtersOf (handleVerbLimitChange limit st) = filtersOf st
  /\ verbLimit (handleVerbLimitChange limit st) = limit
  /\ (forall p lastKey,
        p ∈ availableFor (enabledPersons st) (enabledTenses st)
                         (verbFilters st) (verbLimit st) lastKey ->
        p ∈ availableFor (enabledPersons st) (enabledTenses st)
                         (verbFilters st) limit lastKey)
  /\ (available verbs st = true ->
      available verbs (handleVerbLimitChange limit st) = true).
Proof.
  intros Hle. split; [done|]. split; [done|]. split.
  - intros p lastKey. now apply availableFor_limit.
  - unfold available, handleVerbLimitChange.
    cbn [enabledPersons enabledTenses verbFilters verbLimit].
    rewrite !hasAvailablePrompts_spec. intros Hsome Hnone.
    destruct (availableFor (enabledPersons st) (enabledTenses st)
                (verbFilters st) (verbLimit st) None) as [|p ps] eqn:Hlist;
      [done|].
    apply (elem_of_nil p). rewrite <- Hnone.
    apply (availableFor_limit _ _ _ (verbLimit st)); [done|].
    rewrite Hlist. left.
Qed.

End PracticeFacts.

Lemma picked_prompt_is_allowed_witness :
  isPromptAllowed PracticeSamples.twoVerbs (Some PracticeSamples.tuParles)
    PracticeSamples.onlyTu PracticeSamples.presentOn PracticeSamples.bothTypes
    100 = true.
Proof.
  apply (picked_prompt_is_allowed PracticeSamples.twoVerbs
           PracticeSamples.onlyTu PracticeSamples.presentOn
           PracticeSamples.bothTypes 100 None (RandomValue 0 0)).
  vm_compute. reflexivity.
Defined.

Lemma toggles_keep_a_prompt_available_witness :
  available PracticeSamples.twoVerbs
    (toggleVerbFilter PracticeSamples.twoVerbs "regular"
       PracticeSamples.onlyTuSettings) = true.
Proof.
  refine (proj1 (toggles_keep_a_prompt_available PracticeSamples.twoVerbs
                   "regular" PracticeSamples.onlyTuSettings _ _) _).
  - apply list_elem_of_further, list_elem_of_further, list_elem_of_here.
  - vm_compute. reflexivity.
Defined.

Lemma raising_the_verb_limit_keeps_every_prompt_witness :
  available PracticeSamples.twoVerbs
    (handleVerbLimitChange 300 PracticeSamples.onlyTuSettings) = true
  /\ available PracticeSamples.twoVerbs
       (handleVerbLimitChange 0 PracticeSamples.onlyTuSettings) = false.
Proof.
  split; [|vm_compute; reflexivity].
  refine (proj2 (proj2 (proj2 (raising_the_verb_limit_keeps_every_prompt
                                 PracticeSamples.twoVerbs 300
                                 PracticeSamples.onlyTuSettings _))) _).
  - vm_compute. discriminate.
  - vm_compute. reflexivity.
Defined.

End PracticeFacts.

(** ** The engine's contract *)

Module EngineFacts.

Import JS JSFacts App Practice.

Lemma keyOf_nonEmpty (verb : verb) (person tense : string) :
  keyOf verb person tense <> ""%string.
Proof.
  unfold keyOf. apply nonEmpty_true, ConjugationFacts.nonEmpty_suffixed.
  reflexivity.
Qed.

(** A key of an instance is never the key that [isLastKey] leaves alone. *)
Lemma isLastKey_false (lastKey : option string) (verb : verb)
    (person tense : string) :
  isLastKey lastKey (keyOf verb person tense) = false <->
  forall k, lastKey = Some k -> keyOf verb person tense <> k.
Proof.
  destruct lastKey as [k|]; simpl; [|split; [discriminate | done]].
  split.
  - intros Hlast k' [= <-] Hkey. rewrite Hkey, String.eqb_refl in Hlast.
    rewrite andb_true_r in Hlast.
    destruct k; [|discriminate]. now apply (keyOf_nonEmpty verb person tense).
  - intros Hne. apply andb_false_iff. right. apply String.eqb_neq. now apply Hne.
Qed.

Section EngineFacts.

Variable verbs : list verb.

(** The valid instances: [getAvailablePrompts] without a last key. *)
Local Abbreviation validInstances enabledPersons enabledTenses verbFilters
    verbLimit :=
  (getAvailablePrompts (getFilteredVerbs verbs verbFilters verbLimit)
                       enabledPersons enabledTenses None).

Lemma valid_key (enabledPersons enabledTenses verbFilters : flags)
    (verbLimit : Z) (p : prompt) :
  p ∈ validInstances enabledPersons enabledTenses verbFilters verbLimit ->
  p_key p = keyOf (p_verb p) (p_person p) (p_tense p).
Proof.
  intros (verb & tense & person & _ & _ & _ & _ & _ & ->)
         %PracticeFacts.elem_of_available.
  reflexivity.
Qed.

(** C1.  For every dataset, every state of the filters and every
    [lastKey], [pickNextPrompt] never returns an instance whose key is
    [lastKey], however many valid instances there are (so in particular when
    there are more than one); what it returns is a valid instance; when
    exactly one valid instance exists and its key is [lastKey], it returns
    [null]; and it returns [null] only when no valid instance has another
    key. *)
Theorem pickNextPrompt_excludes_lastKey
    (enabledPersons enabledTenses verbFilters : flags) (verbLimit : Z)
    (lastKey : option string) (random : randomValue) :
  (forall p k,
     pickNextPrompt verbs enabledPersons enabledTenses verbFilters verbLimit
                    lastKey random = Some p ->
     lastKey = Some k -> p_key p <> k)
  /\ (forall p,
        pickNextPrompt verbs enabledPersons enabledTenses verbFilters
                       verbLimit lastKey random = Some p ->
        p ∈ validInstances enabledPersons enabledTenses verbFilters verbLimit)
  /\ (forall q k,
        validInstances enabledPersons enabledTenses verbFilters verbLimit
          = [q] ->
        lastKey = Some k -> p_key q = k ->
        pickNextPrompt verbs enabledPersons enabledTenses verbFilters
                       verbLimit lastKey random = None)
  /\ (forall q,
        q ∈ validInstances enabledPersons enabledTenses verbFilters verbLimit ->
        (forall k, lastKey = Some k -> p_key q <> k) ->
        pickNextPrompt verbs enabledPersons enabledTenses verbFilters
                       verbLimit lastKey random <> None).
Proof.
  pose proof (PracticeFacts.pickNextPrompt_spec verbs enabledPersons
                enabledTenses verbFilters verbLimit lastKey random) as Hspec.
  assert (Hpicked : forall p,
            pickNextPrompt verbs enabledPersons enabledTenses verbFilters
                           verbLimit lastKey random = Some p ->
            p ∈ validInstances enabledPersons enabledTenses verbFilters
                  verbLimit
            /\ forall k, lastKey = Some k -> p_key p <> k).
  { intros p Hpick. rewrite Hpick in Hspec.
    apply PracticeFacts.available_without_lastKey in Hspec as [Hvalid Hlast].
    split; [exact Hvalid|].
    rewrite (valid_key _ _ _ _ p Hvalid) in *.
    now apply isLastKey_false. }
  split; [|split; [|split]].
  - intros p k Hpick. now apply (Hpicked p Hpick).
  - intros p Hpick. now apply (Hpicked p Hpick).
  - intros q k Hone Hk Hkey.
    destruct (pickNextPrompt _ _ _ _ _ _ _) as [p|] eqn:Hpick; [|done].
    destruct (Hpicked p eq_refl) as [Hvalid Hne]. exfalso.
    rewrite Hone in Hvalid. apply list_elem_of_singleton in Hvalid as ->.
    now apply (Hne k).
  - intros q Hvalid Hne Hpick. rewrite Hpick in Hspec.
    apply (elem_of_nil q). rewrite <- Hspec.
    apply PracticeFacts.available_without_lastKey. split; [exact Hvalid|].
    rewrite (valid_key _ _ _ _ q Hvalid) in *.
    now apply isLastKey_false.
Qed.

(** *** The toggles *)

(** The filter object with [key] turned over: [{ ...prev, [key]: !prev[key] }]. *)
Local Abbreviation flipped key prev :=
  (<[key%string := negb (isOn prev key)]> prev).

(** What a guarded toggle does, given the settings [st'] it leaves, the
    filter object [prev] it works on, that object [now] after the toggle,
    and [possible], the answer of [hasAvailablePrompts] for the settings
    with [key] turned over. *)
Local Abbreviation guarded key st st' prev now possible :=
  ((possible = false ->
    filtersOf st' = filtersOf st /\ verbLimit st' = verbLimit st)
   /\ (isOn prev key = true -> enabledCount prev = 1 -> st' = st)
   /\ (possible = true ->
       ~ (isOn prev key = true /\ enabledCount prev = 1) ->
       now = flipped key prev /\ configError st' = false)
   /\ (oneOfEach st -> oneOfEach st')).

Lemma flipped_keeps_one (key : string) (prev : flags) :
  (isOn prev key && (enabledCount prev =? 1)) = false ->
  1 <= enabledCount (flipped key prev).
Proof.
  intros Hlast. rewrite (PracticeFacts.next_is_toggled key prev Hlast).
  apply ToggleFacts.toggled_keeps_one.
Qed.

Lemma last_member (key : string) (prev : flags) :
  (isOn prev key && (enabledCount prev =? 1)) = true <->
  isOn prev key = true /\ enabledCount prev = 1.
Proof. now rewrite andb_true_iff, Nat.eqb_eq. Qed.

(** C2.  For every state of the filters, a toggle of a person, of a tense
    or of a verb type that would leave no valid instance
    ([hasAvailablePrompts] false for the filters with the key turned over)
    leaves the filters unchanged, and so does turning off the last enabled
    member of a group; a toggle that leaves a valid instance and is not the
    turning off of a last member is applied; and every toggle keeps at
    least one person, one tense and one verb type enabled. *)
Theorem toggles_refuse_to_leave_no_valid_instance (key : string)
    (st : settings) :
  guarded key st (togglePerson verbs key st) (enabledPersons st)
          (enabledPersons (togglePerson verbs key st))
          (hasAvailablePrompts verbs (flipped key (enabledPersons st))
                               (enabledTenses st) (verbFilters st)
                               (verbLimit st))
  /\ guarded key st (toggleTense verbs key st) (enabledTenses st)
             (enabledTenses (toggleTense verbs key st))
             (hasAvailablePrompts verbs (enabledPersons st)
                                  (flipped key (enabledTenses st))
                                  (verbFilters st) (verbLimit st))
  /\ guarded key st (toggleVerbFilter verbs key st) (verbFilters st)
             (verbFilters (toggleVerbFilter verbs key st))
             (hasAvailablePrompts verbs (enabledPersons st) (enabledTenses st)
                                  (flipped key (verbFilters st))
                                  (verbLimit st)).
Proof.
  split; [|split].
  - unfold togglePerson.
    destruct (isOn (enabledPersons st) key
              && (enabledCount (enabledPersons st) =? 1)) eqn:Hlast.
    + split; [done|]. split; [done|]. split; [|done].
      intros _ Hnot. exfalso. now apply Hnot, last_member.
    + destruct (hasAvailablePrompts verbs (flipped key (enabledPersons st))
                  (enabledTenses st) (verbFilters st) (verbLimit st))
        eqn:Hpossible; cbn [negb].
      * split; [discriminate|]. split; [|split; [done|]].
        -- intros Hon Hone. exfalso.
           apply not_true_iff_false in Hlast. now apply Hlast, last_member.
        -- intros (_ & Ht & Hf). split; [|done]. now apply flipped_keeps_one.
      * split; [done|]. split; [|split; [discriminate | done]].
        intros Hon Hone. exfalso.
        apply not_true_iff_false in Hlast. now apply Hlast, last_member.
  - unfold toggleTense.
    destruct (isOn (enabledTenses st) key
              && (enabledCount (enabledTenses st) =? 1)) eqn:Hlast.
    + split; [done|]. split; [done|]. split; [|done].
      intros _ Hnot. exfalso. now apply Hnot, last_member.
    + destruct (hasAvailablePrompts verbs (enabledPersons st)
                  (flipped key (enabledTenses st)) (verbFilters st)
                  (verbLimit st)) eqn:Hpossible; cbn [negb].
      * split; [discriminate|]. split; [|split; [done|]].
        -- intros Hon Hone. exfalso.
           apply not_true_iff_false in Hlast. now apply Hlast, last_member.
        -- intros (Hp & _ & Hf). split; [done|]. split; [|done].
           now apply flipped_keeps_one.
      * split; [done|]. split; [|split; [discriminate | done]].
        intros Hon Hone. exfalso.
        apply not_true_iff_false in Hlast. now apply Hlast, last_member.
  - unfold toggleVerbFilter.
    destruct (isOn (verbFilters st) key
              && (enabledCount (verbFilters st) =? 1)) eqn:Hlast.
    + split; [done|]. split; [done|]. split; [|done].
      intros _ Hnot. exfalso. now apply Hnot, last_member.
    + destruct (hasAvailablePrompts verbs (enabledPersons st)
                  (enabledTenses st) (flipped key (verbFilters st))
                  (verbLimit st)) eqn:Hpossible; cbn [negb].
      * split; [discriminate|]. split; [|split; [done|]].
        -- intros Hon Hone. exfalso.
           apply not_true_iff_false in Hlast. now apply Hlast, last_member.
        -- intros (Hp & Ht & _). split; [done|]. split; [done|].
           now apply flipped_keeps_one.
      * split; [done|]. split; [|split; [discriminate | done]].
        intros Hon Hone. exfalso.
        apply not_true_iff_false in Hlast. now apply Hlast, last_member.
Qed.

End EngineFacts.

Lemma pickNextPrompt_excludes_lastKey_witness :
  pickNextPrompt PracticeSamples.twoVerbs PracticeSamples.onlyTu
    PracticeSamples.presentOn PracticeSamples.bothTypes 100
    (Some "parlar-tu-present") (RandomValue 0 0) = None
  /\ forall random p,
       pickNextPrompt PracticeSamples.twoVerbs Samples.joAndTu
         PracticeSamples.presentOn PracticeSamples.bothTypes 100
         (Some "parlar-jo-present") random = Some p ->
       p_key p <> "parlar-jo-present"%string.
Proof.
  split.
  - refine (proj1 (proj2 (proj2 (pickNextPrompt_excludes_lastKey
              PracticeSamples.twoVerbs PracticeSamples.onlyTu
              PracticeSamples.presentOn PracticeSamples.bothTypes 100
              (Some "parlar-tu-present"%string) (RandomValue 0 0))))
              PracticeSamples.tuParles "parlar-tu-present"%string _ eq_refl
              eq_refl).
    vm_compute. reflexivity.
  - intros random p Hpick.
    exact (proj1 (pickNextPrompt_excludes_lastKey
             PracticeSamples.twoVerbs Samples.joAndTu
             PracticeSamples.presentOn PracticeSamples.bothTypes 100
             (Some "parlar-jo-present"%string) random)
             p "parlar-jo-present"%string Hpick eq_refl).
Defined.

Lemma toggles_refuse_to_leave_no_valid_instance_witness :
  filtersOf (toggleVerbFilter PracticeSamples.twoVerbs "regular"
               PracticeSamples.onlyTuSettings)
  = filtersOf PracticeSamples.onlyTuSettings
  /\ togglePerson PracticeSamples.twoVerbs "tu" PracticeSamples.onlyTuSettings
     = PracticeSamples.onlyTuSettings.
Proof.
  split.
  - refine (proj1 (proj1 (proj2 (proj2
              (toggles_refuse_to_leave_no_valid_instance
                 PracticeSamples.twoVerbs "regular"
                 PracticeSamples.onlyTuSettings))) _)).
    vm_compute. reflexivity.
  - refine (proj1 (proj2 (proj1 (toggles_refuse_to_leave_no_valid_instance
              PracticeSamples.twoVerbs "tu"
              PracticeSamples.onlyTuSettings))) _ _);
      vm_compute; reflexivity.
Defined.

End EngineFacts.

(** ** The analytics module *)

Module AnalyticsFacts.

Import Analytics.

Lemma optedIn_app (status : option bool) (log1 log2 : list call) :
  optedIn status (log1 ++ log2) = optedIn (optedIn status log1) log2.
Proof.
  revert status. induction log1 as [|c log1 IH]; intros status; [done|].
  destruct c; simpl; apply IH.
Qed.

Lemma tracksWhileOptedIn_app (status : option bool) (log1 log2 : list call) :
  tracksWhileOptedIn status (log1 ++ log2)
  = tracksWhileOptedIn status log1
    && tracksWhileOptedIn (optedIn status log1) log2.
Proof.
  revert status. induction log1 as [|c log1 IH]; intros status; [done|].
  destruct c; simpl; try apply IH.
  destruct status as [[|]|]; [apply IH | done | done].
Qed.

Lemma countInit_app (log1 log2 : list call) :
  countInit (log1 ++ log2) = countInit log1 + countInit log2.
Proof. unfold countInit. now rewrite filter_app, length_app. Qed.

Lemma invariant_initial (apiKey : option string) : invariant apiKey initial.
Proof. split; simpl; done. Qed.

Lemma invariant_initAnalytics (apiKey : option string) (shouldEnable : bool)
    (st : state) :
  invariant apiKey st -> invariant apiKey (initAnalytics apiKey shouldEnable st).
Proof.
  intros Hinv. pose proof Hinv as [Hidle Hkey Honce Hstatus Htracks].
  unfold initAnalytics.
  destruct (isInitialized st) eqn:Hinit; [exact Hinv|].
  specialize (Hidle eq_refl).
  destruct apiKey as [key|]; [destruct (JS.nonEmpty key) eqn:Hne|].
  - rewrite Hidle.
    split; simpl; [discriminate | intros _ | intros _ | intros _ | ].
    + exists key. done.
    + now destruct shouldEnable.
    + now destruct shouldEnable.
    + now destruct shouldEnable.
  - split; simpl; try done.
  - split; simpl; try done.
Qed.

Lemma invariant_setAnalyticsEnabled (apiKey : option string) (value : bool)
    (st : state) :
  invariant apiKey st -> invariant apiKey (setAnalyticsEnabled value st).
Proof.
  intros [Hidle Hkey Honce Hstatus Htracks]. unfold setAnalyticsEnabled.
  destruct (isInitialized st) eqn:Hinit; simpl.
  - specialize (Hkey eq_refl) as (key & Hapi & Hne & Hhead).
    specialize (Honce eq_refl). specialize (Hstatus eq_refl).
    destruct value; split; simpl; intros; try done.
    + exists key. split; [done|]. split; [done|].
      destruct (calls st); [done | exact Hhead].
    + rewrite countInit_app, Honce. reflexivity.
    + now rewrite optedIn_app.
    + rewrite tracksWhileOptedIn_app, Htracks. reflexivity.
    + exists key. split; [done|]. split; [done|].
      destruct (calls st); [done | exact Hhead].
    + rewrite countInit_app, Honce. reflexivity.
    + now rewrite optedIn_app.
    + rewrite tracksWhileOptedIn_app, Htracks. reflexivity.
  - split; simpl; try done.
Qed.

Lemma invariant_trackEvent (apiKey : option string) (event : string)
    (props : list (string * string)) (st : state) :
  invariant apiKey st -> invariant apiKey (trackEvent event props st).
Proof.
  intros Hinv. pose proof Hinv as [Hidle Hkey Honce Hstatus Htracks].
  unfold trackEvent.
  destruct (isInitialized st) eqn:Hinit; simpl; [|done].
  destruct (analyticsEnabled st) eqn:Hen; simpl; [|done].
  specialize (Hkey eq_refl) as (key & Hapi & Hne & Hhead).
  specialize (Honce eq_refl). specialize (Hstatus eq_refl).
  split; simpl; intros; try done.
  - exists key. split; [done|]. split; [done|].
    destruct (calls st); [done | exact Hhead].
  - rewrite countInit_app, Honce. reflexivity.
  - rewrite optedIn_app, Hstatus. reflexivity.
  - rewrite tracksWhileOptedIn_app, Htracks, Hstatus. reflexivity.
Qed.

Lemma invariant_step (apiKey : option string) (st : state) (r : request) :
  invariant apiKey st -> invariant apiKey (step apiKey st r).
Proof.
  destruct r; simpl.
  - apply invariant_initAnalytics.
  - apply invariant_setAnalyticsEnabled.
  - apply invariant_trackEvent.
Qed.

Lemma invariant_run (apiKey : option string) (requests : list request) :
  invariant apiKey (run apiKey requests).
Proof.
  unfold run. induction requests as [|r requests IH] using rev_ind.
  - apply invariant_initial.
  - rewrite foldl_app. simpl. now apply invariant_step.
Qed.

(** X13.  Whatever the application asks of the analytics module, and in
    whatever order: no event is sent to the library before it is initialised
    or while it is opted out; the library is initialised at most once; once
    it is initialised its opt-in status is the value of [analyticsEnabled];
    and before it is initialised no call at all is made on it. *)
Theorem analytics_never_tracks_while_opted_out (apiKey : option string)
    (requests : list request) :
  let st := run apiKey requests in
  tracksWhileOptedIn None (calls st) = true
  /\ countInit (calls st) <= 1
  /\ (isInitialized st = true ->
      optedIn None (calls st) = Some (analyticsEnabled st))
  /\ (isInitialized st = false -> calls st = []).
Proof.
  intros st. destruct (invariant_run apiKey requests)
    as [Hidle Hkey Honce Hstatus Htracks]. fold st in Hidle, Honce, Hstatus, Htracks.
  split; [exact Htracks|]. split; [|split; assumption].
  destruct (isInitialized st) eqn:Hinit.
  - rewrite Honce; [lia | done].
  - rewrite Hidle; [|done]. unfold countInit. simpl. lia.
Qed.

Lemma stays_idle_without_key (apiKey : option string) (requests : list request) :
  (forall key, apiKey = Some key -> JS.nonEmpty key = false) ->
  isInitialized (run apiKey requests) = false.
Proof.
  intros Hnokey.
  destruct (isInitialized (run apiKey requests)) eqn:Hinit; [|done].
  destruct (invariant_run apiKey requests) as [_ Hkey _ _ _].
  destruct (Hkey Hinit) as (key & Hapi & Hne & _).
  rewrite (Hnokey key Hapi) in Hne. done.
Qed.

(** X14.  When the key [VITE_AMPLITUDE_KEY] is not configured (absent or
    empty), the module never initialises and never calls the library,
    whatever is asked of it; it still records the last preference given. *)
Theorem analytics_without_key_calls_nothing (apiKey : option string)
    (requests : list request) :
  (forall key, apiKey = Some key -> JS.nonEmpty key = false) ->
  isInitialized (run apiKey requests) = false
  /\ calls (run apiKey requests) = []
  /\ forall value,
       analyticsEnabled (run apiKey (requests ++ [DoSetEnabled value])) = value.
Proof.
  intros Hnokey.
  pose proof (stays_idle_without_key apiKey requests Hnokey) as Hidle.
  split; [exact Hidle|]. split.
  - now apply (inv_idle apiKey _ (invariant_run apiKey requests)).
  - intros value. unfold run. rewrite foldl_app. simpl.
    unfold setAnalyticsEnabled. fold (run apiKey requests).
    rewrite Hidle. reflexivity.
Qed.

Lemma analytics_without_key_calls_nothing_witness :
  calls (run None [DoInit true; DoTrack "session_started" [];
                   DoSetEnabled true; DoTrack "prompt_shown" []]) = [].
Proof.
  refine (proj1 (proj2 (analytics_without_key_calls_nothing None _ _))).
  intros key Hkey. discriminate Hkey.
Defined.

End AnalyticsFacts.

(** ** What the validator accepts *)

Module ValidatorFacts.

Import JS JSFacts ValidateVerbs.

Lemma concat_nil_inv {A} (ls : list (list A)) (l : list A) :
  concat ls = [] -> l ∈ ls -> l = [].
Proof.
  induction ls as [|l' ls IH]; intros Hnil Hin; [now apply elem_of_nil in Hin|].
  simpl in Hnil. apply app_eq_nil in Hnil as [Hl' Hls].
  apply elem_of_cons in Hin as [-> | Hin]; auto.
Qed.

(** A tense without issue has its block and a form for every required
    person. *)
Lemma tenseIssues_nil (tenses : json) (tense : string) :
  tenseIssues tenses tense = [] ->
  hasBlock tenses tense = true
  /\ forall person, person ∈ requiredPersons tense ->
                    hasForm tenses tense person = true.
Proof.
  intros Hnil.
  assert (Hblock : hasBlock tenses tense = true).
  { unfold tenseIssues, hasBlock in *.
    destruct (getProp tenses tense) as [[|[]|q|s| |]|]; simpl in Hnil;
      try discriminate; try reflexivity.
    - destruct (Qeq_bool q 0); discriminate.
    - destruct (nonEmpty s); discriminate. }
  split; [exact Hblock|]. intros person Hp.
  rewrite ValidateFacts.tenseIssues_block in Hnil by exact Hblock.
  apply map_eq_nil in Hnil.
  destruct (hasForm tenses tense person) eqn:Hform; [done|].
  exfalso. apply (elem_of_nil person). rewrite <- Hnil.
  apply list_elem_of_filter. done.
Qed.

Lemma requiredCells_inv (tense person : string) :
  (tense, person) ∈ requiredCells ->
  tense ∈ TENSES /\ person ∈ requiredPersons tense.
Proof.
  unfold requiredCells. intros Hin%list_elem_of_In%in_concat.
  destruct Hin as (cells & Hcells%in_map_iff & Hcell).
  destruct Hcells as (tense' & <- & Ht).
  apply in_map_iff in Hcell as (person' & [= <- <-] & Hp).
  split; now apply list_elem_of_In.
Qed.

(** An entry without issue is a complete one. *)
Lemma validateVerb_nil_complete (verb : json) :
  validateVerb verb = [] -> complete verb = true.
Proof.
  unfold validateVerb, complete.
  destruct (negb (truthy (Some verb)) || negb (typeofObject (Some verb)));
    [discriminate|].
  destruct (truthy (getProp verb "infinitive")); cbn [negb andb];
    [|destruct (_ || _); discriminate].
  destruct (getProp verb "tenses") as [tenses|] eqn:Htenses;
    [|cbn; discriminate].
  destruct (negb (truthy (Some tenses)) || negb (typeofObject (Some tenses)));
    [discriminate|].
  intros Hnil. change (concat (map (tenseIssues tenses) TENSES) = []) in Hnil.
  apply andb_true_intro. split.
  - apply forallb_forall. intros tense Ht%list_elem_of_In.
    apply tenseIssues_nil, (concat_nil_inv _ _ Hnil).
    apply list_elem_of_fmap. eauto.
  - apply forallb_forall. intros [tense person] Hcell%list_elem_of_In.
    apply requiredCells_inv in Hcell as [Ht Hp]. simpl.
    refine (proj2 (tenseIssues_nil tenses tense _) person Hp).
    apply (concat_nil_inv _ _ Hnil). apply list_elem_of_fmap. eauto.
Qed.

Lemma validateVerb_nil_iff (verb : json) :
  validateVerb verb = [] <-> complete verb = true.
Proof.
  split; [apply validateVerb_nil_complete | apply ValidateFacts.validateVerb_complete].
Qed.

Lemma validate_cons (verb : json) (verbs : list json) :
  validate (verb :: verbs)
  = (if complete verb then [] else
       [ReportEntry
          (if truthy (getProp verb "infinitive")
           then default JNull (getProp verb "infinitive") else JStr "unknown")
          (validateVerb verb)])
    ++ validate verbs.
Proof.
  unfold validate. simpl.
  destruct (complete verb) eqn:Hc.
  - now rewrite (ValidateFacts.validateVerb_complete verb Hc).
  - destruct (validateVerb verb) as [|issue issues] eqn:Hissues; [|done].
    apply validateVerb_nil_complete in Hissues. congruence.
Qed.

(** X15.  The validation passes exactly on the datasets whose every entry
    is complete (an infinitive, a block for each of the seven tenses and a
    form in each of the thirty-six required cells); otherwise the report has
    one entry for each entry of the dataset that is not complete, in the
    order of the dataset, and no entry of the report has an empty list of
    issues. *)
Theorem validate_passes_iff_every_entry_complete (verbs : list json) :
  (validate verbs = [] <-> forallb complete verbs = true)
  /\ map r_issues (validate verbs)
     = map validateVerb (filter (fun verb => complete verb = false) verbs)
  /\ Forall (fun entry => r_issues entry <> []) (validate verbs).
Proof.
  induction verbs as [|verb verbs (IHnil & IHmap & IHall)]; [done|].
  rewrite validate_cons. destruct (complete verb) eqn:Hc; simpl.
  - rewrite Hc. simpl. rewrite filter_cons_False by congruence. done.
  - rewrite Hc. simpl. rewrite filter_cons_True by done. simpl.
    split; [split; discriminate|]. split; [now rewrite IHmap|].
    constructor; [|done]. simpl. rewrite validateVerb_nil_iff. congruence.
Qed.

(** *** Regular and irregular entries *)

(** [validateVerb] reads two properties of an entry. *)
Lemma validateVerb_reads (fields1 fields2 : list (string * json)) :
  lookupField fields1 "infinitive" = lookupField fields2 "infinitive" ->
  lookupField fields1 "tenses" = lookupField fields2 "tenses" ->
  validateVerb (JObj fields1) = validateVerb (JObj fields2).
Proof.
  intros Hinf Htenses. unfold validateVerb.
  cbn [getProp truthy typeofObject negb orb]. now rewrite Hinf, Htenses.
Qed.

Lemma reported (verb : json) (issue : string) :
  issue ∈ validateVerb verb -> validate [verb] <> [].
Proof.
  intros Hin. unfold validate. simpl.
  destruct (validateVerb verb); [now apply elem_of_nil in Hin | discriminate].
Qed.

Lemma missing_tenses (fields : list (string * json)) :
  truthy (lookupField fields "tenses") = false ->
  "missing-tenses" ∈ validateVerb (JObj fields).
Proof.
  intros Habsent. unfold validateVerb.
  cbn [getProp truthy typeofObject negb orb]. rewrite Habsent.
  cbn [negb orb]. apply elem_of_app. right. apply list_elem_of_here.
Qed.

Lemma missing_tense (fields : list (string * json)) (tense : string) :
  lookupField fields "tenses" = Some (JObj []) -> tense ∈ TENSES ->
  "missing-tense:" +:+ tense ∈ validateVerb (JObj fields).
Proof.
  intros Hempty Ht. unfold validateVerb.
  cbn [getProp truthy typeofObject negb orb]. rewrite Hempty.
  cbn [truthy typeofObject negb orb default from_option id].
  apply elem_of_app. right. apply list_elem_of_In, in_concat.
  exists (tenseIssues (JObj []) tense). split.
  - apply in_map. now apply list_elem_of_In.
  - left. reflexivity.
Qed.

Lemma validate_single (verb : json) :
  validate [verb] = [] <-> validateVerb verb = [].
Proof.
  rewrite validate_cons, validateVerb_nil_iff.
  destruct (complete verb); split; done.
Qed.

(** C4, as amended.  [validate] never reads the flag [regular]: the issues
    of an entry depend on its infinitive and on its table only, so two
    entries that differ in the flag (its value, or whether they have it) get
    the same issues.  Every entry whose table is absent is reported, with
    the issue "missing-tenses", and every entry whose table is empty is
    reported, with "missing-tense" for each of the seven tenses, marked
    regular or not.  An entry is without issue only if it has its seven
    blocks and every required cell filled: this is required of every verb,
    regular or irregular. *)
Theorem validate_requires_the_table_whatever_the_flag :
  (forall fields1 fields2 : list (string * json),
     lookupField fields1 "infinitive" = lookupField fields2 "infinitive" ->
     lookupField fields1 "tenses" = lookupField fields2 "tenses" ->
     validateVerb (JObj fields1) = validateVerb (JObj fields2)
     /\ (validate [JObj fields1] = [] <-> validate [JObj fields2] = []))
  /\ (forall fields : list (string * json),
        truthy (lookupField fields "tenses") = false ->
        "missing-tenses" ∈ validateVerb (JObj fields)
        /\ validate [JObj fields] <> [])
  /\ (forall fields : list (string * json),
        lookupField fields "tenses" = Some (JObj []) ->
        (forall tense, tense ∈ TENSES ->
                       "missing-tense:" +:+ tense ∈ validateVerb (JObj fields))
        /\ validate [JObj fields] <> [])
  /\ (forall verb : json,
        validate [verb] = [] ->
        exists tenses,
          getProp verb "tenses" = Some tenses
          /\ (forall tense, tense ∈ TENSES -> hasBlock tenses tense = true)
          /\ (forall tense person,
                (tense, person) ∈ requiredCells ->
                hasForm tenses tense person = true)).
Proof.
  split; [|split; [|split]].
  - intros fields1 fields2 Hinf Htenses.
    assert (Heq : validateVerb (JObj fields1) = validateVerb (JObj fields2))
      by now apply validateVerb_reads.
    split; [exact Heq|]. now rewrite !validate_single, Heq.
  - intros fields Habsent.
    pose proof (missing_tenses fields Habsent) as Hin.
    split; [exact Hin | exact (reported _ _ Hin)].
  - intros fields Hempty. split; [intros tense; now apply missing_tense|].
    apply (reported _ ("missing-tense:" +:+ "present")).
    apply missing_tense; [done | apply list_elem_of_here].
  - intros verb Hpass. apply validate_single, validateVerb_nil_iff in Hpass.
    unfold complete in Hpass. apply andb_prop in Hpass as [_ Htable].
    destruct (getProp verb "tenses") as [tenses|]; [|discriminate].
    apply andb_prop in Htable as [Hblocks Hcells].
    rewrite forallb_forall in Hblocks, Hcells.
    exists tenses. split; [done|]. split.
    + intros tense Ht. now apply Hblocks, list_elem_of_In.
    + intros tense person Hcell.
      now apply (Hcells (tense, person)), list_elem_of_In.
Qed.

(** "parlar" as the build writes a verb, marked regular, with its table
    left out: it is reported like the same entry marked irregular. *)
Lemma validate_requires_the_table_whatever_the_flag_witness :
  "missing-tenses" ∈ validateVerb Samples.parlarWithoutTable
  /\ validateVerb (JObj [("infinitive", JStr "parlar");
                         ("translation", JStr "to speak");
                         ("regular", JBool true); ("group", JStr "ar");
                         ("rank", JNum 1)])
     = validateVerb (JObj [("infinitive", JStr "parlar");
                           ("translation", JStr "to speak");
                           ("regular", JBool false); ("group", JStr "ar");
                           ("rank", JNum 1)])
  /\ "missing-tense:future" ∈ validateVerb Samples.parlarEmptyTable.
Proof.
  split; [|split].
  - apply (proj1 (proj2 validate_requires_the_table_whatever_the_flag)).
    reflexivity.
  - apply (proj1 validate_requires_the_table_whatever_the_flag); reflexivity.
  - apply (proj1 (proj2 (proj2 validate_requires_the_table_whatever_the_flag))).
    + reflexivity.
    + apply list_elem_of_further, list_elem_of_further, list_elem_of_here.
Defined.

End ValidatorFacts.

(** ** The selection of the verbs *)

Module SelectionFacts.

Import JS JSFacts BuildVerbs.

Lemma normalizeTranslation_nonEmpty (value : string) :
  nonEmpty value = true -> nonEmpty (normalizeTranslation value) = true.
Proof.
  intros Hv. unfold normalizeTranslation. rewrite Hv. cbn [negb].
  destruct (nonEmpty (trim _)) eqn:Hc; cbn [negb]; [|exact Hv].
  destruct (startsWith _ "to "); [exact Hc | reflexivity].
Qed.

(** *** The dictionary *)

Lemma parseEntry_nonEmpty (entry lemma translation : string) :
  parseEntry entry = Some (lemma, translation) ->
  nonEmpty lemma = true /\ nonEmpty translation = true.
Proof.
  unfold parseEntry.
  destruct (Regex.matchGroup orthRegex entry) as [orth|]; [|discriminate].
  destruct (nonEmpty (normalizeText (stripTags orth))) eqn:Hlemma;
    cbn [negb]; [|discriminate].
  destruct (Regex.matchGroup posRegex entry) as [posText|]; [|discriminate].
  destruct (negb _); [discriminate|].
  destruct (Regex.matchGroup quoteRegex entry) as [quote|]; [|discriminate].
  destruct (nonEmpty (normalizeText (stripTags quote))) eqn:Htr;
    cbn [negb]; [|discriminate].
  intros [= <- <-]. done.
Qed.

Lemma addEntry_unbound (map : gmap string string) (entry lemma : string) :
  addEntry map entry !! lemma = None -> map !! lemma = None.
Proof.
  intros Hnone. destruct (map !! lemma) as [t|] eqn:Hbound; [|done].
  rewrite (BuildFacts.addEntry_keeps map entry lemma t Hbound) in Hnone.
  discriminate.
Qed.

Lemma addEntry_source (map : gmap string string)
    (entry lemma translation : string) :
  addEntry map entry !! lemma = Some translation ->
  map !! lemma = Some translation
  \/ (map !! lemma = None /\ parseEntry entry = Some (lemma, translation)).
Proof.
  unfold addEntry.
  destruct (parseEntry entry) as [[lemma' t']|] eqn:Hentry; [|now left].
  destruct (map !! lemma') eqn:Hbound; [now left|].
  destruct (decide (lemma' = lemma)) as [-> | Hne].
  - rewrite lookup_insert_eq. intros [= ->]. now right.
  - rewrite lookup_insert_ne by done. now left.
Qed.

Lemma addEntries_source (entries : list string) (map : gmap string string)
    (lemma translation : string) :
  foldl addEntry map entries !! lemma = Some translation ->
  map !! lemma = Some translation
  \/ (map !! lemma = None
      /\ exists entry, entry ∈ entries
                       /\ parseEntry entry = Some (lemma, translation)).
Proof.
  revert map. induction entries as [|entry entries IH]; intros map;
    [now left|].
  simpl. intros [Hfirst | [Hnone (e & He & Hparse)]]%IH.
  - apply addEntry_source in Hfirst as [Hbound | [Hnone Hparse]];
      [now left|].
    right. split; [done|]. exists entry. split; [left | done].
  - right. split; [now apply addEntry_unbound in Hnone|].
    exists e. split; [now right | done].
Qed.

Lemma addEntries_bind (entries : list string) (map : gmap string string)
    (entry lemma translation : string) :
  entry ∈ entries -> parseEntry entry = Some (lemma, translation) ->
  is_Some (foldl addEntry map entries !! lemma).
Proof.
  revert map. induction entries as [|e entries IH]; intros map Hin Hparse;
    [now apply elem_of_nil in Hin|].
  simpl. destruct (map !! lemma) as [t|] eqn:Hbound.
  - exists t. now apply BuildFacts.addEntries_keep, BuildFacts.addEntry_keeps.
  - apply elem_of_cons in Hin as [<- | Hin]; [|now apply IH].
    exists translation.
    now apply BuildFacts.addEntries_keep, BuildFacts.addEntry_binds_new_lemma.
Qed.

(** X16.  The map [parseFreeDict] returns binds exactly the lemmas of the
    entries its loop accepts; the translation bound to a lemma is that of
    one of these entries, and neither a bound lemma nor its translation is
    ever the empty string. *)
Theorem parseFreeDict_binds_the_accepted_entries (teiText lemma : string) :
  (is_Some (parseFreeDict teiText !! lemma) <->
   exists entry translation,
     entry ∈ entriesOf teiText
     /\ parseEntry entry = Some (lemma, translation))
  /\ (forall translation,
        parseFreeDict teiText !! lemma = Some translation ->
        nonEmpty lemma = true /\ nonEmpty translation = true
        /\ exists entry, entry ∈ entriesOf teiText
                         /\ parseEntry entry = Some (lemma, translation)).
Proof.
  assert (Hsource : forall translation,
            parseFreeDict teiText !! lemma = Some translation ->
            exists entry, entry ∈ entriesOf teiText
                          /\ parseEntry entry = Some (lemma, translation)).
  { intros translation Hbound. unfold parseFreeDict in Hbound.
    apply addEntries_source in Hbound as [Hempty | [_ Hentry]]; [|done].
    now rewrite lookup_empty in Hempty. }
  split; [split|].
  - intros [translation (entry & Hin & Hparse)%Hsource]. eauto.
  - intros (entry & translation & Hin & Hparse).
    now apply (addEntries_bind _ _ entry lemma translation).
  - intros translation Hbound.
    destruct (Hsource translation Hbound) as (entry & Hin & Hparse).
    destruct (parseEntry_nonEmpty _ _ _ Hparse) as [Hl Ht]. eauto.
Qed.

Section SelectionFacts.

Variable translationMap : gmap string string.
Variable freqWords : list string.

(** What is true of every candidate put on one of the two lists. *)
Local Abbreviation fromList := (fun x : candidate =>
  c_infinitive x ∈ freqWords
  /\ isVerbCandidate (c_infinitive x) = true
  /\ exists raw, translationMap !! c_infinitive x = Some raw
                 /\ nonEmpty raw = true
                 /\ c_translation x = normalizeTranslation raw).

Local Abbreviation untranslated := (fun word : string =>
  word ∈ freqWords /\ isVerbCandidate word = true
  /\ nonEmpty (default "" (translationMap !! word)) = false).

Lemma mainPass_invariant (words : list string) (st : selection) :
  (forall word, word ∈ words -> word ∈ freqWords) ->
  Forall fromList (selected st) ->
  Forall fromList (orthographyCandidates st) ->
  Forall untranslated (missingTranslations st) ->
  length (selected st) <= MAX_VERBS ->
  let st' := mainPass translationMap words st in
  Forall fromList (selected st')
  /\ Forall fromList (orthographyCandidates st')
  /\ Forall untranslated (missingTranslations st')
  /\ length (selected st') <= MAX_VERBS.
Proof.
  revert st. induction words as [|word words IH];
    intros st Hwords Hsel Horth Hmiss Hlen; cbn [mainPass]; [done|].
  destruct (MAX_VERBS <=? length (selected st)) eqn:Hfull; [done|].
  apply Nat.leb_gt in Hfull.
  assert (Hrest : forall w, w ∈ words -> w ∈ freqWords).
  { intros w Hw. apply Hwords. now right. }
  assert (Hword : word ∈ freqWords) by (apply Hwords; left).
  destruct (isVerbCandidate word) eqn:Hcand; cbn [negb]; [|now apply IH].
  destruct (nonEmpty (default "" (translationMap !! word))) eqn:Hraw;
    cbn [negb].
  - assert (Hnew : forall r, fromList (Candidate word
               (normalizeTranslation (default "" (translationMap !! word))) r)).
    { intros r. cbn [c_infinitive c_translation].
      split; [done|]. split; [done|].
      destruct (translationMap !! word) as [raw|]; [|discriminate].
      exists raw. done. }
    destruct (isOrthographic word).
    + apply IH; cbn [selected orthographyCandidates missingTranslations];
        try done.
      apply Forall_app. split; [done|]. apply Forall_singleton, Hnew.
    + apply IH; cbn [selected orthographyCandidates missingTranslations];
        try done.
      * apply Forall_app. split; [done|]. apply Forall_singleton, Hnew.
      * rewrite length_app. simpl. lia.
  - apply IH; cbn [selected orthographyCandidates missingTranslations];
      try done.
    apply Forall_app. split; [done|]. now apply Forall_singleton.
Qed.

Lemma includeOrthographic_invariant (candidates sel : list candidate) :
  Forall fromList candidates -> Forall fromList sel ->
  length sel <= MAX_VERBS ->
  Forall fromList (includeOrthographic candidates sel)
  /\ length (includeOrthographic candidates sel) <= MAX_VERBS.
Proof.
  revert sel. induction candidates as [|x candidates IH];
    intros sel Hcands Hsel Hlen; cbn [includeOrthographic]; [done|].
  destruct (MAX_VERBS <=? length sel) eqn:Hfull; [done|].
  apply Nat.leb_gt in Hfull. apply Forall_cons in Hcands as [Hx Hcands].
  apply IH; [done | |].
  - apply Forall_app. split; [done|]. now apply Forall_singleton.
  - rewrite length_app. simpl. lia.
Qed.

Lemma selectVerbs_invariant :
  length (selectVerbs translationMap freqWords) <= MAX_VERBS
  /\ (forall x, x ∈ selectVerbs translationMap freqWords ->
        c_infinitive x ∈ freqWords
        /\ isVerbCandidate (c_infinitive x) = true
        /\ (exists raw, translationMap !! c_infinitive x = Some raw
                        /\ nonEmpty raw = true
                        /\ c_translation x = normalizeTranslation raw)
        /\ nonEmpty (c_translation x) = true)
  /\ (forall word,
        word ∈ missingTranslations
                 (mainPass translationMap freqWords emptySelection) ->
        word ∈ freqWords /\ isVerbCandidate word = true
        /\ (translationMap !! word = None
            \/ translationMap !! word = Some ""%string)).
Proof.
  destruct (mainPass_invariant freqWords emptySelection)
    as (Hsel & Horth & Hmiss & Hlen);
    [done | constructor | constructor | constructor
     | cbn [emptySelection selected length]; lia |].
  destruct (includeOrthographic_invariant _ _ Horth Hsel Hlen)
    as [Hall Hbound].
  split; [exact Hbound|]. split.
  - intros x Hx. rewrite Forall_forall in Hall.
    destruct (Hall x Hx) as (Hin & Hcand & raw & Hraw & Hne & Htr).
    split; [done|]. split; [done|]. split; [eauto|].
    rewrite Htr. now apply normalizeTranslation_nonEmpty.
  - intros word Hword. rewrite Forall_forall in Hmiss.
    destruct (Hmiss word Hword) as (Hin & Hcand & Hraw).
    split; [done|]. split; [done|].
    destruct (translationMap !! word) as [[|a raw]|]; auto. discriminate.
Qed.

(** X17.  The selection never holds more than [MAX_VERBS] verbs, and every
    verb in it is a word of the frequency list that is a verb candidate and
    has a translation in the dictionary, which it carries normalised and
    not empty; every word noted as lacking a translation is a candidate of
    the list without a usable entry in the dictionary. *)
Theorem selectVerbs_bounded_and_translated :
  length (selectVerbs translationMap freqWords) <= MAX_VERBS
  /\ (forall x, x ∈ selectVerbs translationMap freqWords ->
        c_infinitive x ∈ freqWords
        /\ isVerbCandidate (c_infinitive x) = true
        /\ (exists raw, translationMap !! c_infinitive x = Some raw
                        /\ nonEmpty raw = true
                        /\ c_translation x = normalizeTranslation raw)
        /\ nonEmpty (c_translation x) = true)
  /\ (forall word,
        word ∈ missingTranslations
                 (mainPass translationMap freqWords emptySelection) ->
        word ∈ freqWords /\ isVerbCandidate word = true
        /\ (translationMap !! word = None
            \/ translationMap !! word = Some ""%string)).
Proof.
  destruct (mainPass_invariant freqWords emptySelection)
    as (Hsel & Horth & Hmiss & Hlen);
    [done | constructor | constructor | constructor
     | cbn [emptySelection selected length]; lia |].
  destruct (includeOrthographic_invariant _ _ Horth Hsel Hlen)
    as [Hall Hbound].
  split; [exact Hbound|]. split.
  - intros x Hx. rewrite Forall_forall in Hall.
    destruct (Hall x Hx) as (Hin & Hcand & raw & Hraw & Hne & Htr).
    split; [done|]. split; [done|]. split; [eauto|].
    rewrite Htr. now apply normalizeTranslation_nonEmpty.
  - intros word Hword. rewrite Forall_forall in Hmiss.
    destruct (Hmiss word Hword) as (Hin & Hcand & Hraw).
    split; [done|]. split; [done|].
    destruct (translationMap !! word) as [[|a raw]|]; auto. discriminate.
Qed.

End SelectionFacts.

(** *** The group of a verb *)

Lemma getGroup_of_candidate (word : string) :
  isVerbCandidate word = true -> getGroup word = App.getVerbGroup word.
Proof.
  intros Hcand. unfold isVerbCandidate in Hcand.
  repeat match type of Hcand with
         | (if ?b then false else _) = true => destruct b; [discriminate|]
         end.
  unfold getGroup, App.getVerbGroup.
  destruct (endsWith word "ar"); [done|].
  destruct (endsWith word "ir"); [done|].
  simpl in Hcand. rewrite orb_false_r in Hcand. now rewrite Hcand.
Qed.

(** X18.  The group the builders store ([getGroup]) and the group the
    application derives when none is stored ([getVerbGroup]) are the same
    exactly for the words with one of the endings "ar", "er", "re", "ir";
    for any other word the builder answers "er" and the application "ar".
    They agree on every verb candidate, and so on every selected verb. *)
Theorem getGroup_agrees_with_getVerbGroup (word : string) :
  (getGroup word = App.getVerbGroup word <->
   endsWith word "ar" || endsWith word "er" || endsWith word "re"
   || endsWith word "ir" = true)
  /\ (getGroup word <> App.getVerbGroup word ->
      getGroup word = "er"%string /\ App.getVerbGroup word = "ar"%string)
  /\ (isVerbCandidate word = true -> getGroup word = App.getVerbGroup word).
Proof.
  assert (Hiff : getGroup word = App.getVerbGroup word <->
                 endsWith word "ar" || endsWith word "er" || endsWith word "re"
                 || endsWith word "ir" = true).
  { unfold getGroup, App.getVerbGroup.
    destruct (endsWith word "ar"); [done|].
    destruct (endsWith word "ir");
      [now rewrite orb_true_r|].
    destruct (endsWith word "er"); [done|].
    destruct (endsWith word "re"); [done|]. done. }
  split; [exact Hiff|]. split.
  - unfold getGroup, App.getVerbGroup.
    destruct (endsWith word "ar"); [done|].
    destruct (endsWith word "ir"); [done|].
    destruct (endsWith word "er"); [done|].
    destruct (endsWith word "re"); [done|]. done.
  - apply getGroup_of_candidate.
Qed.

End SelectionFacts.

(** ** The written dataset *)

Module DatasetFacts.

Import JS JSFacts BuildVerbs ValidateVerbs Dataset.

Ltac in_list :=
  solve [repeat (first [apply list_elem_of_here | apply list_elem_of_further])].

(** *** Reading a table back *)

Lemma lookupField_unique (fields : list (string * json)) (key : string)
    (value : json) :
  NoDup (fields.*1) -> (key, value) ∈ fields ->
  lookupField fields key = Some value.
Proof.
  induction fields as [|[k v] fields IH]; intros Hnodup Hin;
    [now apply elem_of_nil in Hin|].
  simpl in Hnodup. apply NoDup_cons in Hnodup as [Hfresh Hnodup].
  simpl. destruct (String.eqb k key) eqn:Hk.
  - apply String.eqb_eq in Hk as ->.
    apply elem_of_cons in Hin as [[= ->] | Hin]; [done|].
    exfalso. apply Hfresh. apply list_elem_of_fmap. now exists (key, value).
  - apply String.eqb_neq in Hk.
    apply elem_of_cons in Hin as [[= -> ->] | Hin]; [done|]. now apply IH.
Qed.

Lemma getProp_tableJson (table : gmap string string) (person form : string) :
  table !! person = Some form ->
  getProp (tableJson table) person = Some (JStr form).
Proof.
  intros Hlook. unfold tableJson. simpl. apply lookupField_unique.
  - rewrite <- list_fmap_compose.
    replace (fst ∘ (fun kv : string * string => (kv.1, JStr kv.2)))
      with (@fst string string) by done.
    apply NoDup_fst_map_to_list.
  - apply list_elem_of_fmap. exists (person, form). split; [done|].
    now apply elem_of_map_to_list.
Qed.

(** *** The completeness check of the builder *)

Lemma firstMissing_None (tenses : conjugations) :
  firstMissing tenses = None ->
  forall tense table person,
    (tense, table) ∈ requiredByTense tenses -> person ∈ PERSON_LABELS ->
    cellMissing table person = false.
Proof.
  unfold firstMissing. intros Hnil%head_None tense table person Ht Hp.
  destruct (cellMissing table person) eqn:Hmiss; [|done]. exfalso.
  assert (Hrow : map (fun person => (tense, person))
                   (filter (fun person => cellMissing table person = true)
                           PERSON_LABELS) = []).
  { apply (ValidatorFacts.concat_nil_inv _ _ Hnil).
    apply list_elem_of_fmap. exists (tense, table). done. }
  apply map_eq_nil in Hrow. apply (elem_of_nil person). rewrite <- Hrow.
  now apply list_elem_of_filter.
Qed.

Lemma cell_present (table : gmap string string) (person : string) :
  cellMissing table person = false ->
  exists form, table !! person = Some form /\ nonEmpty form = true.
Proof.
  unfold cellMissing. destruct (table !! person) as [form|]; simpl.
  - intros Hne%negb_false_iff. eauto.
  - discriminate.
Qed.

Lemma table_of_required (tenses : conjugations) (tense : string)
    (table : gmap string string) :
  (tense, table) ∈ requiredByTense tenses ->
  table ∈ tablesOf tenses
  /\ getProp (tensesJson tenses) tense = Some (tableJson table).
Proof.
  unfold requiredByTense. intros Hin.
  repeat (apply elem_of_cons in Hin as [[= -> ->] | Hin];
          [split; [in_list | reflexivity]|]).
  now apply elem_of_nil in Hin.
Qed.

Lemma hasForm_tensesJson (tenses : conjugations) (tense person : string)
    (table : gmap string string) :
  trimmedTables tenses ->
  (tense, table) ∈ requiredByTense tenses ->
  cellMissing table person = false ->
  hasForm (tensesJson tenses) tense person = true.
Proof.
  intros Htrim [Htable Hprop]%table_of_required
         (form & Hform & Hne)%cell_present.
  unfold hasForm. rewrite Hprop, (getProp_tableJson table person form Hform).
  now rewrite (Htrim table person form Htable Hform).
Qed.

Lemma required_of_tense (tenses : conjugations) (tense person : string) :
  tense ∈ TENSES -> person ∈ requiredPersons tense ->
  person ∈ PERSON_LABELS
  /\ exists table, (tense, table) ∈ requiredByTense tenses.
Proof.
  unfold TENSES. intros Ht Hp.
  repeat (apply elem_of_cons in Ht as [-> | Ht];
          [split; [exact Hp | eexists; unfold requiredByTense; in_list]|]).
  apply elem_of_cons in Ht as [-> | Ht].
  - now apply elem_of_nil in Hp.
  - now apply elem_of_nil in Ht.
Qed.

(** An entry whose tables passed the check of the builder is complete for
    the validator. *)
Lemma complete_verbJson (verb : builtVerb) :
  nonEmpty (v_infinitive verb) = true ->
  firstMissing (v_tenses verb) = None ->
  trimmedTables (v_tenses verb) ->
  complete (verbJson verb) = true.
Proof.
  intros Hinf Hcheck Htrim. unfold complete.
  change (getProp (verbJson verb) "infinitive")
    with (Some (JStr (v_infinitive verb))).
  change (getProp (verbJson verb) "tenses")
    with (Some (tensesJson (v_tenses verb))).
  cbn [truthy]. rewrite Hinf. cbn [andb].
  apply andb_true_intro. split; [reflexivity|].
  apply forallb_forall. intros [tense person] Hcell%list_elem_of_In.
  apply ValidatorFacts.requiredCells_inv in Hcell as [Ht Hp].
  destruct (required_of_tense (v_tenses verb) tense person Ht Hp)
    as [Hperson [table Htable]].
  cbn [fst snd]. apply (hasForm_tensesJson _ _ _ table); [done | done |].
  now apply (firstMissing_None _ Hcheck tense).
Qed.

(** *** The fetch of one verb *)

Section DatasetFacts.

Context {Remote : Type}.
Variable extractTables : string -> conjugations.
Variable fetchConjugationHtml : string -> Remote -> (string + string) * Remote.

Local Abbreviation world := (@world Remote).
Local Abbreviation fetchOne :=
  (fetchIrregularConjugations extractTables fetchConjugationHtml).
Local Abbreviation fetchEach := (fetchAll extractTables fetchConjugationHtml).

(** What the completeness check answers for a page. *)
Local Abbreviation parsed := (fun (html infinitive : string) =>
  match firstMissing (extractTables html) with
  | Some (tense, person) =>
      Thrown ("Missing " +:+ person +:+ " for " +:+ infinitive
              +:+ " (" +:+ tense +:+ ")")
  | None => Ok (extractTables html)
  end).

Lemma parseConjugationsFromHtml_answer (html infinitive : string) (w : world) :
  parseConjugationsFromHtml extractTables html infinitive w
  = (parsed html infinitive, w).
Proof.
  unfold parseConjugationsFromHtml.
  destruct (firstMissing (extractTables html)) as [[tense person]|]; reflexivity.
Qed.

(** The three ways a fetch goes: served from the cache, downloaded and
    cached, or failed. *)
Lemma fetchOne_cases (infinitive : string) (w : world) :
  (exists html,
     cache w !! cachePathOf infinitive = Some html
     /\ includes html "Indicative mood" = true
     /\ fetchOne infinitive w = (parsed html infinitive, w))
  \/ ((forall html, cache w !! cachePathOf infinitive = Some html ->
                    includes html "Indicative mood" = false)
      /\ ((exists html r,
             fetchConjugationHtml infinitive (remote w) = (inr html, r)
             /\ fetchOne infinitive w
                = (parsed html infinitive,
                   World (<[cachePathOf infinitive := html]> (cache w)) r))
          \/ (exists message r,
                fetchConjugationHtml infinitive (remote w) = (inl message, r)
                /\ fetchOne infinitive w
                   = (Thrown message, World (cache w) r)))).
Proof.
  unfold fetchIrregularConjugations, bind, readCache, writeCache, download, ret.
  fold (cachePathOf infinitive).
  destruct (cache w !! cachePathOf infinitive) as [html|] eqn:Hcache.
  - destruct (includes html "Indicative mood") eqn:Hmood; cbn [negb].
    + left. exists html. rewrite parseConjugationsFromHtml_answer.
      destruct w. done.
    + right. split; [intros ? [= <-]; exact Hmood|].
      destruct (fetchConjugationHtml infinitive (remote w))
        as [[message|html'] r] eqn:Hfetch.
      * right. exists message, r. done.
      * left. exists html', r. cbn [cache remote].
        now rewrite parseConjugationsFromHtml_answer.
  - right. split; [discriminate|].
    destruct (fetchConjugationHtml infinitive (remote w))
      as [[message|html'] r] eqn:Hfetch.
    + right. exists message, r. done.
    + left. exists html', r. cbn [cache remote].
      now rewrite parseConjugationsFromHtml_answer.
Qed.

Lemma parsed_ok (html infinitive : string) (tenses : conjugations) :
  parsed html infinitive = Ok tenses ->
  tenses = extractTables html /\ firstMissing tenses = None.
Proof.
  cbv beta.
  destruct (firstMissing (extractTables html)) as [[tense person]|] eqn:Hcheck;
    [discriminate|].
  intros [= <-]. done.
Qed.

Lemma fetchOne_ok (infinitive : string) (w w' : world)
    (tenses : conjugations) :
  fetchOne infinitive w = (Ok tenses, w') ->
  firstMissing tenses = None /\ exists html, tenses = extractTables html.
Proof.
  intros Hrun.
  destruct (fetchOne_cases infinitive w)
    as [(html & _ & _ & Heq)
       | [_ [(html & r & _ & Heq) | (message & r & _ & Heq)]]];
    rewrite Heq in Hrun; try discriminate;
    injection Hrun as Hparsed _;
    apply parsed_ok in Hparsed as [-> Hcheck]; eauto.
Qed.

(** X19.  The cache of a verb's page: a fetch changes no cached page but
    that of its verb; and once the cache holds for the verb a page with the
    text "Indicative mood", fetching the verb again answers the same,
    without a request to the site and without writing anything. *)
Theorem fetchIrregularConjugations_served_from_cache (infinitive : string)
    (w w' : world) (r : result conjugations) :
  fetchOne infinitive w = (r, w') ->
  (forall path, path <> cachePathOf infinitive ->
                cache w' !! path = cache w !! path)
  /\ (forall html,
        cache w' !! cachePathOf infinitive = Some html ->
        includes html "Indicative mood" = true ->
        fetchOne infinitive w' = (r, w')).
Proof.
  intros Hrun.
  destruct (fetchOne_cases infinitive w)
    as [(html & Hcache & Hmood & Heq)
       | [Hstale [(html & rem & Hfetch & Heq)
                 | (message & rem & Hfetch & Heq)]]];
    rewrite Heq in Hrun; injection Hrun as <- <-.
  - split; [done|]. intros html' Hcache' _. exact Heq.
  - split; [intros path Hpath; cbn [cache]; now rewrite lookup_insert_ne|].
    intros html' Hcache' Hmood'. cbn [cache] in Hcache'.
    rewrite lookup_insert_eq in Hcache'. injection Hcache' as <-.
    destruct (fetchOne_cases infinitive
                (World (<[cachePathOf infinitive := html]> (cache w)) rem))
      as [(html' & Hcache' & _ & Heq')
         | [Hstale' _]].
    + cbn [cache] in Hcache'. rewrite lookup_insert_eq in Hcache'.
      injection Hcache' as <-. exact Heq'.
    + specialize (Hstale' html). cbn [cache] in Hstale'.
      rewrite lookup_insert_eq in Hstale'. specialize (Hstale' eq_refl).
      congruence.
  - split; [done|]. intros html Hcache Hmood. cbn [cache] in Hcache.
    rewrite (Hstale html Hcache) in Hmood. discriminate.
Qed.

(** *** The loop over the selected verbs *)

Lemma fetchAll_invariant (P : builtVerb -> Prop)
    (translationMap : gmap string string) (selected : list candidate)
    (acc : assembly) (w : world) :
  Forall P (verbs acc) ->
  (forall x tenses w1 w2,
     x ∈ selected -> fetchOne (c_infinitive x) w1 = (Ok tenses, w2) ->
     P (buildVerb translationMap x tenses)) ->
  exists acc' w',
    fetchEach translationMap selected acc w = (Ok acc', w')
    /\ Forall P (verbs acc')
    /\ length (verbs acc') <= length (verbs acc) + length selected.
Proof.
  revert acc w. induction selected as [|x rest IH]; intros acc w Hacc Hnew.
  - exists acc, w. split; [done|]. split; [done|]. lia.
  - cbn [fetchAll]. unfold bind at 1.
    rewrite BuildFacts.fetchVerb_answer.
    destruct (fetchOne (c_infinitive x) w) as [[tenses|message] w1] eqn:Hone.
    + destruct (IH (Assembly (verbs acc ++ [buildVerb translationMap x tenses])
                             (missingConjugations acc)) w1)
        as (acc' & w' & Hrun & Hall & Hlen).
      * cbn [verbs]. apply Forall_app. split; [done|].
        apply Forall_singleton. apply (Hnew x tenses w w1); [left | done].
      * intros y t w2 w3 Hy. apply Hnew. now right.
      * exists acc', w'. split; [done|]. split; [done|].
        cbn [verbs] in Hlen. rewrite length_app in Hlen. simpl in *. lia.
    + destruct (IH (Assembly (verbs acc)
                      (missingConjugations acc
                       ++ [c_infinitive x +:+ ": " +:+ message])) w1)
        as (acc' & w' & Hrun & Hall & Hlen).
      * done.
      * intros y t w2 w3 Hy. apply Hnew. now right.
      * exists acc', w'. split; [done|]. split; [done|].
        cbn [verbs] in Hlen. simpl. lia.
Qed.

Lemma candidate_nonEmpty (word : string) :
  isVerbCandidate word = true -> nonEmpty word = true.
Proof.
  unfold isVerbCandidate. destruct (nonEmpty word); [done | discriminate].
Qed.

Lemma buildVerb_translation (translationMap : gmap string string)
    (x : candidate) (tenses : conjugations) (raw : string) :
  translationMap !! c_infinitive x = Some raw -> nonEmpty raw = true ->
  c_translation x = normalizeTranslation raw ->
  v_translation (buildVerb translationMap x tenses) = c_translation x.
Proof.
  intros Hraw Hne Htr. unfold buildVerb. cbn [v_translation].
  rewrite Hraw. change (default ""%string (Some raw)) with raw.
  assert (Hfirst : forall other, orString raw other = raw).
  { intros other. unfold orString. now rewrite Hne. }
  rewrite Hfirst. unfold orString.
  rewrite (SelectionFacts.normalizeTranslation_nonEmpty raw Hne). done.
Qed.

(** X20.  The dataset the build writes passes the validation: with forms
    trimmed as [parseTable] leaves them, the last loop of [main], run on the
    selection made from any dictionary and frequency list, returns, and the
    verbs it wrote are at most [MAX_VERBS], each with a translation that is
    not empty and with the group the application would derive, and
    [validate] finds no issue in them. *)
Theorem written_dataset_passes_validation
    (translationMap : gmap string string) (freqWords : list string)
    (w : world) :
  (forall html, trimmedTables (extractTables html)) ->
  exists acc w',
    fetchEach translationMap (selectVerbs translationMap freqWords)
              (Assembly [] []) w = (Ok acc, w')
    /\ validate (map verbJson (verbs acc)) = []
    /\ length (verbs acc) <= MAX_VERBS
    /\ Forall (fun verb => nonEmpty (v_translation verb) = true
                           /\ v_group verb = App.getVerbGroup (v_infinitive verb))
              (verbs acc).
Proof.
  intros Htrim.
  destruct (SelectionFacts.selectVerbs_invariant translationMap freqWords)
    as (Hbound & Hsel & _).
  destruct (fetchAll_invariant
              (fun verb => complete (verbJson verb) = true
                           /\ nonEmpty (v_translation verb) = true
                           /\ v_group verb
                              = App.getVerbGroup (v_infinitive verb))
              translationMap (selectVerbs translationMap freqWords)
              (Assembly [] []) w)
    as (acc & w' & Hrun & Hall & Hlen).
  - constructor.
  - intros x tenses w1 w2 Hx Hone.
    destruct (Hsel x Hx) as (_ & Hcand & (raw & Hraw & Hne & Htr) & Htrne).
    destruct (fetchOne_ok _ _ _ _ Hone) as [Hcheck [html ->]].
    split; [|split].
    + apply complete_verbJson; cbn [buildVerb v_infinitive v_tenses];
        [now apply candidate_nonEmpty | done | apply Htrim].
    + now rewrite (buildVerb_translation _ _ _ raw).
    + cbn [buildVerb v_group v_infinitive].
      now apply SelectionFacts.getGroup_of_candidate.
  - exists acc, w'. split; [exact Hrun|]. split; [|split].
    + apply ValidateFacts.validate_complete. apply forallb_forall.
      intros verb (v & <- & Hv%list_elem_of_In)%in_map_iff.
      rewrite Forall_forall in Hall. exact (proj1 (Hall v Hv)).
    + cbn [verbs length] in Hlen. lia.
    + eapply Forall_impl; [exact Hall|]. intros verb (_ & ? & ?). done.
Qed.

End DatasetFacts.

Lemma fetchIrregularConjugations_served_from_cache_witness :
  fetchIrregularConjugations Samples.sampleExtract DatasetSamples.moodRemote
    "ser" DatasetSamples.afterSer
  = (Ok (Samples.sampleExtract "Indicative mood of ser"),
     DatasetSamples.afterSer).
Proof.
  refine (proj2 (fetchIrregularConjugations_served_from_cache
                   Samples.sampleExtract DatasetSamples.moodRemote "ser"
                   (World ∅ 0) DatasetSamples.afterSer _ _)
                "Indicative mood of ser"%string _ _);
    vm_compute; reflexivity.
Defined.

Lemma fullTable_forms (person form : string) :
  Samples.fullTable !! person = Some form -> trim form = form.
Proof.
  unfold Samples.fullTable. intros Hin%elem_of_list_to_map_2.
  apply list_elem_of_fmap in Hin as (p & [= _ ->] & _). reflexivity.
Qed.

Lemma sampleExtract_trimmed (html : string) :
  trimmedTables (Samples.sampleExtract html).
Proof.
  intros table person form Hin Hlook.
  unfold tablesOf, Samples.sampleExtract in Hin.
  cbn [present imperfect future conditional subjunctive_present
       subjunctive_imperfect imperative] in Hin.
  assert (Hcases : table = Samples.fullTable
                   \/ table = delete "tu"%string Samples.fullTable
                   \/ table = ∅).
  { repeat (apply elem_of_cons in Hin as [-> | Hin];
            [first [now left | destruct (String.eqb html "fer"); auto]|]).
    now apply elem_of_nil in Hin. }
  destruct Hcases as [-> | [-> | ->]].
  - now apply (fullTable_forms person).
  - apply lookup_delete_Some in Hlook as [_ Hlook].
    now apply (fullTable_forms person).
  - now rewrite lookup_empty in Hlook.
Qed.

Lemma written_dataset_passes_validation_witness :
  exists acc w',
    fetchAll Samples.sampleExtract Samples.sampleRemote
      Samples.threeTranslations
      (selectVerbs Samples.threeTranslations Samples.threeVerbs)
      (Assembly [] []) (World ∅ 0) = (Ok acc, w')
    /\ validate (map verbJson (verbs acc)) = []
    /\ length (verbs acc) <= MAX_VERBS
    /\ Forall (fun verb => nonEmpty (v_translation verb) = true
                           /\ v_group verb
                              = App.getVerbGroup (v_infinitive verb))
              (verbs acc).
Proof.
  exact (written_dataset_passes_validation Samples.sampleExtract
           Samples.sampleRemote Samples.threeTranslations Samples.threeVerbs
           (World ∅ 0) sampleExtract_trimmed).
Defined.

End DatasetFacts.

(** ** Translations and duplicates *)

Module TranslationFacts.

Import Stdlib.Strings.Ascii.
Import JS JSFacts BuildVerbs.

(** *** [trim] *)

Lemma trimStart_split (l : list ascii) :
  exists spaces, l = spaces ++ trimStart l
                 /\ Forall (fun a => isSpace a = true) spaces.
Proof.
  induction l as [|a l (spaces & Heq & Hsp)]; [now exists []|].
  simpl. destruct (isSpace a) eqn:Ha.
  - exists (a :: spaces). split; [simpl; congruence | now constructor].
  - now exists [].
Qed.

Lemma trimStart_head (l : list ascii) (a : ascii) (rest : list ascii) :
  trimStart l = a :: rest -> isSpace a = false.
Proof.
  induction l as [|b l IH]; [discriminate|]. simpl.
  destruct (isSpace b) eqn:Hb; [exact IH|]. now intros [= <- _].
Qed.

Lemma trimStart_kept (l : list ascii) (a : ascii) :
  isSpace a = false -> trimStart (a :: l) = a :: l.
Proof. intros Ha. simpl. now rewrite Ha. Qed.

Lemma trimStart_idempotent (l : list ascii) :
  trimStart (trimStart l) = trimStart l.
Proof.
  destruct (trimStart l) as [|a rest] eqn:Hl; [done|].
  apply trimStart_kept, (trimStart_head l a rest Hl).
Qed.

(** [trim] on the code units. *)
Local Abbreviation trimmed l := (rev (trimStart (rev (trimStart l)))).

Lemma chars_trim (s : string) : chars (trim s) = trimmed (chars s).
Proof. unfold trim. apply chars_str. Qed.

(** A list that begins and ends with something other than white space is
    left as it is. *)
Lemma trimmed_fixed (l : list ascii) :
  trimStart l = l -> trimStart (rev l) = rev l -> trimmed l = l.
Proof. intros -> ->. apply rev_involutive. Qed.

Lemma trimmed_ends (l : list ascii) :
  trimStart (trimmed l) = trimmed l
  /\ trimStart (rev (trimmed l)) = rev (trimmed l).
Proof.
  split.
  - destruct (trimStart_split (rev (trimStart l))) as (spaces & Heq & _).
    apply (f_equal (@rev ascii)) in Heq.
    rewrite rev_involutive, rev_app_distr in Heq.
    destruct (rev (trimStart (rev (trimStart l)))) as [|a rest] eqn:Ht;
      [done|].
    apply trimStart_kept. simpl in Heq.
    now apply (trimStart_head l a (rest ++ rev spaces)).
  - rewrite rev_involutive. apply trimStart_idempotent.
Qed.

Lemma trimmed_idempotent (l : list ascii) : trimmed (trimmed l) = trimmed l.
Proof. destruct (trimmed_ends l). now apply trimmed_fixed. Qed.

Lemma trimStart_subset (l : list ascii) (a : ascii) :
  a ∈ trimStart l -> a ∈ l.
Proof.
  destruct (trimStart_split l) as (spaces & Heq & _). intros Ha.
  rewrite Heq. apply elem_of_app. now right.
Qed.

Lemma elem_of_rev (l : list ascii) (a : ascii) : a ∈ rev l <-> a ∈ l.
Proof. rewrite !list_elem_of_In. symmetry. apply in_rev. Qed.

Lemma trimmed_subset (l : list ascii) (a : ascii) : a ∈ trimmed l -> a ∈ l.
Proof.
  intros Ha. apply (proj1 (elem_of_rev _ _)) in Ha.
  apply trimStart_subset in Ha. apply (proj1 (elem_of_rev _ _)) in Ha.
  now apply trimStart_subset.
Qed.

(** *** [split(sep)[0]] *)

Lemma beforeFirst_subset (sep : ascii) (l : list ascii) (a : ascii) :
  a ∈ beforeFirst sep l -> a ∈ l /\ ascii_eqb a sep = false.
Proof.
  induction l as [|b l IH]; simpl; [intros H; now apply elem_of_nil in H|].
  destruct (ascii_eqb b sep) eqn:Hb; [intros H; now apply elem_of_nil in H|].
  intros [-> | [Hin Hne]%IH]%elem_of_cons.
  - split; [left | done].
  - split; [now right | done].
Qed.

Lemma beforeFirst_without (sep : ascii) (l : list ascii) :
  (forall a, a ∈ l -> ascii_eqb a sep = false) -> beforeFirst sep l = l.
Proof.
  induction l as [|b l IH]; intros Hfree; [done|]. simpl.
  rewrite (Hfree b) by left. f_equal. apply IH. intros a Ha.
  apply Hfree. now right.
Qed.

Lemma isInfix_unit (sep : ascii) (l : list ascii) :
  (forall a, a ∈ l -> ascii_eqb a sep = false) -> isInfix [sep] l = false.
Proof.
  induction l as [|b l IH]; intros Hfree; [done|].
  cbn [isInfix isPrefix]. unfold ascii_eqb in *.
  rewrite Ascii.eqb_sym, (Hfree b) by left. cbn [andb orb].
  apply IH. intros a Ha. apply Hfree. now right.
Qed.

(** *** [normalizeTranslation] *)

(** The text [normalizeTranslation] works on: the part before the first
    semicolon and the first comma, trimmed. *)
Local Abbreviation cleanedOf value :=
  (trim (splitFirst (c 44) (splitFirst (c 59) value))).

Lemma cleaned_units (value : string) (a : ascii) :
  a ∈ chars (cleanedOf value) ->
  ascii_eqb a (c 59) = false /\ ascii_eqb a (c 44) = false.
Proof.
  rewrite chars_trim. intros Ha%trimmed_subset.
  unfold splitFirst in Ha. rewrite !chars_str in Ha.
  apply beforeFirst_subset in Ha as [Ha Hcomma].
  apply beforeFirst_subset in Ha as [_ Hsemi]. done.
Qed.

(** A text without separator that begins and ends with something other than
    white space is its own cleaned text. *)
Lemma cleaned_fixed (text : string) :
  (forall a, a ∈ chars text ->
             ascii_eqb a (c 59) = false /\ ascii_eqb a (c 44) = false) ->
  trimStart (chars text) = chars text ->
  trimStart (rev (chars text)) = rev (chars text) ->
  cleanedOf text = text.
Proof.
  intros Hfree Hstart Hend. unfold splitFirst.
  rewrite (beforeFirst_without (c 59)) by (intros a Ha; apply (Hfree a Ha)).
  rewrite str_chars.
  rewrite (beforeFirst_without (c 44)) by (intros a Ha; apply (Hfree a Ha)).
  rewrite str_chars. unfold trim.
  rewrite (trimmed_fixed _ Hstart Hend). apply str_chars.
Qed.

Lemma cleaned_cleaned (value : string) :
  cleanedOf (cleanedOf value) = cleanedOf value.
Proof.
  apply cleaned_fixed.
  - apply cleaned_units.
  - rewrite chars_trim. apply trimmed_ends.
  - rewrite chars_trim. apply trimmed_ends.
Qed.

Lemma chars_append (s t : string) : chars (s +:+ t) = chars s ++ chars t.
Proof. induction s as [|a s IH]; simpl; [done | now rewrite IH]. Qed.

Lemma cleaned_with_to (value : string) :
  nonEmpty (cleanedOf value) = true ->
  cleanedOf ("to " +:+ cleanedOf value) = ("to " +:+ cleanedOf value)%string.
Proof.
  intros Hne. apply cleaned_fixed.
  - intros a. rewrite chars_append. intros [Ha | Ha]%elem_of_app.
    + apply list_elem_of_In in Ha. simpl in Ha.
      destruct Ha as [<- | [<- | [<- | []]]]; done.
    + now apply (cleaned_units value).
  - reflexivity.
  - rewrite chars_append, rev_app_distr.
    destruct (trimmed_ends (chars (splitFirst (c 44)
                                     (splitFirst (c 59) value))))
      as [_ Hend].
    rewrite <- chars_trim in Hend.
    destruct (rev (chars (cleanedOf value))) as [|a rest] eqn:Hrev.
    + apply (f_equal (@rev ascii)) in Hrev. rewrite rev_involutive in Hrev.
      apply (f_equal str) in Hrev. rewrite str_chars in Hrev.
      rewrite Hrev in Hne. discriminate.
    + simpl. simpl in Hend.
      destruct (isSpace a) eqn:Ha; [|done]. exfalso.
      apply (f_equal (@length ascii)) in Hend.
      destruct (trimStart_split rest) as (spaces & Heq & _).
      apply (f_equal (@length ascii)) in Heq.
      rewrite length_app in Heq. simpl in Hend. lia.
Qed.

Lemma startsWith_to (text : string) : startsWith ("to " +:+ text) "to " = true.
Proof. reflexivity. Qed.

(** X21.  [normalizeTranslation] keeps its result when it is applied again;
    its result is its argument unchanged or begins with "to ", in which case
    it holds neither comma nor semicolon; and it is not empty when the
    argument is not. *)
Theorem normalizeTranslation_idempotent (value : string) :
  normalizeTranslation (normalizeTranslation value)
  = normalizeTranslation value
  /\ (normalizeTranslation value = value
      \/ (startsWith (normalizeTranslation value) "to " = true
          /\ includes (normalizeTranslation value) "," = false
          /\ includes (normalizeTranslation value) ";" = false))
  /\ (nonEmpty value = true -> nonEmpty (normalizeTranslation value) = true).
Proof.
  split; [|split; [|apply SelectionFacts.normalizeTranslation_nonEmpty]].
  - unfold normalizeTranslation at 2 3.
    destruct (nonEmpty value) eqn:Hv; cbn [negb];
      [|unfold normalizeTranslation; now rewrite Hv].
    destruct (nonEmpty (cleanedOf value)) eqn:Hc; cbn [negb];
      [|unfold normalizeTranslation; now rewrite Hv, Hc].
    destruct (startsWith (cleanedOf value) "to ") eqn:Hto.
    + unfold normalizeTranslation.
      rewrite cleaned_cleaned, Hc, Hto. reflexivity.
    + unfold normalizeTranslation.
      rewrite (cleaned_with_to value Hc), startsWith_to. reflexivity.
  - unfold normalizeTranslation.
    destruct (nonEmpty value) eqn:Hv; cbn [negb]; [|now left].
    destruct (nonEmpty (cleanedOf value)) eqn:Hc; cbn [negb]; [|now left].
    right.
    assert (Hfree : forall text : string,
              (forall a, a ∈ chars text ->
                 ascii_eqb a (c 59) = false /\ ascii_eqb a (c 44) = false) ->
              includes text "," = false /\ includes text ";" = false).
    { intros text Hunits. split.
      - apply (isInfix_unit (c 44)). intros a Ha. now apply Hunits.
      - apply (isInfix_unit (c 59)). intros a Ha. now apply Hunits. }
    destruct (startsWith (cleanedOf value) "to ") eqn:Hto.
    + destruct (Hfree (cleanedOf value) (cleaned_units value)). done.
    + rewrite startsWith_to.
      destruct (Hfree ("to " +:+ cleanedOf value)%string); [|done].
      intros a. rewrite chars_append. intros [Ha | Ha]%elem_of_app.
      * apply list_elem_of_In in Ha. simpl in Ha.
        destruct Ha as [<- | [<- | [<- | []]]]; done.
      * now apply (cleaned_units value).
Qed.

(** *** Duplicates *)

Lemma mainPass_distinct (translationMap : gmap string string)
    (words : list string) (st : selection) :
  NoDup (map c_infinitive (selected st ++ orthographyCandidates st) ++ words) ->
  let st' := mainPass translationMap words st in
  NoDup (map c_infinitive (selected st' ++ orthographyCandidates st')).
Proof.
  revert st. induction words as [|word words IH]; intros st Hnodup;
    cbn [mainPass].
  - now rewrite app_nil_r in Hnodup.
  - destruct (MAX_VERBS <=? length (selected st));
      [now apply NoDup_app in Hnodup as [? _]|].
    assert (Hskip : NoDup (map c_infinitive
                             (selected st ++ orthographyCandidates st)
                           ++ words)).
    { apply NoDup_app in Hnodup as (H1 & H2 & H3%NoDup_cons).
      apply NoDup_app. split; [done|]. split; [|tauto].
      intros x Hx Hin. apply (H2 x Hx). now right. }
    destruct (isVerbCandidate word); cbn [negb]; [|now apply IH].
    destruct (nonEmpty (default "" (translationMap !! word))); cbn [negb];
      [|now apply IH].
    destruct (isOrthographic word); apply IH;
      cbn [selected orthographyCandidates].
    + rewrite app_assoc, map_app. cbn [map c_infinitive].
      now rewrite <- app_assoc.
    + eapply NoDup_Permutation_proper; [|exact Hnodup].
      rewrite !map_app. cbn [map c_infinitive].
      rewrite <- !app_assoc. apply Permutation_app_head.
      cbn [app]. apply Permutation_middle.
Qed.

(** X22.  When no word occurs twice in the frequency list, no infinitive
    occurs twice among the selected verbs: the loops of [main] drop no
    duplicate themselves. *)
Theorem selectVerbs_distinct_infinitives
    (translationMap : gmap string string) (freqWords : list string) :
  NoDup freqWords ->
  NoDup (map c_infinitive (selectVerbs translationMap freqWords)).
Proof.
  intros Hnodup. unfold selectVerbs.
  pose proof (mainPass_distinct translationMap freqWords emptySelection Hnodup)
    as Hall. cbv zeta in Hall.
  destruct (BuildFacts.includeOrthographic_appends
              (orthographyCandidates
                 (mainPass translationMap freqWords emptySelection))
              (selected (mainPass translationMap freqWords emptySelection)))
    as [k ->].
  eapply sublist_NoDup; [exact Hall|].
  apply fmap_sublist, sublist_app; [done | apply sublist_take].
Qed.

Lemma selectVerbs_distinct_infinitives_witness :
  NoDup (map c_infinitive
           (selectVerbs Samples.threeTranslations Samples.threeVerbs))
  /\ map c_infinitive
       (selectVerbs Samples.threeTranslations ["parlar"; "parlar"])
     = ["parlar"; "parlar"]%string.
Proof.
  split; [|vm_compute; reflexivity].
  apply (selectVerbs_distinct_infinitives Samples.threeTranslations
           Samples.threeVerbs).
  unfold Samples.threeVerbs.
  repeat (apply NoDup_cons; split;
          [intros Hin%list_elem_of_In; simpl in Hin; intuition discriminate|]).
  apply NoDup_nil_2.
Defined.

End TranslationFacts.

(** ** The frequency list *)

Module FrequencyFacts.

Import Stdlib.Strings.Ascii.
Import JS JSFacts Frequency.

(** *** Line breaks *)

Lemma splitLines_whole (row : list ascii) :
  (forall a, a ∈ row -> isSpace a = false \/ code a = 32) ->
  splitLines row = [row].
Proof.
  assert (Hunit : forall a, isSpace a = false \/ code a = 32 ->
                            isLF a = false /\ isCR a = false).
  { intros a [Ha | Ha]; unfold isLF, isCR; [|now rewrite Ha].
    unfold isSpace in Ha. cbv zeta in Ha.
    repeat (apply orb_false_elim in Ha as [Ha ?]). done. }
  induction row as [|a row IH]; intros Hrow; [done|].
  destruct (Hunit a (Hrow a ltac:(left))) as [Hlf Hcr].
  cbn [splitLines]. rewrite Hlf, Hcr. cbn [andb].
  rewrite IH by (intros b Hb; apply Hrow; now right).
  now destruct row.
Qed.

Lemma splitLines_first (row rest : list ascii) :
  (forall a, a ∈ row -> isSpace a = false \/ code a = 32) ->
  splitLines (row ++ c 10 :: rest) = row :: splitLines rest.
Proof.
  assert (Hunit : forall a, isSpace a = false \/ code a = 32 ->
                            isLF a = false /\ isCR a = false).
  { intros a [Ha | Ha]; unfold isLF, isCR; [|now rewrite Ha].
    unfold isSpace in Ha. cbv zeta in Ha.
    repeat (apply orb_false_elim in Ha as [Ha ?]). done. }
  induction row as [|a row IH]; intros Hrow; [reflexivity|].
  destruct (Hunit a (Hrow a ltac:(left))) as [Hlf Hcr].
  change ((a :: row) ++ c 10 :: rest) with (a :: (row ++ c 10 :: rest)).
  cbn [splitLines]. rewrite Hlf, Hcr. cbn [andb].
  rewrite IH by (intros b Hb; apply Hrow; now right).
  now destruct row.
Qed.

(** *** Columns *)

Lemma splitSpaces_whole (column : list ascii) :
  (forall a, a ∈ column -> isSpace a = false) ->
  splitSpaces column = [column].
Proof.
  induction column as [|a column IH]; intros Hcol; [done|].
  cbn [splitSpaces]. rewrite (Hcol a) by left.
  now rewrite IH by (intros b Hb; apply Hcol; now right).
Qed.

Lemma splitSpaces_first (column rest : list ascii) (b : ascii) :
  (forall a, a ∈ column -> isSpace a = false) -> isSpace b = false ->
  splitSpaces (column ++ c 32 :: b :: rest)
  = column :: splitSpaces (b :: rest).
Proof.
  intros Hcol Hb. induction column as [|a column IH].
  - change ([] ++ c 32 :: b :: rest) with (c 32 :: b :: rest).
    cbn [splitSpaces].
    change (isSpace (c 32)) with true. cbn iota. now rewrite Hb.
  - change ((a :: column) ++ c 32 :: b :: rest)
      with (a :: (column ++ c 32 :: b :: rest)).
    cbn [splitSpaces]. rewrite (Hcol a) by left.
    now rewrite IH by (intros x Hx; apply Hcol; now right).
Qed.

Lemma splitSpaces_pieces (l piece : list ascii) (a : ascii) :
  piece ∈ splitSpaces l -> a ∈ piece -> isSpace a = false.
Proof.
  revert piece. induction l as [|b l IH]; intros piece.
  - intros ->%list_elem_of_singleton Ha. now apply elem_of_nil in Ha.
  - cbn [splitSpaces]. destruct (isSpace b) eqn:Hb.
    + destruct l as [|b' l'].
      * intros Hin Ha.
        apply elem_of_cons in Hin as [-> | ->%list_elem_of_singleton];
          now apply elem_of_nil in Ha.
      * destruct (isSpace b'); [apply IH|].
        intros [-> | Hin]%elem_of_cons Ha;
          [now apply elem_of_nil in Ha | now apply (IH piece)].
    + destruct (splitSpaces l) as [|first others].
      * intros ->%list_elem_of_singleton [-> | Ha]%elem_of_cons;
          [done | now apply elem_of_nil in Ha].
      * intros [-> | Hin]%elem_of_cons Ha.
        -- apply elem_of_cons in Ha as [-> | Ha]; [done|].
           apply (IH first); [left | done].
        -- apply (IH piece); [now right | done].
Qed.

(** *** Lines *)

Lemma chars_joinWith (sep part : string) (rest : list string) :
  chars (joinWith sep (part :: rest))
  = match rest with
    | [] => chars part
    | _ :: _ => chars part ++ chars sep ++ chars (joinWith sep rest)
    end.
Proof.
  destruct rest; [done|].
  cbn [joinWith]. now rewrite !TranslationFacts.chars_append.
Qed.

(** The columns of a line, read as code units. *)
Lemma line_units (columns : list string) (a : ascii) :
  Forall isColumn columns -> a ∈ chars (lineOf columns) ->
  isSpace a = false \/ code a = 32.
Proof.
  unfold lineOf. induction columns as [|column columns IH]; intros Hcols.
  - intros Ha. now apply elem_of_nil in Ha.
  - apply Forall_cons in Hcols as [[_ Hcol] Hcols].
    rewrite chars_joinWith. destruct columns as [|next columns].
    + intros Ha. left. now apply Hcol.
    + intros [Ha | [Ha | Ha]%elem_of_app]%elem_of_app.
      * left. now apply Hcol.
      * right. now apply list_elem_of_singleton in Ha as ->.
      * now apply IH.
Qed.

Lemma column_head (column : string) :
  isColumn column ->
  exists a rest, chars column = a :: rest /\ isSpace a = false.
Proof.
  intros [Hne Hcol]. destruct column as [|a rest]; [discriminate|].
  exists a, (chars rest). split; [done|]. apply Hcol. left.
Qed.

Lemma line_head (column : string) (columns : list string) :
  isColumn column ->
  exists a rest, chars (lineOf (column :: columns)) = a :: rest
                 /\ isSpace a = false.
Proof.
  intros (a & rest & Heq & Ha)%column_head. unfold lineOf.
  rewrite chars_joinWith. destruct columns; rewrite Heq; eauto.
Qed.

Lemma line_last (column : string) (columns : list string) :
  Forall isColumn (column :: columns) ->
  exists a rest, rev (chars (lineOf (column :: columns))) = a :: rest
                 /\ isSpace a = false.
Proof.
  revert column. induction columns as [|next columns IH]; intros column Hcols.
  - apply Forall_cons in Hcols as [[Hne Hcol] _]. unfold lineOf. simpl.
    destruct (rev (chars column)) as [|a rest] eqn:Hrev.
    + apply (f_equal (@rev ascii)) in Hrev. rewrite rev_involutive in Hrev.
      apply (f_equal str) in Hrev. rewrite str_chars in Hrev.
      rewrite Hrev in Hne. discriminate.
    + exists a, rest. split; [done|]. apply Hcol.
      apply list_elem_of_In, in_rev. rewrite Hrev. now left.
  - apply Forall_cons in Hcols as [_ Hcols].
    destruct (IH next Hcols) as (a & rest & Heq & Ha).
    unfold lineOf in *. rewrite chars_joinWith, !rev_app_distr, Heq.
    simpl. eauto.
Qed.

Lemma line_trimmed (column : string) (columns : list string) :
  Forall isColumn (column :: columns) ->
  trim (lineOf (column :: columns)) = lineOf (column :: columns).
Proof.
  intros Hcols. unfold trim.
  destruct (line_head column columns) as (a & rest & Hhead & Ha);
    [now apply Forall_cons in Hcols as [? _]|].
  destruct (line_last column columns Hcols) as (b & rest' & Hlast & Hb).
  rewrite TranslationFacts.trimmed_fixed; [apply str_chars | |].
  - rewrite Hhead. now apply TranslationFacts.trimStart_kept.
  - rewrite Hlast. now apply TranslationFacts.trimStart_kept.
Qed.

Lemma line_columns (column : string) (columns : list string) :
  Forall isColumn (column :: columns) ->
  splitSpaces (chars (lineOf (column :: columns)))
  = map chars (column :: columns).
Proof.
  revert column. induction columns as [|next columns IH]; intros column Hcols.
  - apply Forall_cons in Hcols as [[_ Hcol] _]. unfold lineOf. simpl.
    now apply splitSpaces_whole.
  - apply Forall_cons in Hcols as [[_ Hcol] Hcols].
    destruct (line_head next columns) as (b & rest & Hhead & Hb);
      [now apply Forall_cons in Hcols as [? _]|].
    specialize (IH next Hcols). unfold lineOf in *.
    rewrite chars_joinWith. rewrite Hhead in *.
    change (chars " ") with [c 32]. cbn [app].
    rewrite splitSpaces_first by done. now rewrite IH.
Qed.

(** The word a well-formed line adds. *)
Lemma parseLine_line (columns : list string) :
  Forall isColumn columns ->
  parseLine (lineOf columns) = toLowerCase <$> columns !! 1.
Proof.
  intros Hcols. destruct columns as [|column columns]; [reflexivity|].
  unfold parseLine. rewrite (line_trimmed column columns Hcols).
  destruct (line_head column columns) as (a & rest & Hhead & _);
    [now apply Forall_cons in Hcols as [? _]|].
  assert (Hne : nonEmpty (lineOf (column :: columns)) = true).
  { apply nonEmpty_true. intros Hempty. rewrite Hempty in Hhead. done. }
  rewrite Hne. cbn [negb]. rewrite (line_columns column columns Hcols).
  destruct columns as [|word columns]; [reflexivity|].
  cbn [map length lookup list_lookup]. cbn [Nat.ltb Nat.leb].
  rewrite str_chars.
  apply Forall_cons in Hcols as [_ Hcols].
  apply Forall_cons in Hcols as [[Hword _] _]. now rewrite Hword.
Qed.

(** The lines of a well-formed list. *)
Lemma lines_of_list (row : list string) (rows : list (list string)) :
  Forall (Forall isColumn) (row :: rows) ->
  map str (splitLines (chars (listOf (row :: rows))))
  = map lineOf (row :: rows).
Proof.
  revert row. induction rows as [|next rows IH]; intros row Hrows.
  - apply Forall_cons in Hrows as [Hrow _]. unfold listOf. simpl.
    rewrite splitLines_whole by (intros a; now apply line_units).
    simpl. now rewrite str_chars.
  - apply Forall_cons in Hrows as [Hrow Hrows].
    specialize (IH next Hrows). unfold listOf in *.
    cbn [map] in *. rewrite chars_joinWith.
    change (chars (String (c 10) EmptyString)) with [c 10]. cbn [app].
    rewrite splitLines_first by (intros a; now apply line_units).
    cbn [map]. now rewrite str_chars, IH.
Qed.

(** *** What [toLowerCase] keeps *)

Lemma lowerUnit_not_space (a : ascii) :
  isSpace a = false -> isSpace (lowerUnit a) = false.
Proof. destruct a as [[] [] [] [] [] [] [] []]; intros H; exact H || reflexivity. Qed.

Lemma parseLine_word (line word : string) :
  parseLine line = Some word ->
  isColumn word /\ toLowerCase word = word.
Proof.
  unfold parseLine. destruct (nonEmpty (trim line)); [|discriminate].
  cbn [negb]. destruct (length _ <? 2); [discriminate|].
  destruct (splitSpaces (chars (trim line)) !! 1) as [piece|] eqn:Hpiece;
    [|discriminate].
  destruct (nonEmpty (str piece)) eqn:Hne; [|discriminate].
  cbn [negb]. intros [= <-]. split; [split|].
  - unfold toLowerCase. rewrite chars_str.
    destruct piece; [discriminate | reflexivity].
  - intros a. unfold toLowerCase. rewrite !chars_str.
    intros (b & -> & Hb)%list_elem_of_fmap.
    apply lowerUnit_not_space.
    apply (splitSpaces_pieces (chars (trim line)) piece); [|done].
    eapply list_elem_of_lookup_2, Hpiece.
  - apply toLowerCase_idempotent.
Qed.

Lemma omap_map_ext {A B C} (f : B -> option C) (g : A -> B)
    (h : A -> option C) (l : list A) :
  (forall x, x ∈ l -> f (g x) = h x) -> omap f (map g l) = omap h l.
Proof.
  induction l as [|x l IH]; intros Hext; [done|].
  change (omap f (map g (x :: l)))
    with (match f (g x) with
          | Some y => y :: omap f (map g l)
          | None => omap f (map g l)
          end).
  change (omap h (x :: l))
    with (match h x with Some y => y :: omap h l | None => omap h l end).
  rewrite (Hext x) by left.
  now rewrite IH by (intros y Hy; apply Hext; now right).
Qed.

(** X23.  [parseFrequencyList] reads the second column: for a list whose
    lines are columns without white space, one space between two columns
    and one line feed between two lines, it returns, in order, the second
    column of every line that has one, in lower case; and whatever the text,
    every word it returns is lower case, not empty and without white
    space. *)
Theorem parseFrequencyList_reads_the_second_column
    (rows : list (list string)) :
  Forall (Forall isColumn) rows ->
  parseFrequencyList (listOf rows)
  = omap (fun row => toLowerCase <$> row !! 1) rows
  /\ forall text word,
       word ∈ parseFrequencyList text ->
       isColumn word /\ toLowerCase word = word.
Proof.
  intros Hrows. split.
  - destruct rows as [|row rows]; [reflexivity|].
    unfold parseFrequencyList. rewrite (lines_of_list row rows Hrows).
    apply omap_map_ext. intros r Hr. apply parseLine_line.
    rewrite Forall_forall in Hrows. now apply Hrows.
  - intros text word. unfold parseFrequencyList.
    intros (line & _ & Hline)%list_elem_of_omap.
    now apply (parseLine_word line).
Qed.

Lemma parseFrequencyList_reads_the_second_column_witness :
  parseFrequencyList
    (listOf [["1"; "de"; "904"]; []; ["2"; "Parlar"]; ["3"]])
  = ["de"; "parlar"]%string.
Proof.
  refine (proj1 (parseFrequencyList_reads_the_second_column
                   [["1"; "de"; "904"]; []; ["2"; "Parlar"]; ["3"]] _)).
  repeat match goal with |- Forall _ _ => constructor end;
    (split; [reflexivity|]);
    intros a Ha%list_elem_of_In; simpl in Ha;
    repeat (destruct Ha as [<- | Ha]; [reflexivity|]); destruct Ha.
Defined.

End FrequencyFacts.
